(** * Probe's Journey: the search engine of [src/App.tsx]

    A shallow embedding of the grid model, the move generator [moveGen],
    the goal tests and the three traversal engines [dfsSolve], [bfsSolve]
    and [bestFirstSolve], followed by the properties of the engine.

    Conventions of the embedding.
    - A [Grid] is the JavaScript array of rows, [list (list Cell)]; rows may
      have different lengths, exactly as a [Cell[][]] may.
    - Indices are JavaScript numbers that can become negative
      ([pr + dir.dr]); they are integers [Z] here.  Reading a cell gives
      [option Cell], [None] standing for JavaScript's [undefined].
    - Counters and the ceiling [maxNodes] are natural numbers.
    - A [while] loop is the iteration of its body under a bound on the
      number of iterations; a function whose loops might not end returns an
      [option], and [None] is a call that does not return.  [solve_total]
      shows that no call of an engine is of that kind.
    - Keys are the strings the source builds; the parent map is a
      [gmap string (option string)], [Some None] being the [null] parent
      of the start key, and the visited set a [gset string].
    - [SearchResult] holds the fields of a result that the search
      determines; the wall-clock field [timeMs] is added by [withTime],
      from the two readings of [performance.now()] a call makes, which are
      an input of the model. *)

From stdpp Require Import gmap strings list fin_maps.
From Stdlib Require Import ZArith Lia.
From Stdlib Require Ascii.

Local Open Scope Z_scope.

(** ** Cells, grids and positions *)

Inductive Cell : Type := EMPTY | WALL | AST | PROBE | DOCK.

#[global] Instance Cell_eq_dec : EqDecision Cell.
Proof. solve_decision. Defined.

Abbreviation Grid := (list (list Cell)).

Record Pos : Type := mkPos { posR : Z; posC : Z }.

#[global] Instance Pos_eq_dec : EqDecision Pos.
Proof. solve_decision. Defined.

(** [g[0].length], the column count every loop of the source uses.  The
    source evaluates it only when [g] has a row. *)
Definition width (g : Grid) : nat :=
  match g with
  | [] => 0%nat
  | row0 :: _ => length row0
  end.

(** [g[r][c]].  In the source every read is guarded by [inBounds] or by the
    loop bounds of [findCell], so [r] always names a row; a column past the
    end of a shorter row reads [undefined] ([None]). *)
Definition cellAt (g : Grid) (r c : Z) : option Cell :=
  if (0 <=? r) && (0 <=? c)
  then g !! Z.to_nat r ≫= (λ row, row !! Z.to_nat c)
  else None.

(** [ng[r][c] = v].  [moveGen] only assigns cells it has read a defined
    value from before: the probe's cell, the adjacent cell, the asteroids
    of the run and the landing cell ([moveDir_Some_inv]).  So an
    assignment never extends a row as JavaScript would out of range; there
    this update leaves the grid as it is. *)
Definition setCell (g : Grid) (r c : Z) (v : Cell) : Grid :=
  if (0 <=? r) && (0 <=? c)
  then alter (λ row, <[Z.to_nat c := v]> row) (Z.to_nat r) g
  else g.

(** [r.slice()] and [cloneGrid]: in a value model a copy is the same list;
    the allocation is modelled in [Module Heap] below. *)
Definition slice (row : list Cell) : list Cell := row.

Definition cloneGrid (g : Grid) : Grid := slice <$> g.

(** ** [findCell]: first match in row-major order over columns [< g[0].length] *)

Fixpoint indexOf (val : Cell) (row : list Cell) : option nat :=
  match row with
  | [] => None
  | x :: xs => if decide (x = val) then Some 0%nat else S <$> indexOf val xs
  end.

Fixpoint findRows (w : nat) (val : Cell) (rows : list (list Cell)) (r : nat)
  : option Pos :=
  match rows with
  | [] => None
  | row :: rest =>
      match indexOf val (take w row) with
      | Some c => Some (mkPos (Z.of_nat r) (Z.of_nat c))
      | None => findRows w val rest (S r)
      end
  end.

Definition findCell (g : Grid) (val : Cell) : option Pos :=
  findRows (width g) val g 0.

(** ** Directions: up, down, left, right *)

Record Dir : Type := mkDir { dr : Z; dc : Z; name : string }.

Definition DIRS : list Dir :=
  [ mkDir (-1) 0 "Up"; mkDir 1 0 "Down"; mkDir 0 (-1) "Left"; mkDir 0 1 "Right" ].

Definition inBounds (g : Grid) (r c : Z) : bool :=
  (0 <=? r) && (r <? Z.of_nat (length g)) && (0 <=? c) && (c <? Z.of_nat (width g)).

(** ** [moveGen] *)

(** The [while] loop that collects the contiguous asteroid chain, starting
    at [(cr, cc)].  It returns the chain and the cell after its last
    asteroid.  The loop walks a straight line and stops at the grid's edge,
    so [chainFuel g] iterations always suffice ([scanChain_stops]). *)
Fixpoint scanChain (fuel : nat) (g : Grid) (d : Dir) (cr cc : Z)
  : list Pos * Pos :=
  match fuel with
  | O => ([], mkPos cr cc)
  | S fuel' =>
      if inBounds g cr cc && bool_decide (cellAt g cr cc = Some AST)
      then let '(chain, e) := scanChain fuel' g d (cr + dr d) (cc + dc d) in
           (mkPos cr cc :: chain, e)
      else ([], mkPos cr cc)
  end.

Definition chainFuel (g : Grid) : nat := S (length g + width g).

(** [for (i = chain.length - 1; i >= 0; i--)]: the asteroids move from the
    far end of the chain to the near one. *)
Definition shiftChain (d : Dir) (chain : list Pos) (ng : Grid) : Grid :=
  foldl (λ acc p,
           setCell (setCell acc (posR p + dr d) (posC p + dc d) AST)
                   (posR p) (posC p) EMPTY)
        ng (rev chain).

(** The body of [for (const dir of DIRS)] for one direction: the successor
    it pushes onto [res], or [None] when it reaches a [continue] (or the end
    of the body) without pushing. *)
Definition moveDir (g : Grid) (probe : Pos) (d : Dir) : option Grid :=
  let pr := posR probe in
  let pc := posC probe in
  let nr := pr + dr d in
  let nc := pc + dc d in
  if negb (inBounds g nr nc) then None
  else
    match cellAt g nr nc with
    | Some WALL => None
    | Some EMPTY | Some DOCK =>
        let ng := cloneGrid g in
        let ng := setCell ng pr pc EMPTY in
        let ng := setCell ng nr nc PROBE in
        Some ng
    | Some AST =>
        let '(chain, e) := scanChain (chainFuel g) g d nr nc in
        if negb (inBounds g (posR e) (posC e)) then None
        else if negb (bool_decide (cellAt g (posR e) (posC e) = Some EMPTY))
        then None
        else
          let ng := cloneGrid g in
          let ng := setCell ng pr pc EMPTY in
          let ng := shiftChain d chain ng in
          let ng := setCell ng nr nc PROBE in
          Some ng
    | Some PROBE | None => None
    end.

Definition moveGen (g : Grid) : list Grid :=
  match findCell g PROBE with
  | None => []
  | Some probe => omap (moveDir g probe) DIRS
  end.

(** ** Goal tests and the heuristic *)

Definition isGoal (g : Grid) : bool :=
  match findCell g PROBE, findCell g DOCK with
  | Some p, Some d => bool_decide (posR p = posR d) && bool_decide (posC p = posC d)
  | _, _ => false
  end.

Definition isAtDock (g : Grid) (dockPos : option Pos) : bool :=
  match dockPos with
  | None => false
  | Some d =>
      match findCell g PROBE with
      | Some p => bool_decide (posR p = posR d) && bool_decide (posC p = posC d)
      | None => false
      end
  end.

Definition manhattan (a b : Pos) : Z :=
  Z.abs (posR a - posR b) + Z.abs (posC a - posC b).

(** ** Identity keys: [serializeGrid] and [deserializeGrid] *)

Definition cellStr (x : Cell) : string :=
  match x with
  | EMPTY => "0" | WALL => "1" | AST => "2" | PROBE => "3" | DOCK => "4"
  end.

(** [Array.prototype.join]. *)
Definition join (sep : string) (l : list string) : string := String.concat sep l.

Definition serializeGrid (g : Grid) : string :=
  join "|" ((λ row, join "," (cellStr <$> row)) <$> g).

(** [String.prototype.split] for a one-character separator: the result
    always has at least one piece. *)
Fixpoint split (sep : Ascii.ascii) (s : string) : list string :=
  match s with
  | EmptyString => [EmptyString]
  | String a s' =>
      if decide (a = sep) then EmptyString :: split sep s'
      else match split sep s' with
           | x :: xs => String a x :: xs
           | [] => [String a EmptyString]
           end
  end.

(** [Number(piece) as Cell] on the pieces of a key.  [deserializeGrid] is
    only applied to keys built by [serializeGrid], whose pieces are the five
    digits, or the empty string for an empty row ([Number] of it is 0).  On
    any other text [Number] gives a number that is not a [Cell]; such text
    never reaches this function, and the model maps it to [EMPTY]. *)
Definition cellOfString (s : string) : Cell :=
  if decide (s = "1") then WALL
  else if decide (s = "2") then AST
  else if decide (s = "3") then PROBE
  else if decide (s = "4") then DOCK
  else EMPTY.

(* "|" *)
Definition sepRow : Ascii.ascii :=
  Ascii.Ascii false false true true true true true false.
(* "," *)
Definition sepCell : Ascii.ascii :=
  Ascii.Ascii false false true true false true false false.

Definition deserializeGrid (s : string) (n m : nat) : Grid :=
  let g := (λ rs, cellOfString <$> split sepCell rs) <$> split sepRow s in
  g ++ replicate (n - length g) (replicate m EMPTY).

(** ** Search results *)

Record SearchResult : Type := mkResult {
  path : option (list Grid);
  nodesExpanded : nat;
  visitedProbe : list Pos
}.

(** How a traversal loop was left: by the [return] of the goal branch, by
    the [break] of the ceiling test, or because the frontier was empty. *)
Inductive Exit (St : Type) : Type :=
| Found (key : string) (st : St)
| Ceiling (st : St)
| Exhausted (st : St).
Arguments Found {St} key st.
Arguments Ceiling {St} st.
Arguments Exhausted {St} st.

(** Iterating a loop body; [None] is a loop that has not ended after [fuel]
    iterations. *)
Fixpoint runLoop {St : Type} (step : St → St + Exit St) (fuel : nat) (st : St)
  : option (Exit St) :=
  match fuel with
  | O => None
  | S fuel' =>
      match step st with
      | inl st' => runLoop step fuel' st'
      | inr e => Some e
      end
  end.

(** [if (pp) visitedProbe.push(pp)]. *)
Definition pushProbe (grid : Grid) (visited : list Pos) : list Pos :=
  match findCell grid PROBE with
  | Some pp => visited ++ [pp]
  | None => visited
  end.

Definition goalTest (grid : Grid) (dockPos : option Pos) : bool :=
  isGoal grid || isAtDock grid dockPos.

(** Path reconstruction of [bfsSolve] and [bestFirstSolve]:
    [while (cur !== null) { path.unshift(..); cur = parent.get(cur) ?? null }].
    [None] is a walk that has not ended after [fuel] links. *)
Fixpoint walkParents (fuel : nat) (parent : gmap string (option string))
    (n m : nat) (cur : string) (acc : list Grid) : option (list Grid) :=
  match fuel with
  | O => None
  | S fuel' =>
      let acc' := deserializeGrid cur n m :: acc in
      match parent !! cur with
      | Some (Some p) => walkParents fuel' parent n m p acc'
      | Some None | None => Some acc'
      end
  end.

(** Path reconstruction of [dfsSolve]:
    [while (cur) { path.unshift(..); const p = parent.get(cur); if (!p) break; cur = p }].
    The empty string is falsy, so an empty key ends the walk too. *)
Fixpoint walkParentsDfs (fuel : nat) (parent : gmap string (option string))
    (n m : nat) (cur : string) (acc : list Grid) : option (list Grid) :=
  match fuel with
  | O => None
  | S fuel' =>
      if decide (cur = EmptyString) then Some acc
      else
        let acc' := deserializeGrid cur n m :: acc in
        match parent !! cur with
        | Some (Some p) =>
            if decide (p = EmptyString) then Some acc'
            else walkParentsDfs fuel' parent n m p acc'
        | Some None | None => Some acc'
        end
  end.

(** ** Depth-first search *)

Record DfsState : Type := mkDfs {
  d_stack : list (Grid * option string);   (* head = top of the stack *)
  d_parent : gmap string (option string);
  d_seen : gset string;
  d_nodes : nat;
  d_visited : list Pos
}.

Definition dfsPush (key : string)
    (acc : gmap string (option string) * list (Grid * option string)) (ng : Grid)
  : gmap string (option string) * list (Grid * option string) :=
  let nk := serializeGrid ng in
  (if decide (is_Some (acc.1 !! nk)) then acc.1 else <[nk := Some key]> acc.1,
   (ng, Some key) :: acc.2).

Definition dfsStep (dockPos : option Pos) (maxNodes : nat) (st : DfsState)
  : DfsState + Exit DfsState :=
  match d_stack st with
  | [] => inr (Exhausted st)
  | (grid, _) :: rest =>
      let key := serializeGrid grid in
      if decide (key ∈ d_seen st)
      then inl (mkDfs rest (d_parent st) (d_seen st) (d_nodes st) (d_visited st))
      else
        let seen := {[key]} ∪ d_seen st in
        let nodes := S (d_nodes st) in
        let visited := pushProbe grid (d_visited st) in
        if goalTest grid dockPos
        then inr (Found key (mkDfs rest (d_parent st) seen nodes visited))
        else if (maxNodes <? nodes)%nat
        then inr (Ceiling (mkDfs rest (d_parent st) seen nodes visited))
        else
          let '(parent, stack) := foldl (dfsPush key) (d_parent st, rest) (moveGen grid) in
          inl (mkDfs stack parent seen nodes visited)
  end.

Definition dfsInit (start : Grid) : DfsState :=
  mkDfs [(start, None)] {[ serializeGrid start := None ]} ∅ 0 [].

(** Enough iterations for any run: an iteration either discards a stack
    entry or counts a node and pushes at most four entries, and the loop is
    left once more than [maxNodes] nodes are counted ([dfsRun_terminates]). *)
Definition lazyFuel (maxNodes : nat) : nat := (5 * maxNodes + 8)%nat.

Definition dfsRun (start : Grid) (maxNodes : nat) : option (Exit DfsState) :=
  runLoop (dfsStep (findCell start DOCK) maxNodes) (lazyFuel maxNodes) (dfsInit start).

Definition dfsFinish (start : Grid) (e : Exit DfsState) : option SearchResult :=
  match e with
  | Found key st =>
      p ← walkParentsDfs (size (d_parent st)) (d_parent st)
            (length start) (width start) key [];
      Some (mkResult (Some p) (d_nodes st) (d_visited st))
  | Ceiling st | Exhausted st => Some (mkResult None (d_nodes st) (d_visited st))
  end.

(** [dfsSolve(start, maxNodes = 120000)].  The walk along the parent links
    is given [size parent] links, which always suffice
    ([walkParentsDfs_Link]). *)
Definition dfsSolve (start : Grid) (maxNodes : nat) : option SearchResult :=
  match findCell start DOCK, findCell start PROBE with
  | Some _, Some _ => dfsRun start maxNodes ≫= dfsFinish start
  | _, _ => Some (mkResult None 0 [])
  end.

(** ** Breadth-first search *)

Record BfsState : Type := mkBfs {
  b_q : list Grid;                         (* head = front of the queue *)
  b_parent : gmap string (option string);
  b_seen : gset string;
  b_nodes : nat;
  b_visited : list Pos
}.

Definition bfsPush (key : string)
    (acc : gset string * gmap string (option string) * list Grid) (ng : Grid)
  : gset string * gmap string (option string) * list Grid :=
  let '(seen, parent, q) := acc in
  let nk := serializeGrid ng in
  if decide (nk ∈ seen) then acc
  else ({[nk]} ∪ seen, <[nk := Some key]> parent, q ++ [ng]).

Definition bfsStep (dockPos : option Pos) (maxNodes : nat) (st : BfsState)
  : BfsState + Exit BfsState :=
  match b_q st with
  | [] => inr (Exhausted st)
  | g :: rest =>
      let key := serializeGrid g in
      let nodes := S (b_nodes st) in
      let visited := pushProbe g (b_visited st) in
      if goalTest g dockPos
      then inr (Found key (mkBfs rest (b_parent st) (b_seen st) nodes visited))
      else if (maxNodes <? nodes)%nat
      then inr (Ceiling (mkBfs rest (b_parent st) (b_seen st) nodes visited))
      else
        let '(seen, parent, q) :=
          foldl (bfsPush key) (b_seen st, b_parent st, rest) (moveGen g) in
        inl (mkBfs q parent seen nodes visited)
  end.

Definition bfsInit (start : Grid) : BfsState :=
  let startKey := serializeGrid start in
  mkBfs [start] {[ startKey := None ]} {[ startKey ]} 0 [].

(** Every iteration counts a node, so [maxNodes + 1] iterations end the
    loop. *)
Definition bfsRun (start : Grid) (maxNodes : nat) : option (Exit BfsState) :=
  runLoop (bfsStep (findCell start DOCK) maxNodes) (S maxNodes) (bfsInit start).

Definition bfsFinish (start : Grid) (e : Exit BfsState) : option SearchResult :=
  match e with
  | Found key st =>
      p ← walkParents (size (b_parent st)) (b_parent st)
            (length start) (width start) key [];
      Some (mkResult (Some p) (b_nodes st) (b_visited st))
  | Ceiling st | Exhausted st => Some (mkResult None (b_nodes st) (b_visited st))
  end.

(** [bfsSolve(start, maxNodes = 150000)]. *)
Definition bfsSolve (start : Grid) (maxNodes : nat) : option SearchResult :=
  match findCell start DOCK, findCell start PROBE with
  | Some _, Some _ => bfsRun start maxNodes ≫= bfsFinish start
  | _, _ => Some (mkResult None 0 [])
  end.

(** ** Greedy best-first search *)

(** [pq.sort((a, b) => a.score - b.score)]: [Array.prototype.sort] is
    stable, entries of equal score keep their order. *)
Fixpoint insertPQ (x : Grid * Z) (l : list (Grid * Z)) : list (Grid * Z) :=
  match l with
  | [] => [x]
  | y :: l' => if x.2 <=? y.2 then x :: y :: l' else y :: insertPQ x l'
  end.

Definition sortPQ (l : list (Grid * Z)) : list (Grid * Z) :=
  foldr insertPQ [] l.

Definition pushPQ (dockPos : Pos) (pq : list (Grid * Z)) (grid : Grid)
  : list (Grid * Z) :=
  match findCell grid PROBE with
  | None => pq
  | Some p => sortPQ (pq ++ [(grid, manhattan p dockPos)])
  end.

Record BestState : Type := mkBest {
  f_pq : list (Grid * Z);                  (* head = lowest score *)
  f_parent : gmap string (option string);
  f_seen : gset string;
  f_nodes : nat;
  f_visited : list Pos
}.

Definition bestPush (dockPos : Pos) (key : string)
    (acc : gmap string (option string) * list (Grid * Z)) (ng : Grid)
  : gmap string (option string) * list (Grid * Z) :=
  let nk := serializeGrid ng in
  (if decide (is_Some (acc.1 !! nk)) then acc.1 else <[nk := Some key]> acc.1,
   pushPQ dockPos acc.2 ng).

Definition bestStep (dockPos : Pos) (maxNodes : nat) (st : BestState)
  : BestState + Exit BestState :=
  match f_pq st with
  | [] => inr (Exhausted st)
  | (grid, _) :: rest =>
      let key := serializeGrid grid in
      if decide (key ∈ f_seen st)
      then inl (mkBest rest (f_parent st) (f_seen st) (f_nodes st) (f_visited st))
      else
        let seen := {[key]} ∪ f_seen st in
        let nodes := S (f_nodes st) in
        let visited := pushProbe grid (f_visited st) in
        if goalTest grid (Some dockPos)
        then inr (Found key (mkBest rest (f_parent st) seen nodes visited))
        else if (maxNodes <? nodes)%nat
        then inr (Ceiling (mkBest rest (f_parent st) seen nodes visited))
        else
          let '(parent, pq) :=
            foldl (bestPush dockPos key) (f_parent st, rest) (moveGen grid) in
          inl (mkBest pq parent seen nodes visited)
  end.

Definition bestInit (dockPos : Pos) (start : Grid) : BestState :=
  mkBest (pushPQ dockPos [] start) {[ serializeGrid start := None ]} ∅ 0 [].

Definition bestRun (dockPos : Pos) (start : Grid) (maxNodes : nat)
  : option (Exit BestState) :=
  runLoop (bestStep dockPos maxNodes) (lazyFuel maxNodes) (bestInit dockPos start).

Definition bestFinish (start : Grid) (e : Exit BestState) : option SearchResult :=
  match e with
  | Found key st =>
      p ← walkParents (size (f_parent st)) (f_parent st)
            (length start) (width start) key [];
      Some (mkResult (Some p) (f_nodes st) (f_visited st))
  | Ceiling st | Exhausted st => Some (mkResult None (f_nodes st) (f_visited st))
  end.

(** [bestFirstSolve(start, maxNodes = 200000)]: only the dock is checked
    before the frontier is seeded; a start without a probe is dropped by
    [pushPQ] and leaves the frontier empty. *)
Definition bestFirstSolve (start : Grid) (maxNodes : nat) : option SearchResult :=
  match findCell start DOCK with
  | None => Some (mkResult None 0 [])
  | Some dockPos => bestRun dockPos start maxNodes ≫= bestFinish start
  end.

(** ** Vocabulary of the properties *)

(** The cells of a straight run: [k] cells starting at [(r, c)] and
    advancing by [d]. *)
Definition runCells (d : Dir) (r c : Z) (k : nat) : list Pos :=
  (λ i : nat, mkPos (r + Z.of_nat i * dr d) (c + Z.of_nat i * dc d)) <$> seq 0 k.

(** Number of cells of the grid that hold [v]. *)
Definition countCell (g : Grid) (v : Cell) : nat :=
  length (filter (λ x, x = v) (concat g)).

(** Cells on the line through the probe in direction [d], numbered from the
    probe: cell 0 is the probe's own cell. *)
Definition lineR (probe : Pos) (d : Dir) (i : nat) : Z :=
  posR probe + Z.of_nat i * dr d.
Definition lineC (probe : Pos) (d : Dir) (i : nat) : Z :=
  posC probe + Z.of_nat i * dc d.

Definition lineIn (g : Grid) (probe : Pos) (d : Dir) (i : nat) : bool :=
  inBounds g (lineR probe d i) (lineC probe d i).
Definition lineCell (g : Grid) (probe : Pos) (d : Dir) (i : nat) : option Cell :=
  cellAt g (lineR probe d i) (lineC probe d i).

(** What a returned path holds for a configuration [g]: the grid read back
    from its key.  [fixRow] is the only difference there can be: an empty
    row comes back as one [EMPTY] cell. *)
Definition reparse (n m : nat) (g : Grid) : Grid :=
  deserializeGrid (serializeGrid g) n m.

Definition fixRow (row : list Cell) : list Cell :=
  match row with
  | [] => [EMPTY]
  | _ :: _ => row
  end.

(** *** The state graph and the parent links *)

(** [Path start g gs]: [gs] lists the configurations of a sequence of
    [moveGen] steps from [start] to [g], both included. *)
Inductive Path (start : Grid) : Grid → list Grid → Prop :=
| Path_root : Path start start [start]
| Path_step g g' gs :
    Path start g gs → g' ∈ moveGen g → Path start g' (gs ++ [g']).

(** A solution of the search problem posed by [start]: a path to a
    configuration that passes the engines' goal test. *)
Definition Solution (start : Grid) (gs : list Grid) : Prop :=
  ∃ g, Path start g gs ∧ goalTest g (findCell start DOCK) = true.

(** [Link start parent g gs]: a path to [g] along which the parent map
    links the key of every configuration to the key of the one before. *)
Inductive Link (start : Grid) (parent : gmap string (option string))
  : Grid → list Grid → Prop :=
| Link_root :
    parent !! serializeGrid start = Some None → Link start parent start [start]
| Link_step g g' gs :
    Link start parent g gs → g' ∈ moveGen g →
    parent !! serializeGrid g' = Some (Some (serializeGrid g)) →
    Link start parent g' (gs ++ [g']).

(** Every key of the parent map is the key of a configuration reached by a
    linked path, no longer than the map is large. *)
Definition ParentOk (start : Grid) (parent : gmap string (option string)) : Prop :=
  ∀ k v, parent !! k = Some v →
    ∃ g gs, serializeGrid g = k ∧ Link start parent g gs ∧
            (length gs ≤ size parent)%nat.

(** Every configuration of the frontier is reachable and has its key in
    the parent map. *)
Definition Frontier (start : Grid) (parent : gmap string (option string))
    (grids : list Grid) : Prop :=
  ∀ g, g ∈ grids →
    (∃ gs, Path start g gs) ∧ is_Some (parent !! serializeGrid g).

Definition DfsInv (start : Grid) (maxNodes : nat) (st : DfsState) : Prop :=
  ParentOk start (d_parent st) ∧
  Frontier start (d_parent st) (fst <$> d_stack st) ∧
  (d_nodes st ≤ maxNodes)%nat.

Definition BestInv (start : Grid) (maxNodes : nat) (st : BestState) : Prop :=
  ParentOk start (f_parent st) ∧
  Frontier start (f_parent st) (fst <$> f_pq st) ∧
  (f_nodes st ≤ maxNodes)%nat.

(** *** The invariant of breadth-first search *)

Definition Shortest (start g : Grid) (gs : list Grid) : Prop :=
  ∀ gs', Path start g gs' → (length gs ≤ length gs')%nat.

(** [g] is linked to the start by a shortest path, of [d] steps. *)
Definition AtLevel (start : Grid) (parent : gmap string (option string))
    (d : nat) (g : Grid) : Prop :=
  ∃ gs, Link start parent g gs ∧ length gs = S d ∧ Shortest start g gs.

Record BfsInv (start : Grid) (maxNodes : nat) (st : BfsState) : Prop := {
  bi_nodes : (b_nodes st ≤ maxNodes)%nat;
  bi_seen : ∀ k, k ∈ b_seen st ↔ is_Some (b_parent st !! k);
  bi_tree : ∀ k, k ∈ b_seen st →
      ∃ g d, serializeGrid g = k ∧ AtLevel start (b_parent st) d g ∧
             (S d ≤ size (b_parent st))%nat;
  (* the queue holds level [d], then level [d + 1]; every configuration
     within [d] steps of the start has been seen *)
  bi_queue : ∃ d A B,
      b_q st = A ++ B ∧ (A = [] → B = []) ∧
      Forall (AtLevel start (b_parent st) d) A ∧
      Forall (AtLevel start (b_parent st) (S d)) B ∧
      ∀ g gs, Path start g gs → (length gs ≤ S d)%nat →
              serializeGrid g ∈ b_seen st;
  (* a seen configuration that has left the queue is not a goal and all
     its successors are seen *)
  bi_exp : ∀ g gs, Path start g gs → serializeGrid g ∈ b_seen st → g ∉ b_q st →
      goalTest g (findCell start DOCK) = false ∧
      ∀ g', g' ∈ moveGen g → serializeGrid g' ∈ b_seen st
}.

(** Termination measures of the loops: an iteration of the lazy engines
    either discards a frontier entry or counts a node and adds at most four
    entries. *)
Definition dfsMeasure (maxNodes : nat) (st : DfsState) : nat :=
  (length (d_stack st) + 5 * (maxNodes - d_nodes st))%nat.


Definition bestMeasure (maxNodes : nat) (st : BestState) : nat :=
  (length (f_pq st) + 5 * (maxNodes - f_nodes st))%nat.

Definition bfsMeasure (maxNodes : nat) (st : BfsState) : nat :=
  (maxNodes - b_nodes st)%nat.

(** The invariant inside the [for (const ng of nexts)] loop of [bfsSolve],
    while the successors of [h] (level [d], not a goal) are enqueued; [A]
    is what is left of level [d] in the queue. *)
Record BfsMid (start h : Grid) (d : nat) (A : list Grid)
    (seen : gset string) (parent : gmap string (option string))
    (q : list Grid) : Prop := {
  bm_seen : ∀ k, k ∈ seen ↔ is_Some (parent !! k);
  bm_tree : ∀ k, k ∈ seen →
      ∃ g d', serializeGrid g = k ∧ AtLevel start parent d' g ∧
              (S d' ≤ size parent)%nat;
  bm_h : AtLevel start parent d h;
  bm_hsize : (S d ≤ size parent)%nat;
  bm_queue : ∃ B, q = A ++ B ∧ Forall (AtLevel start parent d) A ∧
                  Forall (AtLevel start parent (S d)) B;
  bm_complete : ∀ g gs, Path start g gs → (length gs ≤ S d)%nat →
                        serializeGrid g ∈ seen;
  bm_exp : ∀ g gs, Path start g gs → serializeGrid g ∈ seen → g ∉ q → g ≠ h →
      goalTest g (findCell start DOCK) = false ∧
      ∀ g', g' ∈ moveGen g → serializeGrid g' ∈ seen
}.

(** *** How a call ended *)

(** The call passed its start checks and left its loop by the [break] of
    the ceiling test. *)
Definition dfsCeiling (start : Grid) (maxNodes : nat) : Prop :=
  is_Some (findCell start DOCK) ∧ is_Some (findCell start PROBE) ∧
  ∃ st, dfsRun start maxNodes = Some (Ceiling st).

Definition bfsCeiling (start : Grid) (maxNodes : nat) : Prop :=
  is_Some (findCell start DOCK) ∧ is_Some (findCell start PROBE) ∧
  ∃ st, bfsRun start maxNodes = Some (Ceiling st).

Definition bestCeiling (start : Grid) (maxNodes : nat) : Prop :=
  ∃ dockPos st, findCell start DOCK = Some dockPos ∧
                bestRun dockPos start maxNodes = Some (Ceiling st).

(** The configurations an engine can put on its frontier: the start, and
    the successors of configurations whose probe is not on the dock
    position recorded from the start. *)
Inductive Explored (start : Grid) (dockPos : Pos) : Grid → Prop :=
| Explored_start : Explored start dockPos start
| Explored_step g g' :
    Explored start dockPos g → isAtDock g (Some dockPos) = false →
    g' ∈ moveGen g → Explored start dockPos g'.

(** ** The store: rows as mutable arrays

    [moveGen] reads its argument, builds every successor with [cloneGrid]
    and assigns cells of the clone in place.  To state that the argument is
    left alone, [Module Heap] runs the same code on a store of row arrays.
    A row reference is an index of the store and allocation appends.  A
    grid is the list of its row references: [moveGen] never assigns to an
    outer array, it only builds new ones with [map]. *)
Module Heap.

Abbreviation Store := (list (list Cell)).
Abbreviation GridRef := (list nat).

(** The value a grid reference has in a store. *)
Definition load (h : Store) (g : GridRef) : Grid :=
  (λ l, default [] (h !! l)) <$> g.

(** [r.slice()]: a new array with the cells of [r]. *)
Definition slice (h : Store) (l : nat) : Store * nat :=
  (h ++ [default [] (h !! l)], length h).

(** [g.map((r) => r.slice())]. *)
Definition cloneGrid (h : Store) (g : GridRef) : Store * GridRef :=
  foldl (λ acc l, let '(h', l') := slice acc.1 l in (h', acc.2 ++ [l']))
        (h, []) g.

(** [ng[r][c] = v]: the row array [ng[r]] is updated in place. *)
Definition write (h : Store) (ng : GridRef) (r c : Z) (v : Cell) : Store :=
  if (0 <=? r) && (0 <=? c)
  then match ng !! Z.to_nat r with
       | Some l => alter (λ row, <[Z.to_nat c := v]> row) l h
       | None => h
       end
  else h.

Definition shiftChain (h : Store) (ng : GridRef) (d : Dir) (chain : list Pos)
  : Store :=
  foldl (λ acc p,
           write (write acc ng (posR p + dr d) (posC p + dc d) AST)
                 ng (posR p) (posC p) EMPTY)
        h (rev chain).

(** The loop body of [moveGen] for one direction; every read of [g] goes to
    the store as it is when the body runs. *)
Definition moveDir (h : Store) (g : GridRef) (probe : Pos) (d : Dir)
  : Store * option GridRef :=
  let pr := posR probe in
  let pc := posC probe in
  let nr := pr + dr d in
  let nc := pc + dc d in
  if negb (inBounds (load h g) nr nc) then (h, None)
  else
    match cellAt (load h g) nr nc with
    | Some WALL => (h, None)
    | Some EMPTY | Some DOCK =>
        let '(h, ng) := cloneGrid h g in
        let h := write h ng pr pc EMPTY in
        let h := write h ng nr nc PROBE in
        (h, Some ng)
    | Some AST =>
        let '(chain, e) := scanChain (chainFuel (load h g)) (load h g) d nr nc in
        if negb (inBounds (load h g) (posR e) (posC e)) then (h, None)
        else if negb (bool_decide (cellAt (load h g) (posR e) (posC e) = Some EMPTY))
        then (h, None)
        else
          let '(h, ng) := cloneGrid h g in
          let h := write h ng pr pc EMPTY in
          let h := shiftChain h ng d chain in
          let h := write h ng nr nc PROBE in
          (h, Some ng)
    | Some PROBE | None => (h, None)
    end.

Definition moveGen (h : Store) (g : GridRef) : Store * list GridRef :=
  match findCell (load h g) PROBE with
  | None => (h, [])
  | Some probe =>
      foldl (λ acc d,
               match moveDir acc.1 g probe d with
               | (h', Some ng) => (h', acc.2 ++ [ng])
               | (h', None) => (h', acc.2)
               end)
            (h, []) DIRS
  end.

End Heap.

(** The 5x5 scenario of the documentation: a wall border, the probe at
    (1,1), an asteroid at (1,2) and the dock at (3,3). *)
Definition grid5 : Grid :=
  [ [WALL; WALL;  WALL;  WALL;  WALL];
    [WALL; PROBE; AST;   EMPTY; WALL];
    [WALL; EMPTY; EMPTY; EMPTY; WALL];
    [WALL; EMPTY; EMPTY; DOCK;  WALL];
    [WALL; WALL;  WALL;  WALL;  WALL] ].

(** A rectangular grid, what the interface builds: every row has the
    length of row 0. *)
Definition rect (g : Grid) : Prop := Forall (λ row, length row = width g) g.

(** *** Exhaustive search *)

(** The visited set is closed up to the frontier: the start is visited or
    waiting, and a visited configuration is no goal and has all its
    successors visited or waiting. *)
Definition Closure (start : Grid) (seen : gset string) (frontier : list Grid)
  : Prop :=
  (serializeGrid start ∈ seen ∨ start ∈ frontier) ∧
  ∀ g gs, Path start g gs → serializeGrid g ∈ seen →
    goalTest g (findCell start DOCK) = false ∧
    ∀ g', g' ∈ moveGen g → serializeGrid g' ∈ seen ∨ g' ∈ frontier.

(** The states a loop passes through. *)
Inductive Iterates {St : Type} (step : St → St + Exit St) (st0 : St) : St → Prop :=
| Iterates_start : Iterates step st0 st0
| Iterates_step st st' :
    Iterates step st0 st → step st = inl st' → Iterates step st0 st'.

(** The state an exit carries. *)
Definition exitState {St : Type} (e : Exit St) : St :=
  match e with Found _ st | Ceiling st | Exhausted st => st end.

(** The invariants of the lazy engines taken together, with the count of
    visited probe positions. *)
Definition DfsAll (start : Grid) (maxNodes : nat) (st : DfsState) : Prop :=
  DfsInv start maxNodes st ∧
  Closure start (d_seen st) (fst <$> d_stack st) ∧
  length (d_visited st) = d_nodes st.

Definition BestAll (start : Grid) (maxNodes : nat) (st : BestState) : Prop :=
  BestInv start maxNodes st ∧
  Closure start (f_seen st) (fst <$> f_pq st) ∧
  length (f_visited st) = f_nodes st.

(** *** The priority queue *)

(** A frontier in the order [pq.sort] leaves it: scores never decrease. *)
Fixpoint Ordered (pq : list (Grid * Z)) : Prop :=
  match pq with
  | [] => True
  | x :: l => Forall (λ y, x.2 ≤ y.2) l ∧ Ordered l
  end.

(** Every entry carries the Manhattan distance of its probe to the dock. *)
Definition Scored (dockPos : Pos) (pq : list (Grid * Z)) : Prop :=
  Forall (λ e, ∃ p, findCell e.1 PROBE = Some p ∧ e.2 = manhattan p dockPos) pq.

(** * The grid editor *)

Definition DEFAULT_N : Z := 8.
Definition DEFAULT_M : Z := 12.

(** [Array.from({ length: n }, () => Array.from({ length: m }, () => EMPTY))]. *)
Definition emptyGrid (n m : Z) : Grid :=
  replicate (Z.to_nat n) (replicate (Z.to_nat m) EMPTY).

(** The two loops that put walls on the border of a fresh [n] by [m] grid
    (the same code builds the first grid and every new one).  They run
    over the grid's own rows and columns; the callers have [1 ≤ n] and
    [1 ≤ m], so every assignment hits an existing cell. *)
Definition borderWalls (n m : Z) (g : Grid) : Grid :=
  let g1 :=
    foldl (λ g r, setCell (setCell g r 0 WALL) r (m - 1) WALL) g (seqZ 0 n) in
  foldl (λ g c, setCell (setCell g 0 c WALL) (n - 1) c WALL) g1 (seqZ 0 m).

(** The grid the editor starts with. *)
Definition initialGrid : Grid :=
  let g := borderWalls DEFAULT_N DEFAULT_M (emptyGrid DEFAULT_N DEFAULT_M) in
  let g := setCell g 1 1 PROBE in
  let g := setCell g (DEFAULT_N - 2) (DEFAULT_M - 2) DOCK in
  let g := setCell g 2 3 AST in
  setCell g 3 3 AST.

Definition minSize : Z := 5.

(** [Array.from({ length: k })] raises a RangeError when [k] is not a valid
    array length, that is from [2 ^ 32] on. *)
Definition arrayLimit : Z := 2 ^ 32.

(** [makeGridFromInputs].  [nParsed] and [mParsed] stand for
    [parseInt(nInput, 10)] and [parseInt(mInput, 10)], with [None] for a
    value [Number.isFinite] rejects.  The result is the grid passed to
    [setGrid] and the flag [adjusted] that decides on the message, which is
    set before the grid is built.  The grid is [None] when building it
    raises a RangeError: [Array.from] is called for the rows and, as there
    is at least one row, for the columns; [setGrid] is not reached then and
    the editor keeps its grid. *)
Definition makeGridFromInputs (nParsed mParsed : option Z) : option Grid * bool :=
  let n0 := default DEFAULT_N nParsed in
  let m0 := default DEFAULT_M mParsed in
  let n := if n0 <? minSize then minSize else n0 in
  let m := if m0 <? minSize then minSize else m0 in
  let adjusted := (n0 <? minSize) || (m0 <? minSize) in
  (if (arrayLimit <=? n) || (arrayLimit <=? m) then None
   else Some (borderWalls n m (emptyGrid n m)),
   adjusted).

(** The painting tools. *)
Module Tool.
Inductive t : Type := probe | dock | asteroid | wall | erase.
End Tool.

(** [r === 0 || c === 0 || r === g.length - 1 || c === g[0].length - 1].
    The last operand is evaluated only when the others are false; on a
    grid without rows it raises a TypeError ([None]). *)
Definition isBorder (g : Grid) (r c : Z) : option bool :=
  if bool_decide (r = 0) || bool_decide (c = 0) ||
     bool_decide (r = Z.of_nat (length g) - 1)
  then Some true
  else match g with
       | [] => None
       | row0 :: _ => Some (bool_decide (c = Z.of_nat (length row0) - 1))
       end.

(** An assignment [ng[r][c] = v] at a position the caller passes in.  On an
    existing cell it is [setCell].  Without row [r] the source raises a
    TypeError, and a column outside the row would add a property to the row
    array; both leave the grids of this model and give [None]. *)
Definition assign (g : Grid) (r c : Z) (v : Cell) : option Grid :=
  if decide (is_Some (cellAt g r c)) then Some (setCell g r c v) else None.

(** The [probe] and [dock] tools first clear the cell [findCell] reports. *)
Definition clearPrev (ng : Grid) (v : Cell) : Grid :=
  match findCell ng v with
  | Some prev => setCell ng (posR prev) (posC prev) EMPTY
  | None => ng
  end.

(** The state update of [updateCellByTool(r, c)] under the selected tool. *)
Definition updateCellByTool (tool : Tool.t) (g : Grid) (r c : Z) : option Grid :=
  border ← isBorder g r c;
  if border : bool then Some g
  else
    let ng := cloneGrid g in
    match tool with
    | Tool.probe => assign (clearPrev ng PROBE) r c PROBE
    | Tool.dock => assign (clearPrev ng DOCK) r c DOCK
    | Tool.asteroid =>
        match (if 0 <=? r then ng !! Z.to_nat r else None) with
        | None => None
        | Some _ =>
            if decide (cellAt ng r c = Some EMPTY) then assign ng r c AST
            else Some ng
        end
    | Tool.wall => assign ng r c WALL
    | Tool.erase => assign ng r c EMPTY
    end.

(** One cell of the inner loop of [randomizeAsteroids].  The state is the
    grid and the number of [Math.random()] calls made so far; [draws k]
    tells whether call [k] returns a number below 0.18.  A cell that is
    missing in a short row compares unequal to [PROBE] and [DOCK], and the
    assignment would grow the row: [None]. *)
Definition randomizeCell (draws : nat → bool) (r : Z)
    (acc : option (Grid * nat)) (c : Z) : option (Grid * nat) :=
  '(g, k) ← acc;
  match cellAt g r c with
  | Some PROBE | Some DOCK => Some (g, k)
  | Some _ => Some (setCell g r c (if draws k then AST else EMPTY), S k)
  | None => None
  end.

(** [randomizeAsteroids]; [prev[0].length] raises a TypeError on a grid
    without rows. *)
Definition randomizeAsteroids (draws : nat → bool) (prev : Grid) : option Grid :=
  match prev with
  | [] => None
  | row0 :: _ =>
      let nRows := Z.of_nat (length prev) in
      let nCols := Z.of_nat (length row0) in
      fst <$>
        foldl (λ acc r, foldl (randomizeCell draws r) acc (seqZ 1 (nCols - 2)))
          (Some (cloneGrid prev, 0%nat)) (seqZ 1 (nRows - 2))
  end.

(** The cells on the outer border. *)
Definition onBorder (g : Grid) (r c : Z) : Prop :=
  r = 0 ∨ c = 0 ∨ r = Z.of_nat (length g) - 1 ∨ c = Z.of_nat (width g) - 1.

(** What every grid of the editor satisfies. *)
Definition EditorOk (g : Grid) : Prop :=
  rect g ∧ minSize ≤ Z.of_nat (length g) ∧ minSize ≤ Z.of_nat (width g) ∧
  (∀ r c x, cellAt g r c = Some x → onBorder g r c → x = WALL) ∧
  (countCell g PROBE ≤ 1)%nat ∧ (countCell g DOCK ≤ 1)%nat.

(** The grids the editor can hold: the first one, and what the three
    state updates make of a grid.  A new grid is the bordered grid of the
    sizes [makeGridFromInputs] applies, which are at least [minSize]; the
    sizes from [arrayLimit] on, for which it raises, are not excluded here
    ([makeGridFromInputs_editor] shows that its grids are covered). *)
Inductive EditorGrid : Grid → Prop :=
| EditorGrid_initial : EditorGrid initialGrid
| EditorGrid_new n m :
    minSize ≤ n → minSize ≤ m → EditorGrid (borderWalls n m (emptyGrid n m))
| EditorGrid_tool tool g r c g' :
    EditorGrid g → updateCellByTool tool g r c = Some g' → EditorGrid g'
| EditorGrid_random draws g g' :
    EditorGrid g → randomizeAsteroids draws g = Some g' → EditorGrid g'.

(** The value a tool leaves on the clicked cell that held [old]. *)
Definition painted (tool : Tool.t) (old : Cell) : Cell :=
  match tool with
  | Tool.probe => PROBE
  | Tool.dock => DOCK
  | Tool.asteroid => if decide (old = EMPTY) then AST else old
  | Tool.wall => WALL
  | Tool.erase => EMPTY
  end.

(** The piece a tool moves, if any. *)
Definition moved (tool : Tool.t) : option Cell :=
  match tool with
  | Tool.probe => Some PROBE
  | Tool.dock => Some DOCK
  | _ => None
  end.

(** What a tool makes of another cell that held [x]: the piece it moves
    disappears from its old cell. *)
Definition cleared (tool : Tool.t) (x : Cell) : Cell :=
  if decide (moved tool = Some x) then EMPTY else x.

(** The cells off the border. *)
Definition interior (g : Grid) (r c : Z) : Prop :=
  1 ≤ r < Z.of_nat (length g) - 1 ∧ 1 ≤ c < Z.of_nat (width g) - 1.

(** The relation between a cell [x] of the grid passed to
    [randomizeAsteroids] and the same cell [y] while the loops run; [done]
    tells whether the loops have passed the cell. *)
Definition cellRand (done : Prop) (x y : Cell) : Prop :=
  if decide (x = PROBE ∨ x = DOCK) then y = x
  else (done ∧ (y = AST ∨ y = EMPTY)) ∨ (¬ done ∧ y = x).

Definition RandInv (prev : Grid) (D : Z → Z → Prop) (g : Grid) : Prop :=
  length <$> g = length <$> prev ∧
  countCell g PROBE = countCell prev PROBE ∧
  countCell g DOCK = countCell prev DOCK ∧
  ∀ r c x, cellAt prev r c = Some x →
    ∃ y, cellAt g r c = Some y ∧ cellRand (D r c) x y.

(** * Playback: the overlays of moving asteroids *)

Definition CELL_SIZE : Z := 44.
Definition CELL_GAP : Z := 2.

(** [i * (CELL_SIZE + CELL_GAP) + CELL_SIZE / 2], the pixel coordinate of
    the centre of row or column [i]. *)
Definition center (i : Z) : Z := i * (CELL_SIZE + CELL_GAP) + CELL_SIZE / 2.

(** An overlay [{ id, fromX, fromY, toX, toY }]. *)
Record Rock : Type :=
  mkRock { rockId : nat; fromX : Z; fromY : Z; toX : Z; toY : Z }.

Definition isAst (g : Grid) (r c : Z) : bool :=
  bool_decide (cellAt g r c = Some AST).

Definition candidates (r c : Z) : list Pos :=
  [ mkPos (r - 1) c; mkPos (r + 1) c; mkPos r (c - 1); mkPos r (c + 1) ].

(** [for (const cand of candidates) { if (...) { ...; break; } }]: the
    first neighbour that holds an asteroid in [nxt] and none in [cur]. *)
Definition rockTarget (cur nxt : Grid) (r c : Z) : option Pos :=
  List.find (λ cand,
               inBounds nxt (posR cand) (posC cand) &&
               isAst nxt (posR cand) (posC cand) &&
               negb (isAst cur (posR cand) (posC cand)))
            (candidates r c).

(** The body of the two loops for the cell [(r, c)]; [idCounter] is the
    number of overlays pushed so far. *)
Definition rocksCell (cur nxt : Grid) (r : Z) (rocks : list Rock) (c : Z)
  : list Rock :=
  if isAst cur r c && negb (isAst nxt r c)
  then match rockTarget cur nxt r c with
       | Some cand =>
           rocks ++ [mkRock (length rocks) (center c) (center r)
                            (center (posC cand)) (center (posR cand))]
       | None => rocks
       end
  else rocks.

(** The overlays for the step from [solution[p]] to [solution[p + 1]].  The
    grids of a solution have the same rows, so every row read exists. *)
Definition stepRocks (cur nxt : Grid) : list Rock :=
  foldl (λ rocks r,
           foldl (rocksCell cur nxt r) rocks (seqZ 0 (Z.of_nat (width cur))))
        [] (seqZ 0 (Z.of_nat (length cur))).

(** The update of [playIndex] at every tick of the playback timer: the
    index advances until it names the last grid of the solution. *)
Definition tick (solution : list Grid) (p : nat) : nat :=
  if (length solution <=? p + 1)%nat then p else (p + 1)%nat.

(** [playIndex] after [t] ticks; it is set to 0 with the solution. *)
Definition playIndex (solution : list Grid) (t : nat) : nat :=
  Nat.iter t (tick solution) 0%nat.

(** A grid of the editor with the dock next to the probe, and the grid
    after the one move that solves it. *)
Definition gridNear : Grid :=
  [ [WALL; WALL;  WALL;  WALL;  WALL];
    [WALL; PROBE; DOCK;  EMPTY; WALL];
    [WALL; EMPTY; EMPTY; EMPTY; WALL];
    [WALL; EMPTY; EMPTY; EMPTY; WALL];
    [WALL; WALL;  WALL;  WALL;  WALL] ].

Definition gridDocked : Grid :=
  [ [WALL; WALL;  WALL;  WALL;  WALL];
    [WALL; EMPTY; PROBE; EMPTY; WALL];
    [WALL; EMPTY; EMPTY; EMPTY; WALL];
    [WALL; EMPTY; EMPTY; EMPTY; WALL];
    [WALL; WALL;  WALL;  WALL;  WALL] ].

(** * Outcomes and elapsed time *)

(** The object a call returns: the fields of [SearchResult] and [timeMs]. *)
Record TimedResult : Type := mkTimed { result : SearchResult; timeMs : Z }.

(** Every call reads [performance.now()] twice: on entry ([startTime]) and
    when it builds the object it returns, on each of its [return]
    statements ([timeMs: performance.now() - startTime]).  [now k] is
    reading [k] of the call, in units of the timer's resolution. *)
Definition withTime (now : nat → Z) (run : option SearchResult)
  : option TimedResult :=
  let startTime := now 0%nat in
  res ← run; Some (mkTimed res (now 1%nat - startTime)).

Definition dfsSolveTimed (now : nat → Z) (start : Grid) (maxNodes : nat)
  : option TimedResult := withTime now (dfsSolve start maxNodes).

Definition bfsSolveTimed (now : nat → Z) (start : Grid) (maxNodes : nat)
  : option TimedResult := withTime now (bfsSolve start maxNodes).

Definition bestFirstSolveTimed (now : nat → Z) (start : Grid) (maxNodes : nat)
  : option TimedResult := withTime now (bestFirstSolve start maxNodes).

(** How a loop ended: the step function gives the exit [e] in a state the
    loop reaches from [init]. *)
Definition EndsWith {St : Type} (step : St → St + Exit St) (init : St)
    (e : Exit St) : Prop :=
  ∃ st, Iterates step init st ∧ step st = inr e.

(** What a result says about the search: a solution path; or no path after
    the frontier emptied (or a guard found no probe or dock), and then
    there is no solution; or no path because the ceiling was passed. *)
Inductive Outcome (start : Grid) (maxNodes : nat) (res : SearchResult) : Prop :=
| Outcome_found p gs :
    path res = Some p → Solution start gs →
    p = reparse (length start) (width start) <$> gs →
    (nodesExpanded res ≤ S maxNodes)%nat → Outcome start maxNodes res
| Outcome_exhausted :
    path res = None → (nodesExpanded res ≤ maxNodes)%nat →
    (∀ gs, ¬ Solution start gs) → Outcome start maxNodes res
| Outcome_ceiling :
    path res = None → nodesExpanded res = S maxNodes →
    Outcome start maxNodes res.

(** The result of a loop that ended with [e] in a state with the counter
    [nodes], the visited positions [visited] and the frontier
    [frontierEmpty]. *)
Definition ExitResult {St : Type} (nodes : St → nat) (visited : St → list Pos)
    (frontierEmpty : St → Prop) (maxNodes : nat) (e : Exit St)
    (res : SearchResult) : Prop :=
  nodesExpanded res = nodes (exitState e) ∧
  visitedProbe res = visited (exitState e) ∧
  match e with
  | Found _ _ => is_Some (path res)
  | Ceiling st => path res = None ∧ (maxNodes < nodes st)%nat
  | Exhausted st => path res = None ∧ frontierEmpty st
  end.

(** The configurations a run has expanded, in the order of expansion: as
    many as the counter says, with pairwise different keys, each reachable
    from the start, and the visited probe positions are theirs.  [waiting]
    holds configurations whose keys are marked seen before they are
    expanded (the queue of [bfsSolve]). *)
Definition ExpandedIn (start : Grid) (seen : gset string) (nodes : nat)
    (visited : list Pos) (waiting l : list Grid) : Prop :=
  length l = nodes ∧
  NoDup (serializeGrid <$> (l ++ waiting)) ∧
  (∀ g, g ∈ l ++ waiting → serializeGrid g ∈ seen) ∧
  (∀ g, g ∈ l → ∃ gs, Path start g gs) ∧
  visited = omap (λ g, findCell g PROBE) l.

(** The same for a result: [nodesExpanded] counts the configurations of
    [l], and [visitedProbe] lists their probe positions. *)
Definition Expanded (start : Grid) (res : SearchResult) (l : list Grid) : Prop :=
  length l = nodesExpanded res ∧
  NoDup (serializeGrid <$> l) ∧
  (∀ g, g ∈ l → ∃ gs, Path start g gs) ∧
  visitedProbe res = omap (λ g, findCell g PROBE) l.

(** * Properties *)

Section grid_lemmas.
Implicit Types (g : Grid) (r c : Z) (v x : Cell).

Lemma cloneGrid_id g : cloneGrid g = g.
Proof. unfold cloneGrid, slice. induction g as [|row g IH]; simpl; [done|by f_equal]. Qed.

Lemma cellAt_Some g r c x :
  cellAt g r c = Some x ↔
  0 ≤ r ∧ 0 ≤ c ∧ ∃ row, g !! Z.to_nat r = Some row ∧ row !! Z.to_nat c = Some x.
Proof.
  unfold cellAt. destruct (0 <=? r) eqn:Hr, (0 <=? c) eqn:Hc; simpl.
  - apply Z.leb_le in Hr, Hc. destruct (g !! Z.to_nat r) as [row|]; simpl; naive_solver.
  - apply Z.leb_gt in Hc. naive_solver lia.
  - apply Z.leb_gt in Hr. naive_solver lia.
  - apply Z.leb_gt in Hr. naive_solver lia.
Qed.

Lemma cellAt_setCell g r c v r' c' :
  cellAt (setCell g r c v) r' c' =
  if decide (r = r' ∧ c = c') then (λ _, v) <$> cellAt g r' c' else cellAt g r' c'.
Proof.
  unfold cellAt, setCell.
  destruct (0 <=? r) eqn:Hr, (0 <=? c) eqn:Hc; simpl;
    destruct (0 <=? r') eqn:Hr', (0 <=? c') eqn:Hc'; simpl;
    try (case_decide; done);
    try (case_decide as Hd; [destruct Hd; congruence|done]).
  apply Z.leb_le in Hr, Hc, Hr', Hc'.
  destruct (decide (Z.to_nat r = Z.to_nat r')) as [Er|Er].
  - rewrite Er, list_lookup_alter_eq. destruct (g !! Z.to_nat r') as [row|]; simpl.
    + destruct (decide (Z.to_nat c = Z.to_nat c')) as [Ec|Ec].
      * rewrite Ec. rewrite decide_True by (split; lia).
        destruct (row !! Z.to_nat c') eqn:E.
        -- rewrite list_lookup_insert_eq; [done|]. by eapply lookup_lt_Some.
        -- simpl. apply lookup_ge_None. rewrite length_insert. by apply lookup_ge_None.
      * rewrite list_lookup_insert_ne by done. rewrite decide_False by lia. done.
    + by case_decide.
  - rewrite list_lookup_alter_ne by done. rewrite decide_False by lia. done.
Qed.

Lemma cellAt_setCell_eq g r c v x :
  cellAt g r c = Some x → cellAt (setCell g r c v) r c = Some v.
Proof. intros H. rewrite cellAt_setCell, decide_True by done. by rewrite H. Qed.

Lemma cellAt_setCell_ne g r c v r' c' :
  ¬ (r = r' ∧ c = c') → cellAt (setCell g r c v) r' c' = cellAt g r' c'.
Proof. intros H. by rewrite cellAt_setCell, decide_False. Qed.

Lemma setCell_shape g r c v : length <$> setCell g r c v = length <$> g.
Proof.
  unfold setCell. destruct (_ && _); [|done].
  apply list_eq. intros i. rewrite !list_lookup_fmap.
  destruct (decide (Z.to_nat r = i)) as [<-|Hi].
  - rewrite list_lookup_alter_eq. destruct (g !! Z.to_nat r); simpl; [|done].
    by rewrite length_insert.
  - by rewrite list_lookup_alter_ne.
Qed.

Lemma shape_length g g' : length <$> g = length <$> g' → length g = length g'.
Proof. intros H. by rewrite <-(length_fmap length g), H, length_fmap. Qed.

Lemma shape_width g g' : length <$> g = length <$> g' → width g = width g'.
Proof. destruct g, g'; simpl; intros H; by inversion H. Qed.

Lemma shape_inBounds g g' r c :
  length <$> g = length <$> g' → inBounds g r c = inBounds g' r c.
Proof. intros H. unfold inBounds. by rewrite (shape_length _ _ H), (shape_width _ _ H). Qed.
End grid_lemmas.

Section find_lemmas.
Implicit Types (g : Grid) (r c : Z) (v x : Cell).

Lemma indexOf_Some v row i :
  indexOf v row = Some i → row !! i = Some v.
Proof.
  revert i. induction row as [|y row IH]; intros i; simpl; [done|].
  case_decide as Hy; [intros [= <-]; by subst|].
  destruct (indexOf v row) as [j|]; simpl; [|done].
  intros [= <-]. by apply IH.
Qed.

Lemma indexOf_None v row : indexOf v row = None → v ∉ row.
Proof.
  induction row as [|y row IH]; simpl; [intros _; apply not_elem_of_nil|].
  case_decide as Hy; [done|].
  destruct (indexOf v row); simpl; [done|]. intros _.
  rewrite elem_of_cons. naive_solver.
Qed.

Lemma findRows_Some w v rows n0 p :
  findRows w v rows n0 = Some p →
  ∃ i j row, posR p = Z.of_nat (n0 + i) ∧ posC p = Z.of_nat j ∧
             rows !! i = Some row ∧ row !! j = Some v ∧ (j < w)%nat.
Proof.
  revert n0. induction rows as [|row rows IH]; intros n0; simpl; [done|].
  destruct (indexOf v (take w row)) as [j|] eqn:Hj.
  - intros [= <-]. apply indexOf_Some in Hj.
    apply lookup_take_Some in Hj as [Hj Hlt].
    exists 0%nat, j, row. simpl. repeat split; try done. lia.
  - intros (i & j & row' & ? & ? & ? & ? & ?)%IH.
    exists (S i), j, row'. repeat split; try done. lia.
Qed.

Lemma findRows_None w v rows n0 :
  findRows w v rows n0 = None →
  ∀ i j row, rows !! i = Some row → (j < w)%nat → row !! j ≠ Some v.
Proof.
  revert n0. induction rows as [|row rows IH]; intros n0; simpl; [done|].
  destruct (indexOf v (take w row)) as [j|] eqn:Hj; [done|].
  intros Hn [|i] j row' Hi Hlt Hv; simpl in Hi.
  - injection Hi as <-. apply indexOf_None in Hj. apply Hj.
    apply list_elem_of_lookup. exists j. by apply lookup_take_Some.
  - by eapply IH.
Qed.

Lemma inBounds_true g r c :
  inBounds g r c = true ↔
  0 ≤ r ∧ r < Z.of_nat (length g) ∧ 0 ≤ c ∧ c < Z.of_nat (width g).
Proof. unfold inBounds. rewrite !andb_true_iff, !Z.leb_le, !Z.ltb_lt. tauto. Qed.

Lemma findCell_Some g v p :
  findCell g v = Some p →
  cellAt g (posR p) (posC p) = Some v ∧ inBounds g (posR p) (posC p) = true.
Proof.
  intros (i & j & row & Hr & Hc & Hi & Hj & Hw)%findRows_Some.
  simpl in Hr. rewrite Hr, Hc. split.
  - apply cellAt_Some. split; [lia|]. split; [lia|]. exists row.
    by rewrite !Nat2Z.id.
  - apply inBounds_true. apply lookup_lt_Some in Hi. lia.
Qed.

Lemma findCell_None g v r c :
  findCell g v = None → inBounds g r c = true → cellAt g r c ≠ Some v.
Proof.
  intros Hn (? & ? & ? & ?)%inBounds_true (_ & _ & row & Hrow & Hv)%cellAt_Some.
  eapply (findRows_None _ _ _ _ Hn); [exact Hrow| |exact Hv]. lia.
Qed.

Lemma DIRS_cases (d : Dir) :
  d ∈ DIRS →
  (dr d = -1 ∧ dc d = 0) ∨ (dr d = 1 ∧ dc d = 0) ∨
  (dr d = 0 ∧ dc d = -1) ∨ (dr d = 0 ∧ dc d = 1).
Proof.
  unfold DIRS. rewrite !elem_of_cons, elem_of_nil.
  intros [->|[->|[->|[->|[]]]]]; simpl; lia.
Qed.
End find_lemmas.

Section move_lemmas.
Implicit Types (g ng : Grid) (r c : Z) (v x : Cell) (d : Dir) (probe : Pos).

Lemma cellAt_shape_is_Some g g' r c :
  length <$> g = length <$> g' → is_Some (cellAt g r c) → is_Some (cellAt g' r c).
Proof.
  intros Hs [x (Hr & Hc & row & Hrow & Hx)%cellAt_Some].
  assert (∃ row', g' !! Z.to_nat r = Some row' ∧ length row' = length row) as (row' & Hrow' & Hl).
  { assert ((length <$> g') !! Z.to_nat r = Some (length row)) as H
      by (by rewrite <-Hs, list_lookup_fmap, Hrow).
    rewrite list_lookup_fmap in H. destruct (g' !! Z.to_nat r) as [row'|]; simpl in H; [|done].
    exists row'. split; [done|]. by injection H. }
  destruct (lookup_lt_is_Some_2 row' (Z.to_nat c)) as [y Hy].
  { rewrite Hl. by eapply lookup_lt_Some. }
  exists y. apply cellAt_Some. eauto 6.
Qed.

Lemma shiftChain_cons d q chain ng :
  shiftChain d (q :: chain) ng =
  setCell (setCell (shiftChain d chain ng) (posR q + dr d) (posC q + dc d) AST)
          (posR q) (posC q) EMPTY.
Proof. unfold shiftChain. simpl. by rewrite foldl_snoc. Qed.

Lemma shiftChain_shape d chain ng : length <$> shiftChain d chain ng = length <$> ng.
Proof.
  induction chain as [|q chain IH]; [done|].
  by rewrite shiftChain_cons, !setCell_shape.
Qed.

(** The cells of a straight run: [runFrom d r c k] lists [k] cells starting
    at [(r, c)] and advancing by [d]. *)
Lemma scanChain_run d g : ∀ (k fuel : nat) r c,
  (∀ i : nat, (i < k)%nat →
     inBounds g (r + Z.of_nat i * dr d) (c + Z.of_nat i * dc d) = true ∧
     cellAt g (r + Z.of_nat i * dr d) (c + Z.of_nat i * dc d) = Some AST) →
  ¬ (inBounds g (r + Z.of_nat k * dr d) (c + Z.of_nat k * dc d) = true ∧
     cellAt g (r + Z.of_nat k * dr d) (c + Z.of_nat k * dc d) = Some AST) →
  (k < fuel)%nat →
  scanChain fuel g d r c =
  ((λ i : nat, mkPos (r + Z.of_nat i * dr d) (c + Z.of_nat i * dc d)) <$> seq 0 k,
   mkPos (r + Z.of_nat k * dr d) (c + Z.of_nat k * dc d)).
Proof.
  induction k as [|k IH]; intros fuel r c Hrun Hend Hfuel.
  - destruct fuel as [|fuel]; [lia|]. simpl.
    change (Z.of_nat 0) with 0 in *. rewrite ?Z.mul_0_l, ?Z.add_0_r in *.
    destruct (inBounds g r c) eqn:Hb; simpl; [|done].
    case_bool_decide as Ha; [|done]. by destruct Hend.
  - destruct fuel as [|fuel]; [lia|]. simpl.
    destruct (Hrun 0%nat) as [Hb Ha]; [lia|].
    change (Z.of_nat 0) with 0 in Hb, Ha. rewrite !Z.mul_0_l, !Z.add_0_r in Hb, Ha.
    rewrite Hb, Ha. simpl.
    rewrite (IH fuel (r + dr d) (c + dc d)).
    + f_equal.
      * f_equal; [f_equal; lia|]. rewrite <-fmap_S_seq, <-list_fmap_compose.
        apply list_fmap_ext. intros _ i _. simpl. f_equal; lia.
      * f_equal; lia.
    + intros i Hi. destruct (Hrun (S i)) as [Hb' Ha']; [lia|].
      replace (r + dr d + Z.of_nat i * dr d) with (r + Z.of_nat (S i) * dr d) by lia.
      replace (c + dc d + Z.of_nat i * dc d) with (c + Z.of_nat (S i) * dc d) by lia. done.
    + replace (r + dr d + Z.of_nat k * dr d) with (r + Z.of_nat (S k) * dr d) by lia.
      replace (c + dc d + Z.of_nat k * dc d) with (c + Z.of_nat (S k) * dc d) by lia. done.
    + lia.
Qed.

Lemma run_length_bound d g (k : nat) r c :
  d ∈ DIRS →
  (∀ i : nat, (i < k)%nat →
     inBounds g (r + Z.of_nat i * dr d) (c + Z.of_nat i * dc d) = true) →
  (k < chainFuel g)%nat.
Proof.
  intros Hd Hrun. unfold chainFuel. destruct k as [|k]; [lia|].
  pose proof (Hrun 0%nat ltac:(lia)) as H0. pose proof (Hrun k ltac:(lia)) as Hk.
  apply inBounds_true in H0, Hk.
  destruct (DIRS_cases d Hd) as [[E1 E2]|[[E1 E2]|[[E1 E2]|[E1 E2]]]];
    rewrite E1, E2 in H0, Hk; lia.
Qed.
End move_lemmas.

Ltac dir_lia Hd :=
  let E1 := fresh "E" in let E2 := fresh "E" in
  destruct (DIRS_cases _ Hd) as [[E1 E2]|[[E1 E2]|[[E1 E2]|[E1 E2]]]];
  rewrite ?E1, ?E2 in *; lia.

Section shift_lemmas.
Implicit Types (g ng : Grid) (r c : Z) (v x : Cell) (d : Dir) (probe : Pos).

Lemma runCells_S d r c k :
  runCells d r c (S k) = mkPos r c :: runCells d (r + dr d) (c + dc d) k.
Proof.
  unfold runCells. simpl. f_equal; [f_equal; lia|].
  rewrite <-fmap_S_seq, <-list_fmap_compose.
  apply list_fmap_ext. intros _ i _. simpl. f_equal; lia.
Qed.

Lemma scanChain_runCells d g k fuel r c :
  (∀ i : nat, (i < k)%nat →
     inBounds g (r + Z.of_nat i * dr d) (c + Z.of_nat i * dc d) = true ∧
     cellAt g (r + Z.of_nat i * dr d) (c + Z.of_nat i * dc d) = Some AST) →
  ¬ (inBounds g (r + Z.of_nat k * dr d) (c + Z.of_nat k * dc d) = true ∧
     cellAt g (r + Z.of_nat k * dr d) (c + Z.of_nat k * dc d) = Some AST) →
  (k < fuel)%nat →
  scanChain fuel g d r c =
  (runCells d r c k, mkPos (r + Z.of_nat k * dr d) (c + Z.of_nat k * dc d)).
Proof. apply scanChain_run. Qed.

(** Whatever the fuel, the chain found is a run of asteroids inside the
    grid, and the end cell is the cell after it. *)
Lemma scanChain_inv d g : ∀ fuel r c chain e,
  scanChain fuel g d r c = (chain, e) →
  let k := length chain in
  chain = runCells d r c k ∧
  e = mkPos (r + Z.of_nat k * dr d) (c + Z.of_nat k * dc d) ∧
  ∀ i : nat, (i < k)%nat →
     inBounds g (r + Z.of_nat i * dr d) (c + Z.of_nat i * dc d) = true ∧
     cellAt g (r + Z.of_nat i * dr d) (c + Z.of_nat i * dc d) = Some AST.
Proof.
  induction fuel as [|fuel IH]; intros r c chain e; simpl.
  - intros [= <- <-]. simpl. split; [done|]. split; [f_equal; lia|]. lia.
  - destruct (inBounds g r c) eqn:Hb; simpl.
    2:{ intros [= <- <-]. simpl. split; [done|]. split; [f_equal; lia|]. lia. }
    case_bool_decide as Ha.
    2:{ intros [= <- <-]. simpl. split; [done|]. split; [f_equal; lia|]. lia. }
    destruct (scanChain fuel g d (r + dr d) (c + dc d)) as [chain' e'] eqn:Hs.
    intros [= <- <-]. apply IH in Hs as (Hc & He & Hrun). simpl.
    split; [|split].
    + rewrite runCells_S. by f_equal.
    + rewrite He. f_equal; lia.
    + intros [|i] Hi.
      * change (Z.of_nat 0) with 0. by rewrite !Z.mul_0_l, !Z.add_0_r.
      * destruct (Hrun i) as [H1 H2]; [lia|].
        replace (r + Z.of_nat (S i) * dr d) with (r + dr d + Z.of_nat i * dr d) by lia.
        replace (c + Z.of_nat (S i) * dc d) with (c + dc d + Z.of_nat i * dc d) by lia.
        done.
Qed.

Lemma shiftChain_cells d : d ∈ DIRS → ∀ (k : nat) r c ng,
  (∀ i : nat, (i ≤ k)%nat →
     is_Some (cellAt ng (r + Z.of_nat i * dr d) (c + Z.of_nat i * dc d))) →
  let res := shiftChain d (runCells d r c k) ng in
  ((0 < k)%nat → cellAt res r c = Some EMPTY) ∧
  (∀ i : nat, (1 ≤ i ≤ k)%nat →
     cellAt res (r + Z.of_nat i * dr d) (c + Z.of_nat i * dc d) = Some AST) ∧
  (∀ r' c', (∀ i : nat, (i ≤ k)%nat →
               ¬ (r' = r + Z.of_nat i * dr d ∧ c' = c + Z.of_nat i * dc d)) →
            cellAt res r' c' = cellAt ng r' c').
Proof.
  intros Hd. induction k as [|k IH]; intros r c ng Hdef; simpl.
  { split; [lia|]. split; [lia|]. done. }
  rewrite runCells_S, shiftChain_cons. simpl.
  destruct (IH (r + dr d) (c + dc d) ng) as (IHa & IHb & IHc).
  { intros i Hi. specialize (Hdef (S i) ltac:(lia)).
    replace (r + dr d + Z.of_nat i * dr d) with (r + Z.of_nat (S i) * dr d) by lia.
    replace (c + dc d + Z.of_nat i * dc d) with (c + Z.of_nat (S i) * dc d) by lia.
    done. }
  set (res' := shiftChain d (runCells d (r + dr d) (c + dc d) k) ng) in *.
  assert (Hshape : length <$> res' = length <$> ng) by apply shiftChain_shape.
  assert (Hdef' : ∀ r' c', is_Some (cellAt ng r' c') → is_Some (cellAt res' r' c')).
  { intros r' c'. by apply cellAt_shape_is_Some. }
  split; [|split].
  - intros _. rewrite cellAt_setCell, decide_True by done.
    rewrite cellAt_setCell_ne by dir_lia Hd.
    destruct (Hdef' r c) as [y ->]; [|done].
    specialize (Hdef 0%nat ltac:(lia)).
    change (Z.of_nat 0) with 0 in Hdef. by rewrite !Z.mul_0_l, !Z.add_0_r in Hdef.
  - intros i Hi. rewrite cellAt_setCell_ne by dir_lia Hd.
    destruct (decide (i = 1%nat)) as [->|Hi1].
    + replace (r + Z.of_nat 1 * dr d) with (r + dr d) by lia.
      replace (c + Z.of_nat 1 * dc d) with (c + dc d) by lia.
      rewrite cellAt_setCell, decide_True by done.
      destruct (Hdef' (r + dr d) (c + dc d)) as [y ->]; [|done].
      specialize (Hdef 1%nat ltac:(lia)).
      replace (r + Z.of_nat 1 * dr d) with (r + dr d) in Hdef by lia.
      replace (c + Z.of_nat 1 * dc d) with (c + dc d) in Hdef by lia. done.
    + rewrite cellAt_setCell_ne by dir_lia Hd.
      specialize (IHb (i - 1)%nat ltac:(lia)).
      replace (r + dr d + Z.of_nat (i - 1) * dr d) with (r + Z.of_nat i * dr d) in IHb by lia.
      replace (c + dc d + Z.of_nat (i - 1) * dc d) with (c + Z.of_nat i * dc d) in IHb by lia.
      done.
  - intros r' c' Hne.
    rewrite cellAt_setCell_ne.
    2:{ specialize (Hne 0%nat ltac:(lia)). change (Z.of_nat 0) with 0 in Hne. lia. }
    rewrite cellAt_setCell_ne.
    2:{ specialize (Hne 1%nat ltac:(lia)). lia. }
    apply IHc. intros i Hi. specialize (Hne (S i) ltac:(lia)). lia.
Qed.
End shift_lemmas.

Section moveDir_lemmas.
Implicit Types (g ng : Grid) (r c : Z) (v x : Cell) (d : Dir) (probe : Pos).

(** What a successor of one direction looks like: a step onto an [EMPTY]
    or [DOCK] cell, or a push of a run of [k] asteroids whose landing cell is
    inside the grid and [EMPTY]. *)
Lemma moveDir_Some_inv g probe d ng :
  moveDir g probe d = Some ng →
  let pr := posR probe in let pc := posC probe in
  let nr := pr + dr d in let nc := pc + dc d in
  inBounds g nr nc = true ∧
  ((cellAt g nr nc = Some EMPTY ∨ cellAt g nr nc = Some DOCK) ∧
   ng = setCell (setCell g pr pc EMPTY) nr nc PROBE
   ∨
   ∃ k : nat, (1 ≤ k)%nat ∧
     (∀ i : nat, (i < k)%nat →
        inBounds g (nr + Z.of_nat i * dr d) (nc + Z.of_nat i * dc d) = true ∧
        cellAt g (nr + Z.of_nat i * dr d) (nc + Z.of_nat i * dc d) = Some AST) ∧
     inBounds g (nr + Z.of_nat k * dr d) (nc + Z.of_nat k * dc d) = true ∧
     cellAt g (nr + Z.of_nat k * dr d) (nc + Z.of_nat k * dc d) = Some EMPTY ∧
     ng = setCell (shiftChain d (runCells d nr nc k) (setCell g pr pc EMPTY))
                  nr nc PROBE).
Proof.
  unfold moveDir. cbv zeta.
  destruct (inBounds g (posR probe + dr d) (posC probe + dc d)) eqn:Hb; cbn [negb]; [|done].
  rewrite cloneGrid_id.
  destruct (cellAt g (posR probe + dr d) (posC probe + dc d)) as [[]|] eqn:Hn; try done.
  - intros [= <-]. split; [done|]. left. auto.
  - destruct (scanChain _ _ _ _ _) as [chain e] eqn:Hs.
    destruct (inBounds g (posR e) (posC e)) eqn:Hbe; cbn [negb]; [|done].
    case_bool_decide as He; cbn [negb]; [|done].
    intros [= <-]. split; [done|]. right.
    pose proof Hs as (Hc & Hee & Hrun)%scanChain_inv.
    exists (length chain). rewrite <-Hc.
    assert (posR e = posR probe + dr d + Z.of_nat (length chain) * dr d) as <- by by rewrite Hee.
    assert (posC e = posC probe + dc d + Z.of_nat (length chain) * dc d) as <- by by rewrite Hee.
    repeat split; try done.
    + destruct chain; [|simpl; lia]. exfalso.
      unfold chainFuel in Hs. simpl in Hs. rewrite Hb, Hn in Hs. simpl in Hs.
      by destruct (scanChain _ _ _ _ _).
    + by apply Hrun.
    + by apply Hrun.
  - intros [= <-]. split; [done|]. left. auto.
Qed.

Lemma moveGen_unfold g probe :
  findCell g PROBE = Some probe → moveGen g = omap (moveDir g probe) DIRS.
Proof. unfold moveGen. by intros ->. Qed.

Lemma elem_of_moveGen g ng :
  ng ∈ moveGen g ↔
  ∃ probe d, findCell g PROBE = Some probe ∧ d ∈ DIRS ∧ moveDir g probe d = Some ng.
Proof.
  unfold moveGen. destruct (findCell g PROBE) as [probe|].
  - rewrite list_elem_of_omap. naive_solver.
  - rewrite elem_of_nil. naive_solver.
Qed.

Lemma moveGen_length g : (length (moveGen g) ≤ 4)%nat.
Proof.
  unfold moveGen. destruct (findCell g PROBE); simpl; [|lia].
  repeat (destruct (moveDir _ _ _); simpl); lia.
Qed.

Lemma moveDir_shape g probe d ng :
  moveDir g probe d = Some ng → length <$> ng = length <$> g.
Proof.
  intros (_ & [[_ ->]|(k & _ & _ & _ & _ & ->)])%moveDir_Some_inv.
  - by rewrite !setCell_shape.
  - by rewrite setCell_shape, shiftChain_shape, setCell_shape.
Qed.

Lemma moveGen_shape g ng : ng ∈ moveGen g → length <$> ng = length <$> g.
Proof. intros (probe & d & _ & _ & H)%elem_of_moveGen. by eapply moveDir_shape. Qed.
End moveDir_lemmas.

Section count_lemmas.
Implicit Types (g ng : Grid) (r c : Z) (v x : Cell) (d : Dir) (probe : Pos).

Lemma count_row_insert (row : list Cell) (j : nat) (old v x : Cell) :
  row !! j = Some old →
  (length (filter (λ y, y = x) (<[j := v]> row)) + (if decide (old = x) then 1 else 0) =
   length (filter (λ y, y = x) row) + (if decide (v = x) then 1 else 0))%nat.
Proof.
  revert j. induction row as [|y row IH]; intros [|j]; simpl; try done.
  - intros [= ->]. rewrite !filter_cons. simpl.
    repeat case_decide; simpl; try lia; congruence.
  - intros H. specialize (IH j H). rewrite !filter_cons. simpl.
    destruct (decide (y = x)); simpl; lia.
Qed.

Lemma count_grid_alter g (i j : nat) (row : list Cell) (old v x : Cell) :
  g !! i = Some row → row !! j = Some old →
  (length (filter (λ y, y = x) (concat (alter (λ rw, <[j := v]> rw) i g)))
     + (if decide (old = x) then 1 else 0) =
   length (filter (λ y, y = x) (concat g)) + (if decide (v = x) then 1 else 0))%nat.
Proof.
  revert i. induction g as [|rw g IH]; intros [|i]; simpl; try done.
  - intros [= ->] Hj. rewrite !filter_app, !length_app.
    pose proof (count_row_insert row j old v x Hj). lia.
  - intros Hi Hj. rewrite !filter_app, !length_app.
    specialize (IH i Hi Hj). unfold alter in IH. lia.
Qed.

Lemma countCell_setCell g r c old v x :
  cellAt g r c = Some old →
  (countCell (setCell g r c v) x + (if decide (old = x) then 1 else 0) =
   countCell g x + (if decide (v = x) then 1 else 0))%nat.
Proof.
  intros (Hr & Hc & row & Hrow & Hx)%cellAt_Some.
  unfold countCell, setCell.
  rewrite (proj2 (Z.leb_le 0 r) Hr), (proj2 (Z.leb_le 0 c) Hc). simpl.
  by eapply count_grid_alter.
Qed.

Lemma countCell_pos g r c v : cellAt g r c = Some v → (1 ≤ countCell g v)%nat.
Proof.
  intros (Hr & Hc & row & Hrow & Hx)%cellAt_Some. unfold countCell.
  assert (v ∈ filter (λ y, y = v) (concat g)) as Hin.
  { apply list_elem_of_filter. split; [done|].
    apply list_elem_of_In, in_concat. exists row.
    split; apply list_elem_of_In; by eapply list_elem_of_lookup_2. }
  destruct (filter _ _); [by apply elem_of_nil in Hin|simpl; lia].
Qed.

Lemma countCell_zero_findCell g v : countCell g v = 0%nat → findCell g v = None.
Proof.
  intros H0. destruct (findCell g v) as [p|] eqn:Hf; [|done].
  apply findCell_Some in Hf as [Hc _]. apply countCell_pos in Hc. lia.
Qed.

(** A value that occurs once occurs at one position only. *)
Lemma countCell_one_unique g v r c r' c' :
  countCell g v = 1%nat →
  cellAt g r c = Some v → cellAt g r' c' = Some v → r = r' ∧ c = c'.
Proof.
  intros H1 Ha Hb.
  destruct (decide (r = r' ∧ c = c')) as [|Hne]; [done|exfalso].
  set (w := if decide (v = EMPTY) then WALL else EMPTY).
  assert (w ≠ v) as Hw by (unfold w; case_decide; congruence).
  pose proof (countCell_setCell g r c v w v Ha) as Hcnt.
  rewrite decide_True in Hcnt by done. rewrite decide_False in Hcnt by done.
  assert (cellAt (setCell g r c w) r' c' = Some v) as Hb'
    by by rewrite cellAt_setCell_ne.
  apply countCell_pos in Hb'. lia.
Qed.

Lemma findCell_unique g v p r c :
  countCell g v = 1%nat → findCell g v = Some p → cellAt g r c = Some v →
  posR p = r ∧ posC p = c.
Proof.
  intros H1 [Hp _]%findCell_Some Hc. by eapply countCell_one_unique.
Qed.

Lemma shiftChain_count d : d ∈ DIRS → ∀ (k : nat) r c ng x,
  (∀ i : nat, (i < k)%nat →
     cellAt ng (r + Z.of_nat i * dr d) (c + Z.of_nat i * dc d) = Some AST) →
  cellAt ng (r + Z.of_nat k * dr d) (c + Z.of_nat k * dc d) = Some EMPTY →
  countCell (shiftChain d (runCells d r c k) ng) x = countCell ng x.
Proof.
  intros Hd. induction k as [|k IH]; intros r c ng x Hrun Hland; [done|].
  rewrite runCells_S, shiftChain_cons. simpl.
  assert (Hrun' : ∀ i : nat, (i < k)%nat →
     cellAt ng (r + dr d + Z.of_nat i * dr d) (c + dc d + Z.of_nat i * dc d) = Some AST).
  { intros i Hi. specialize (Hrun (S i) ltac:(lia)).
    replace (r + dr d + Z.of_nat i * dr d) with (r + Z.of_nat (S i) * dr d) by lia.
    replace (c + dc d + Z.of_nat i * dc d) with (c + Z.of_nat (S i) * dc d) by lia.
    done. }
  assert (Hland' :
     cellAt ng (r + dr d + Z.of_nat k * dr d) (c + dc d + Z.of_nat k * dc d) = Some EMPTY).
  { replace (r + dr d + Z.of_nat k * dr d) with (r + Z.of_nat (S k) * dr d) by lia.
    replace (c + dc d + Z.of_nat k * dc d) with (c + Z.of_nat (S k) * dc d) by lia.
    done. }
  specialize (IH (r + dr d) (c + dc d) ng x Hrun' Hland').
  destruct (shiftChain_cells d Hd k (r + dr d) (c + dc d) ng) as (Ca & Cb & Cc).
  { intros i Hi. destruct (decide (i = k)) as [->|]; [by rewrite Hland'|].
    rewrite Hrun'; [done|lia]. }
  set (res' := shiftChain d (runCells d (r + dr d) (c + dc d) k) ng) in *.
  assert (cellAt res' (r + dr d) (c + dc d) = Some EMPTY) as H1.
  { destruct k as [|k]; [|apply Ca; lia].
    subst res'. simpl. unfold shiftChain. simpl.
    change (Z.of_nat 0) with 0 in Hland'. by rewrite !Z.mul_0_l, !Z.add_0_r in Hland'. }
  assert (cellAt res' r c = Some AST) as H2.
  { rewrite Cc by (intros i Hi; dir_lia Hd).
    specialize (Hrun 0%nat ltac:(lia)). change (Z.of_nat 0) with 0 in Hrun.
    by rewrite !Z.mul_0_l, !Z.add_0_r in Hrun. }
  pose proof (countCell_setCell res' (r + dr d) (c + dc d) EMPTY AST x H1) as E1.
  assert (cellAt (setCell res' (r + dr d) (c + dc d) AST) r c = Some AST) as H3.
  { rewrite cellAt_setCell_ne; [done|]. dir_lia Hd. }
  pose proof (countCell_setCell _ r c AST EMPTY x H3) as E2.
  repeat case_decide; lia.
Qed.
End count_lemmas.

Section moveGen_claims.
Implicit Types (g ng : Grid) (r c : Z) (v x : Cell) (d : Dir) (probe : Pos).

Lemma step_cells g probe d :
  let pr := posR probe in let pc := posC probe in
  let nr := pr + dr d in let nc := pc + dc d in
  d ∈ DIRS → cellAt g pr pc = Some PROBE → is_Some (cellAt g nr nc) →
  let ng := setCell (setCell g pr pc EMPTY) nr nc PROBE in
  cellAt ng pr pc = Some EMPTY ∧ cellAt ng nr nc = Some PROBE ∧
  ∀ r c, ¬ (r = pr ∧ c = pc) → ¬ (r = nr ∧ c = nc) → cellAt ng r c = cellAt g r c.
Proof.
  intros pr pc nr nc Hd Hp [y Hn] ng. subst ng. split; [|split].
  - rewrite cellAt_setCell_ne by (subst pr pc nr nc; dir_lia Hd).
    by eapply cellAt_setCell_eq.
  - apply (cellAt_setCell_eq _ _ _ _ y).
    rewrite cellAt_setCell_ne; [done|]. subst pr pc nr nc; dir_lia Hd.
  - intros r c H1 H2. by rewrite !cellAt_setCell_ne by lia.
Qed.

(** The cells of the grid after a push of a run of [k] asteroids.  Cells
    are numbered from the probe: cell 0 is the probe, cells [1..k] the run,
    cell [k+1] the landing cell. *)
Lemma push_cells g probe d (k : nat) :
  d ∈ DIRS → cellAt g (posR probe) (posC probe) = Some PROBE →
  (∀ i : nat, (1 ≤ i ≤ k)%nat → cellAt g (lineR probe d i) (lineC probe d i) = Some AST) →
  cellAt g (lineR probe d (S k)) (lineC probe d (S k)) = Some EMPTY →
  let ng := setCell (shiftChain d (runCells d (lineR probe d 1%nat) (lineC probe d 1%nat) k)
                       (setCell g (posR probe) (posC probe) EMPTY))
                    (lineR probe d 1%nat) (lineC probe d 1%nat) PROBE in
  cellAt ng (posR probe) (posC probe) = Some EMPTY ∧
  cellAt ng (lineR probe d 1%nat) (lineC probe d 1%nat) = Some PROBE ∧
  (∀ i : nat, (2 ≤ i ≤ S k)%nat → cellAt ng (lineR probe d i) (lineC probe d i) = Some AST) ∧
  (∀ r c, (∀ i : nat, (i ≤ S k)%nat → ¬ (r = lineR probe d i ∧ c = lineC probe d i)) →
          cellAt ng r c = cellAt g r c).
Proof.
  intros Hd Hp Hrun Hland ng.
  set (g0 := setCell g (posR probe) (posC probe) EMPTY) in *.
  assert (Hg0 : ∀ i : nat, (1 ≤ i)%nat → cellAt g0 (lineR probe d i) (lineC probe d i)
    = cellAt g (lineR probe d i) (lineC probe d i)).
  { intros i Hi. subst g0. apply cellAt_setCell_ne. unfold lineR, lineC. simpl. dir_lia Hd. }
  destruct (shiftChain_cells d Hd k (lineR probe d 1%nat) (lineC probe d 1%nat) g0)
    as (Ca & Cb & Cc).
  { intros i Hi.
    replace (lineR probe d 1%nat + Z.of_nat i * dr d)
      with (lineR probe d (S i)) by (unfold lineR; simpl; lia).
    replace (lineC probe d 1%nat + Z.of_nat i * dc d)
      with (lineC probe d (S i)) by (unfold lineC; simpl; lia).
    rewrite Hg0 by lia. destruct (decide (i = k)) as [->|]; [by rewrite Hland|].
    rewrite Hrun; [done|lia]. }
  set (res := shiftChain d (runCells d (lineR probe d 1%nat) (lineC probe d 1%nat) k) g0) in *.
  assert (Hres1 : is_Some (cellAt res (lineR probe d 1%nat) (lineC probe d 1%nat))).
  { apply (cellAt_shape_is_Some g).
    - subst res g0. by rewrite shiftChain_shape, setCell_shape.
    - destruct k as [|k]; [by rewrite Hland|]. rewrite Hrun; [done|lia]. }
  split; [|split; [|split]].
  - subst ng. rewrite cellAt_setCell_ne by (unfold lineR, lineC; simpl; dir_lia Hd).
    rewrite Cc by (intros i Hi; unfold lineR, lineC; simpl; dir_lia Hd).
    subst g0. by eapply cellAt_setCell_eq.
  - subst ng. destruct Hres1 as [y Hy]. by eapply cellAt_setCell_eq.
  - intros i Hi. subst ng.
    rewrite cellAt_setCell_ne by (unfold lineR, lineC; simpl; dir_lia Hd).
    specialize (Cb (i - 1)%nat ltac:(lia)).
    replace (lineR probe d 1%nat + Z.of_nat (i - 1) * dr d)
      with (lineR probe d i) in Cb by (unfold lineR; simpl; lia).
    replace (lineC probe d 1%nat + Z.of_nat (i - 1) * dc d)
      with (lineC probe d i) in Cb by (unfold lineC; simpl; lia).
    done.
  - intros r c Hne. subst ng.
    rewrite cellAt_setCell_ne by (specialize (Hne 1%nat ltac:(lia)); lia).
    rewrite Cc.
    + subst g0. apply cellAt_setCell_ne. specialize (Hne 0%nat ltac:(lia)).
      unfold lineR, lineC in Hne. simpl in Hne. lia.
    + intros i Hi. specialize (Hne (S i) ltac:(lia)). unfold lineR, lineC in *. simpl in *. lia.
Qed.

(** C3.  Let the probe be where [findCell] finds it and [d] one of the four
    directions.  If the adjacent cell in direction [d] is inside the grid
    and holds [EMPTY] or [DOCK], the loop body of [moveGen] pushes one
    successor for [d]: in it the probe's old cell is [EMPTY], the adjacent
    cell is [PROBE] (a [DOCK] tag is overwritten), and every other cell is
    as before.  If the adjacent cell is out of bounds or holds [WALL], no
    successor is pushed for [d].  [moveGen g] is the list of the successors
    pushed for the four directions, in order. *)
Theorem moveGen_step g probe d :
  findCell g PROBE = Some probe → d ∈ DIRS →
  let nr := posR probe + dr d in
  let nc := posC probe + dc d in
  moveGen g = omap (moveDir g probe) DIRS ∧
  (inBounds g nr nc = true →
   cellAt g nr nc = Some EMPTY ∨ cellAt g nr nc = Some DOCK →
   ∃ ng, moveDir g probe d = Some ng ∧
         cellAt ng (posR probe) (posC probe) = Some EMPTY ∧
         cellAt ng nr nc = Some PROBE ∧
         ∀ r c, ¬ (r = posR probe ∧ c = posC probe) → ¬ (r = nr ∧ c = nc) →
                cellAt ng r c = cellAt g r c) ∧
  (inBounds g nr nc = false ∨ cellAt g nr nc = Some WALL →
   moveDir g probe d = None).
Proof.
  intros Hf Hd. cbv zeta. split; [by apply moveGen_unfold|]. split.
  - intros Hb Hn.
    exists (setCell (setCell g (posR probe) (posC probe) EMPTY)
                    (posR probe + dr d) (posC probe + dc d) PROBE).
    split.
    + unfold moveDir. cbv zeta. rewrite Hb. cbn [negb].
      rewrite cloneGrid_id. by destruct Hn as [-> | ->].
    + apply step_cells; [done| |].
      * by apply findCell_Some in Hf as [? _].
      * destruct Hn as [-> | ->]; done.
  - unfold moveDir. cbv zeta. intros [-> | ->]; [done|].
    by destruct (negb _).
Qed.

Lemma moveGen_step_witness :
  ∃ ng, moveDir grid5 (mkPos 1 1) (mkDir 1 0 "Down") = Some ng ∧
        cellAt ng 1 1 = Some EMPTY ∧ cellAt ng 2 1 = Some PROBE.
Proof.
  destruct (moveGen_step grid5 (mkPos 1 1) (mkDir 1 0 "Down")) as (_ & H & _).
  - reflexivity.
  - unfold DIRS. repeat constructor.
  - destruct H as (ng & H1 & H2 & H3 & _).
    + reflexivity.
    + left. reflexivity.
    + exists ng. auto.
Defined.

(** C2.  Let the probe be where [findCell] finds it, [d] a direction, and
    number the cells from the probe in direction [d] (cell 0 is the probe).
    Let cells [1..k] be the maximal contiguous run of asteroids ([k >= 1];
    cell [k+1] is outside the grid or not an asteroid).  Then [moveGen]
    pushes a successor for [d] if and only if the landing cell [k+1] is
    inside the grid and [EMPTY]; in that successor the probe's old cell is
    [EMPTY], the probe is on cell 1, which the nearest asteroid left, cells
    [2..k+1] hold the asteroids of the run, and every cell off the line is
    as before. *)
Theorem moveGen_push g probe d (k : nat) :
  findCell g PROBE = Some probe → d ∈ DIRS → (1 ≤ k)%nat →
  (∀ i : nat, (1 ≤ i ≤ k)%nat →
     lineIn g probe d i = true ∧ lineCell g probe d i = Some AST) →
  ¬ (lineIn g probe d (S k) = true ∧ lineCell g probe d (S k) = Some AST) →
  moveGen g = omap (moveDir g probe) DIRS ∧
  (is_Some (moveDir g probe d) ↔
     lineIn g probe d (S k) = true ∧ lineCell g probe d (S k) = Some EMPTY) ∧
  ∀ ng, moveDir g probe d = Some ng →
    lineCell ng probe d 0 = Some EMPTY ∧
    lineCell ng probe d 1 = Some PROBE ∧
    (∀ i : nat, (2 ≤ i ≤ S k)%nat → lineCell ng probe d i = Some AST) ∧
    (∀ r c, (∀ i : nat, (i ≤ S k)%nat →
               ¬ (r = lineR probe d i ∧ c = lineC probe d i)) →
            cellAt ng r c = cellAt g r c).
Proof.
  unfold lineIn, lineCell.
  replace (lineR probe d 0) with (posR probe) by (unfold lineR; simpl; lia).
  replace (lineC probe d 0) with (posC probe) by (unfold lineC; simpl; lia).
  intros Hf Hd Hk Hrun Hmax.
  split; [by apply moveGen_unfold|].
  assert (HR1 : lineR probe d 1%nat = posR probe + dr d) by (unfold lineR; simpl; lia).
  assert (HC1 : lineC probe d 1%nat = posC probe + dc d) by (unfold lineC; simpl; lia).
  assert (Hscan : scanChain (chainFuel g) g d (lineR probe d 1%nat) (lineC probe d 1%nat) =
                  (runCells d (lineR probe d 1%nat) (lineC probe d 1%nat) k
                    , mkPos (lineR probe d (S k)) (lineC probe d (S k)))).
  { assert (Hrun' : ∀ i : nat, (i < k)%nat →
       inBounds g (lineR probe d 1%nat + Z.of_nat i * dr d) (lineC probe d 1%nat + Z.of_nat i * dc d) = true ∧
       cellAt g (lineR probe d 1%nat + Z.of_nat i * dr d) (lineC probe d 1%nat + Z.of_nat i * dc d) = Some AST).
    { intros i Hi.
      replace (lineR probe d 1%nat + Z.of_nat i * dr d)
        with (lineR probe d (S i)) by (unfold lineR; simpl; lia).
      replace (lineC probe d 1%nat + Z.of_nat i * dc d)
        with (lineC probe d (S i)) by (unfold lineC; simpl; lia).
      apply Hrun. lia. }
    rewrite (scanChain_runCells d g k).
    - f_equal. f_equal; unfold lineR, lineC; simpl; lia.
    - done.
    - replace (lineR probe d 1%nat + Z.of_nat k * dr d)
      with (lineR probe d (S k)) by (unfold lineR; simpl; lia).
      replace (lineC probe d 1%nat + Z.of_nat k * dc d)
        with (lineC probe d (S k)) by (unfold lineC; simpl; lia).
      done.
    - apply (run_length_bound d g k (lineR probe d 1%nat) (lineC probe d 1%nat) Hd).
      intros i Hi. by apply Hrun'. }
  destruct (Hrun 1%nat ltac:(lia)) as [Hb1 Ha1].
  assert (Hmove : moveDir g probe d =
    if negb (inBounds g (lineR probe d (S k)) (lineC probe d (S k))) then None
    else if negb (bool_decide (cellAt g (lineR probe d (S k)) (lineC probe d (S k)) = Some EMPTY))
      then None
    else Some (setCell (shiftChain d (runCells d (lineR probe d 1%nat) (lineC probe d 1%nat) k)
                          (setCell g (posR probe) (posC probe) EMPTY))
                       (lineR probe d 1%nat) (lineC probe d 1%nat) PROBE)).
  { unfold moveDir. cbv zeta. rewrite <-HR1, <-HC1, Hb1, Ha1. cbn [negb].
    rewrite Hscan, cloneGrid_id. done. }
  split.
  - rewrite Hmove.
    destruct (inBounds g (lineR probe d (S k)) (lineC probe d (S k))); cbn [negb].
    2:{ split; [by intros [? ?]|by intros [? _]]. }
    case_bool_decide as He; cbn [negb].
    + split; [done|by eexists].
    + split; [by intros [? ?]|by intros [_ ?]].
  - intros ng. rewrite Hmove.
    destruct (inBounds g (lineR probe d (S k)) (lineC probe d (S k))); cbn [negb]; [|done].
    case_bool_decide as He; cbn [negb]; [|done].
    intros [= <-]. apply push_cells; try done.
    + by apply findCell_Some in Hf as [? _].
    + intros i Hi. by apply Hrun.
Qed.

Lemma moveGen_push_witness :
  moveGen grid5 = omap (moveDir grid5 (mkPos 1 1)) DIRS ∧
  (is_Some (moveDir grid5 (mkPos 1 1) (mkDir 0 1 "Right")) ↔
   lineIn grid5 (mkPos 1 1) (mkDir 0 1 "Right") 2 = true ∧
   lineCell grid5 (mkPos 1 1) (mkDir 0 1 "Right") 2 = Some EMPTY).
Proof.
  destruct (moveGen_push grid5 (mkPos 1 1) (mkDir 0 1 "Right") 1) as (H1 & H2 & _).
  - reflexivity.
  - unfold DIRS. repeat constructor.
  - lia.
  - intros i Hi. assert (i = 1%nat) as -> by lia. split; reflexivity.
  - intros [_ H]. vm_compute in H. discriminate.
  - split; [exact H1|exact H2].
Defined.

Lemma moveGen_conserves g ng :
  countCell g PROBE = 1%nat → ng ∈ moveGen g →
  countCell ng PROBE = 1%nat ∧
  countCell ng AST = countCell g AST ∧
  ∀ r c, cellAt ng r c = Some WALL ↔ cellAt g r c = Some WALL.
Proof.
  intros H1 (probe & d & Hf & Hd & Hm)%elem_of_moveGen.
  pose proof Hf as [Hp _]%findCell_Some.
  apply moveDir_Some_inv in Hm. cbv zeta in Hm.
  destruct Hm as (Hb & [[Hn ->]|(k & Hk & Hrun & Hbl & Hland & ->)]).
  - assert (∃ y, cellAt g (posR probe + dr d) (posC probe + dc d) = Some y ∧
                 y ≠ PROBE ∧ y ≠ AST ∧ y ≠ WALL) as (y & Hy & Y1 & Y2 & Y3).
    { destruct Hn as [Hn|Hn]; eexists; (split; [exact Hn|done]). }
    assert (cellAt (setCell g (posR probe) (posC probe) EMPTY)
              (posR probe + dr d) (posC probe + dc d) = Some y) as Hy'.
    { rewrite cellAt_setCell_ne; [done|]. dir_lia Hd. }
    pose proof (λ x, countCell_setCell g _ _ PROBE EMPTY x Hp) as E1.
    pose proof (λ x, countCell_setCell _ _ _ y PROBE x Hy') as E2.
    split; [|split].
    + specialize (E1 PROBE). specialize (E2 PROBE).
      repeat case_decide; try done; lia.
    + specialize (E1 AST). specialize (E2 AST).
      repeat case_decide; try done; lia.
    + intros r c.
      destruct (step_cells g probe d Hd Hp (ex_intro _ y Hy)) as (Ca & Cb & Cc).
      destruct (decide (r = posR probe ∧ c = posC probe)) as [[-> ->]|Hne1].
      { rewrite Ca, Hp. split; done. }
      destruct (decide (r = posR probe + dr d ∧ c = posC probe + dc d)) as [[-> ->]|Hne2].
      { rewrite Cb, Hy. split; [done|]. intros [= ->]. done. }
      by rewrite Cc.
  - set (R := λ i : nat, posR probe + Z.of_nat i * dr d).
    set (C := λ i : nat, posC probe + Z.of_nat i * dc d).
    assert (HR : ∀ i : nat, posR probe + dr d + Z.of_nat i * dr d = lineR probe d (S i))
      by (intros i; unfold lineR; simpl; lia).
    assert (HC : ∀ i : nat, posC probe + dc d + Z.of_nat i * dc d = lineC probe d (S i))
      by (intros i; unfold lineC; simpl; lia).
    assert (HR1 : posR probe + dr d = lineR probe d 1%nat) by (unfold lineR; simpl; lia).
    assert (HC1 : posC probe + dc d = lineC probe d 1%nat) by (unfold lineC; simpl; lia).
    rewrite HR, HC in Hland, Hbl.
    assert (Hrun' : ∀ i : nat, (1 ≤ i ≤ k)%nat
      → cellAt g (lineR probe d i) (lineC probe d i) = Some AST).
    { intros i Hi. destruct (Hrun (i - 1)%nat ltac:(lia)) as [_ Ha].
      rewrite HR, HC in Ha. by replace (S (i - 1)) with i in Ha by lia. }
    rewrite HR1, HC1.
    destruct (push_cells g probe d k Hd Hp Hrun' Hland) as (Pa & Pb & Pc & Pd).
    set (g0 := setCell g (posR probe) (posC probe) EMPTY) in *.
    set (res := shiftChain d (runCells d (lineR probe d 1%nat) (lineC probe d 1%nat) k) g0) in *.
    assert (Hg0 : ∀ i : nat, (1 ≤ i)%nat → cellAt g0 (lineR probe d i) (lineC probe d i)
      = cellAt g (lineR probe d i) (lineC probe d i)).
    { intros i Hi. subst g0. apply cellAt_setCell_ne. unfold lineR, lineC. simpl. dir_lia Hd. }
    assert (Hcount : ∀ x, countCell res x = countCell g0 x).
    { intros x. apply shiftChain_count; [done| |].
      - intros i Hi. rewrite <-HR1, <-HC1, HR, HC, Hg0 by lia. apply Hrun'. lia.
      - rewrite <-HR1, <-HC1, HR, HC, Hg0 by lia. done. }
    assert (Hres1 : cellAt res (lineR probe d 1%nat) (lineC probe d 1%nat) = Some EMPTY).
    { destruct (shiftChain_cells d Hd k (lineR probe d 1%nat) (lineC probe d 1%nat) g0)
      as (Ca & _ & _).
      - intros i Hi. rewrite <-HR1, <-HC1, HR, HC, Hg0 by lia.
        destruct (decide (i = k)) as [->|]; [by rewrite Hland|].
        rewrite Hrun'; [done|lia].
      - apply Ca. lia. }
    pose proof (λ x, countCell_setCell g _ _ PROBE EMPTY x Hp) as E1.
    pose proof (λ x, countCell_setCell res _ _ EMPTY PROBE x Hres1) as E2.
    fold g0 in E1.
    split; [|split].
    + specialize (E1 PROBE). specialize (E2 PROBE). rewrite Hcount in E2.
      repeat case_decide; try done; lia.
    + specialize (E1 AST). specialize (E2 AST). rewrite Hcount in E2.
      repeat case_decide; try done; lia.
    + intros r c.
      destruct (decide (Exists (λ i : nat, r = lineR probe d i ∧ c = lineC probe d i)
        (seq 0 (S (S k)))))
        as [Hex|Hnex].
      * apply Exists_exists in Hex as (i & Hi%elem_of_seq & -> & ->).
        destruct (decide (i = 0%nat)) as [->|Hi0].
        { replace (lineR probe d 0%nat) with (posR probe) by (unfold lineR; simpl; lia).
          replace (lineC probe d 0%nat) with (posC probe) by (unfold lineC; simpl; lia).
          rewrite Pa, Hp. split; done. }
        destruct (decide (i = 1%nat)) as [->|Hi1].
        { rewrite Pb, Hrun' by lia. split; done. }
        rewrite Pc by lia.
        destruct (decide (i = S k)) as [->|Hik]; [rewrite Hland; split; done|].
        rewrite Hrun' by lia. split; done.
      * rewrite Pd; [done|]. intros i Hi Heq. apply Hnex, Exists_exists.
        exists i. split; [|done]. apply elem_of_seq. lia.
Qed.

(** C4.  From a configuration with exactly one [PROBE] cell, every
    successor of [moveGen] has exactly one [PROBE] cell and as many [AST]
    cells as its predecessor, and its [WALL] cells are exactly the
    predecessor's. *)
Theorem moveGen_conservation g ng :
  countCell g PROBE = 1%nat → ng ∈ moveGen g →
  countCell ng PROBE = 1%nat ∧
  countCell ng AST = countCell g AST ∧
  ∀ r c, cellAt ng r c = Some WALL ↔ cellAt g r c = Some WALL.
Proof. apply moveGen_conserves. Qed.

Lemma moveGen_conservation_witness :
  countCell [[EMPTY; PROBE; AST; EMPTY]] PROBE = 1%nat ∧
  countCell [[EMPTY; EMPTY; PROBE; AST]] AST = countCell [[EMPTY; PROBE; AST; EMPTY]] AST.
Proof.
  destruct (moveGen_conservation [[EMPTY; PROBE; AST; EMPTY]] [[EMPTY; EMPTY; PROBE; AST]])
    as (H1 & H2 & _).
  - reflexivity.
  - vm_compute. repeat constructor.
  - split; [reflexivity|exact H2].
Defined.
End moveGen_claims.

Section serialize_lemmas.
Implicit Types (g : Grid) (row : list Cell) (s t : string).

Lemma string_app_inj_len (s1 s2 t1 t2 : string) :
  String.length s1 = String.length s2 →
  (s1 +:+ t1 = s2 +:+ t2)%string → s1 = s2 ∧ t1 = t2.
Proof.
  revert s2. induction s1 as [|a s1 IH]; intros [|b s2]; simpl; try done.
  intros [= Hl] [= -> H]. destruct (IH _ Hl H) as [-> ->]. done.
Qed.

Lemma cellStr_inj (x y : Cell) : cellStr x = cellStr y → x = y.
Proof. by destruct x, y. Qed.

Lemma cellStr_length (x : Cell) : String.length (cellStr x) = 1%nat.
Proof. by destruct x. Qed.

Lemma join_cons2 sep (x y : string) l :
  join sep (x :: y :: l) = (x +:+ sep +:+ join sep (y :: l))%string.
Proof. done. Qed.

Lemma join_fmap_cons2 {A} sep (f : A → string) (x y : A) (l : list A) :
  join sep (f <$> x :: y :: l) = (f x +:+ sep +:+ join sep (f <$> y :: l))%string.
Proof. done. Qed.

Lemma string_length_app (s t : string) :
  String.length (s +:+ t) = (String.length s + String.length t)%nat.
Proof. induction s as [|a s IH]; simpl; [done|]. by rewrite IH. Qed.

Lemma row_key_length row row' :
  length row = length row' →
  String.length (join "," (cellStr <$> row)) = String.length (join "," (cellStr <$> row')).
Proof.
  revert row'. induction row as [|x [|y row] IH]; intros [|x' [|y' row']]; try done.
  - intros _. simpl. by rewrite !cellStr_length.
  - intros [= Hl]. rewrite !join_fmap_cons2, !string_length_app, !cellStr_length.
    by rewrite (IH (y' :: row')) by (simpl; lia).
Qed.

Lemma row_key_inj row row' :
  length row = length row' →
  join "," (cellStr <$> row) = join "," (cellStr <$> row') → row = row'.
Proof.
  revert row'. induction row as [|x [|y row] IH]; intros [|x' [|y' row']]; try done.
  - intros _ H. simpl in H. by apply cellStr_inj in H as ->.
  - intros [= Hl]. rewrite !join_fmap_cons2. intros H.
    apply string_app_inj_len in H as [Hx H]; [|by rewrite !cellStr_length].
    apply cellStr_inj in Hx as ->.
    apply (string_app_inj_len "," ",") in H as [_ H]; [|done].
    f_equal. apply IH; [simpl; lia|done].
Qed.

(** The key determines the grid among grids of one shape. *)
Lemma serializeGrid_inj g g' :
  length <$> g = length <$> g' → serializeGrid g = serializeGrid g' → g = g'.
Proof.
  unfold serializeGrid.
  revert g'. induction g as [|row [|row2 g] IH]; intros [|row' [|row2' g']]; try done.
  - intros [= Hl] H. simpl in H. f_equal. by apply row_key_inj.
  - intros [= Hl Hl2 Hs]. rewrite !join_fmap_cons2. intros H.
    apply string_app_inj_len in H as [Hx H]; [|by apply row_key_length].
    apply row_key_inj in Hx as ->; [|done].
    apply (string_app_inj_len "|" "|") in H as [_ H]; [|done].
    f_equal. apply IH; [simpl; congruence|done].
Qed.

Lemma serializeGrid_nonempty g r c v :
  cellAt g r c = Some v → serializeGrid g ≠ EmptyString.
Proof.
  intros (_ & _ & row & Hrow & Hv)%cellAt_Some. unfold serializeGrid.
  destruct g as [|row1 [|row2 g]]; [done| |].
  - destruct (Z.to_nat r); [|done]. simpl in Hrow. injection Hrow as ->.
    destruct row as [|x [|y row]]; [done| |].
    + simpl. by destruct x.
    + simpl. by destruct x.
  - rewrite join_fmap_cons2.
    destruct (join "," (cellStr <$> row1)); done.
Qed.
End serialize_lemmas.

Section roundtrip_lemmas.
Implicit Types (g : Grid) (row : list Cell) (s t : string).

Lemma cellOfString_cellStr (x : Cell) : cellOfString (cellStr x) = x.
Proof. by destruct x. Qed.

Lemma append_String a s t : (String a s +:+ t = String a (s +:+ t))%string.
Proof. done. Qed.

Lemma append_Empty t : (EmptyString +:+ t = t)%string.
Proof. done. Qed.

Lemma split_String_eq sep s : split sep (String sep s) = EmptyString :: split sep s.
Proof. simpl. by rewrite decide_True. Qed.

Lemma split_String_ne sep a s x xs :
  a ≠ sep → split sep s = x :: xs → split sep (String a s) = String a x :: xs.
Proof. intros Hne Hs. simpl. by rewrite decide_False, Hs. Qed.

Lemma split_cells row :
  split sepCell (join "," (cellStr <$> row)) = cellStr <$> fixRow row ∨
  (row = [] ∧ split sepCell (join "," (cellStr <$> row)) = [EmptyString]).
Proof.
  induction row as [|x [|y row] IH].
  - right. done.
  - left. by destruct x.
  - left. rewrite join_fmap_cons2.
    destruct IH as [IH|[? _]]; [|done].
    change (cellStr <$> fixRow (x :: y :: row))
      with (cellStr x :: (cellStr <$> fixRow (y :: row))).
    rewrite <-IH.
    destruct x; cbn [cellStr]; repeat first [rewrite append_String | rewrite append_Empty];
      (erewrite split_String_ne; [done|done|apply split_String_eq]).
Qed.

Lemma parse_row row :
  cellOfString <$> split sepCell (join "," (cellStr <$> row)) = fixRow row.
Proof.
  destruct (split_cells row) as [->|[-> ->]]; [|done].
  rewrite <-list_fmap_compose. rewrite <-(list_fmap_id (fixRow row)) at 2.
  apply list_fmap_ext. intros _ x _. apply cellOfString_cellStr.
Qed.

Lemma split_row_key_app row t :
  split sepRow (join "," (cellStr <$> row) +:+ String sepRow t) =
  join "," (cellStr <$> row) :: split sepRow t.
Proof.
  induction row as [|x [|y row] IH].
  - done.
  - by destruct x.
  - rewrite join_fmap_cons2.
    destruct x; cbn [cellStr]; repeat first [rewrite append_String | rewrite append_Empty];
      (erewrite split_String_ne; [done|done|];
       erewrite split_String_ne; [done|done|apply IH]).
Qed.

Lemma split_row_key row :
  split sepRow (join "," (cellStr <$> row)) = [join "," (cellStr <$> row)].
Proof.
  induction row as [|x [|y row] IH].
  - done.
  - by destruct x.
  - rewrite join_fmap_cons2.
    destruct x; cbn [cellStr]; repeat first [rewrite append_String | rewrite append_Empty];
      (erewrite split_String_ne; [done|done|];
       erewrite split_String_ne; [done|done|apply IH]).
Qed.

Lemma split_rows g :
  g ≠ [] →
  split sepRow (serializeGrid g) = (λ row, join "," (cellStr <$> row)) <$> g.
Proof.
  unfold serializeGrid. induction g as [|row [|row2 g] IH]; intros Hne; [done| |].
  - simpl. apply split_row_key.
  - rewrite join_fmap_cons2.
    rewrite append_String, append_Empty.
    rewrite split_row_key_app, IH by done. done.
Qed.

(** Reading a key back gives the grid, up to empty rows. *)
Lemma reparse_fixRow g : g ≠ [] → reparse (length g) (width g) g = fixRow <$> g.
Proof.
  intros Hne. unfold reparse, deserializeGrid. rewrite split_rows by done.
  rewrite <-list_fmap_compose, !length_fmap, Nat.sub_diag. simpl.
  rewrite app_nil_r. apply list_fmap_ext. intros _ row _. apply parse_row.
Qed.

Lemma reparse_id g :
  g ≠ [] → Forall (λ row, row ≠ []) g → reparse (length g) (width g) g = g.
Proof.
  intros Hne Hrows. rewrite reparse_fixRow by done.
  rewrite <-(list_fmap_id g) at 2. apply Forall_fmap_ext_1.
  eapply Forall_impl; [exact Hrows|]. intros [|x row] H; done.
Qed.

Lemma indexOf_fixRow v row w :
  v ≠ EMPTY → indexOf v (take w (fixRow row)) = indexOf v (take w row).
Proof.
  intros Hv. destruct row as [|x row]; [|done]. destruct w; simpl; [done|].
  rewrite decide_False by congruence. by rewrite take_nil.
Qed.

Lemma findRows_fixRow v w rows n0 :
  v ≠ EMPTY → findRows w v (fixRow <$> rows) n0 = findRows w v rows n0.
Proof.
  intros Hv. revert n0. induction rows as [|row rows IH]; intros n0; simpl; [done|].
  rewrite indexOf_fixRow by done. by rewrite IH.
Qed.

Lemma findCell_fixRow g v :
  v ≠ EMPTY → (0 < width g)%nat → findCell (fixRow <$> g) v = findCell g v.
Proof.
  intros Hv Hw. unfold findCell.
  assert (width (fixRow <$> g) = width g) as ->.
  { destruct g as [|[|x row] g]; simpl in *; [done|lia|done]. }
  by apply findRows_fixRow.
Qed.

Lemma findCell_width g v p : findCell g v = Some p → (0 < width g)%nat.
Proof. intros [_ (? & ? & ? & ?)%inBounds_true]%findCell_Some. lia. Qed.
End roundtrip_lemmas.

Section loop_lemmas.
Context {St : Type} (step : St → St + Exit St).

(** A loop that ended was left from a state the invariant holds in. *)
Lemma runLoop_inv (Inv : St → Prop) fuel st e :
  (∀ s s', Inv s → step s = inl s' → Inv s') →
  Inv st → runLoop step fuel st = Some e →
  ∃ s, Inv s ∧ step s = inr e.
Proof.
  intros Hstep. revert st. induction fuel as [|fuel IH]; intros st Hinv; simpl; [done|].
  destruct (step st) as [st'|e'] eqn:Hs.
  - apply IH. by eapply Hstep.
  - intros [= <-]. eauto.
Qed.

(** A loop whose body decreases a measure ends within that many
    iterations. *)
Lemma runLoop_terminates (Inv : St → Prop) (μ : St → nat) fuel st :
  (∀ s s', Inv s → step s = inl s' → Inv s' ∧ (μ s' < μ s)%nat) →
  Inv st → (μ st < fuel)%nat → is_Some (runLoop step fuel st).
Proof.
  intros Hstep. revert st. induction fuel as [|fuel IH]; intros st Hinv Hμ; simpl; [lia|].
  destruct (step st) as [st'|e'] eqn:Hs; [|done].
  destruct (Hstep st st' Hinv Hs) as [Hinv' Hlt]. apply IH; [done|lia].
Qed.
End loop_lemmas.

Section path_lemmas.
Context (start : Grid).
Implicit Types (g : Grid) (gs : list Grid) (parent : gmap string (option string)).

Lemma Path_last g gs : Path start g gs → last gs = Some g.
Proof. destruct 1; [done|]. by rewrite last_snoc. Qed.

Lemma Path_head g gs : Path start g gs → head gs = Some start.
Proof.
  induction 1 as [|g g' gs Hp IH Hm]; [done|].
  destruct gs; [done|]. done.
Qed.

Lemma Path_length g gs : Path start g gs → (1 ≤ length gs)%nat.
Proof. destruct 1; [simpl; lia|]. rewrite length_app. simpl. lia. Qed.

Lemma Path_shape g gs : Path start g gs → length <$> g = length <$> start.
Proof.
  induction 1 as [|g g' gs Hp IH Hm]; [done|].
  rewrite <-IH. by apply moveGen_shape.
Qed.

Lemma Path_key_inj g gs g' gs' :
  Path start g gs → Path start g' gs' →
  serializeGrid g = serializeGrid g' → g = g'.
Proof.
  intros H1%Path_shape H2%Path_shape. apply serializeGrid_inj. congruence.
Qed.

Lemma Link_Path parent g gs : Link start parent g gs → Path start g gs.
Proof. induction 1; econstructor; eauto. Qed.

Lemma Link_mono parent parent' g gs :
  parent ⊆ parent' → Link start parent g gs → Link start parent' g gs.
Proof.
  intros Hsub. induction 1 as [H0|g g' gs Hl IH Hm Hp].
  - apply Link_root. by eapply lookup_weaken.
  - eapply Link_step; [done|done|]. by eapply lookup_weaken.
Qed.

Lemma Link_insert parent g gs k v :
  parent !! k = None → Link start parent g gs → Link start (<[k := v]> parent) g gs.
Proof. intros Hk. apply Link_mono. by apply insert_subseteq. Qed.

Lemma Path_inv_snoc g gs :
  Path start g gs →
  gs = [start] ∧ g = start ∨
  ∃ g0 gs0, gs = gs0 ++ [g] ∧ Path start g0 gs0 ∧ g ∈ moveGen g0.
Proof. destruct 1; [by left|right; eauto]. Qed.

(** Successors carry a probe inside the scanned area. *)
Lemma moveGen_has_probe g g' : g' ∈ moveGen g → is_Some (findCell g' PROBE).
Proof.
  intros (probe & d & Hf & Hd & Hm)%elem_of_moveGen.
  pose proof (moveDir_shape _ _ _ _ Hm) as Hshape.
  destruct (findCell g' PROBE) as [p|] eqn:Hn; [done|exfalso].
  pose proof Hf as [Hp _]%findCell_Some.
  apply moveDir_Some_inv in Hm. cbv zeta in Hm.
  destruct Hm as (Hb & Hcase).
  eapply (findCell_None g' PROBE _ _ Hn).
  { rewrite (shape_inBounds _ _ _ _ Hshape). exact Hb. }
  destruct Hcase as [[Hy ->]|(k & Hk & Hrun & Hbl & Hland & ->)].
  - eapply step_cells; [done|done|]. destruct Hy as [-> | ->]; done.
  - replace (posR probe + dr d) with (lineR probe d 1%nat) by (unfold lineR; simpl; lia).
    replace (posC probe + dc d) with (lineC probe d 1%nat) by (unfold lineC; simpl; lia).
    eapply push_cells; [done|done| |].
    + intros i Hi. destruct i as [|j]; [lia|].
      destruct (Hrun j ltac:(lia)) as [_ Ha].
      replace (lineR probe d (S j)) with (posR probe + dr d + Z.of_nat j * dr d)
        by (unfold lineR; lia).
      replace (lineC probe d (S j)) with (posC probe + dc d + Z.of_nat j * dc d)
        by (unfold lineC; lia).
      done.
    + replace (lineR probe d (S k)) with (posR probe + dr d + Z.of_nat k * dr d)
        by (unfold lineR; lia).
      replace (lineC probe d (S k)) with (posC probe + dc d + Z.of_nat k * dc d)
        by (unfold lineC; lia).
      done.
Qed.

Lemma findCell_key_nonempty g v :
  is_Some (findCell g v) → serializeGrid g ≠ EmptyString.
Proof. intros [p [Hp _]%findCell_Some]. by eapply serializeGrid_nonempty. Qed.

Lemma Path_keys_nonempty g gs :
  is_Some (findCell start PROBE) → Path start g gs →
  Forall (λ x, serializeGrid x ≠ EmptyString) gs.
Proof.
  intros Hs. induction 1 as [|g g' gs Hp IH Hm].
  - repeat constructor. by eapply findCell_key_nonempty.
  - apply Forall_app. split; [done|]. repeat constructor.
    eapply findCell_key_nonempty, moveGen_has_probe, Hm.
Qed.

(** Walking the parent links from the key of a linked configuration
    rebuilds its path. *)
Lemma walkParents_Link parent n m g gs fuel acc :
  Link start parent g gs → (length gs ≤ fuel)%nat →
  walkParents fuel parent n m (serializeGrid g) acc =
  Some ((reparse n m <$> gs) ++ acc).
Proof.
  intros Hl. revert fuel acc.
  induction Hl as [H0|g g' gs Hl IH Hm Hp]; intros fuel acc Hf.
  - destruct fuel as [|fuel]; [simpl in Hf; lia|]. cbn [walkParents]. by rewrite H0.
  - rewrite length_app in Hf. simpl in Hf.
    destruct fuel as [|fuel]; [lia|]. cbn [walkParents]. rewrite Hp.
    rewrite IH by lia. by rewrite fmap_app, <-app_assoc.
Qed.

Lemma walkParentsDfs_Link parent n m g gs fuel acc :
  Link start parent g gs →
  Forall (λ x, serializeGrid x ≠ EmptyString) gs →
  (length gs ≤ fuel)%nat →
  walkParentsDfs fuel parent n m (serializeGrid g) acc =
  Some ((reparse n m <$> gs) ++ acc).
Proof.
  intros Hl. revert fuel acc.
  induction Hl as [H0|g g' gs Hl IH Hm Hp]; intros fuel acc Hne Hf.
  - destruct fuel as [|fuel]; [simpl in Hf; lia|]. cbn [walkParentsDfs].
    apply Forall_inv in Hne. simpl in Hne.
    rewrite decide_False by done. by rewrite H0.
  - rewrite length_app in Hf. simpl in Hf.
    apply Forall_app in Hne as [Hne Hg'%Forall_inv]. simpl in Hg'.
    destruct fuel as [|fuel]; [lia|]. cbn [walkParentsDfs].
    rewrite decide_False by done. rewrite Hp.
    assert (serializeGrid g ≠ EmptyString) as Hg.
    { apply Link_Path, Path_last in Hl. apply last_Some_elem_of in Hl.
      eapply Forall_forall in Hne; [|exact Hl]. done. }
    rewrite decide_False by done.
    rewrite IH by (done || lia). by rewrite fmap_app, <-app_assoc.
Qed.
End path_lemmas.

Section lazy_engines.
Context (start : Grid).
Implicit Types (g : Grid) (gs : list Grid) (parent : gmap string (option string)).

Lemma Frontier_mono parent parent' grids :
  parent ⊆ parent' → Frontier start parent grids → Frontier start parent' grids.
Proof.
  intros Hsub HF g Hg. destruct (HF g Hg) as [Hp [v Hv]].
  split; [done|]. exists v. by eapply lookup_weaken.
Qed.

Lemma Frontier_cons parent g grids :
  Frontier start parent (g :: grids) ↔
  ((∃ gs, Path start g gs) ∧ is_Some (parent !! serializeGrid g)) ∧
  Frontier start parent grids.
Proof.
  unfold Frontier. split.
  - intros H. split; [apply H; left|]. intros g' Hg'. apply H. by right.
  - intros [H1 H2] g' [->|Hg']%elem_of_cons; auto.
Qed.

Lemma ParentOk_init : ParentOk start {[ serializeGrid start := None ]}.
Proof.
  intros k v [<- <-]%lookup_singleton_Some.
  exists start, [start]. split; [done|]. split.
  - apply Link_root. apply lookup_singleton_eq.
  - rewrite map_size_singleton. simpl. lia.
Qed.

Lemma ParentOk_linked parent g gs0 :
  ParentOk start parent → Path start g gs0 → is_Some (parent !! serializeGrid g) →
  ∃ gs, Link start parent g gs ∧ (length gs ≤ size parent)%nat.
Proof.
  intros Hok Hp [v Hv]. destruct (Hok _ _ Hv) as (g' & gs & Hk & Hl & Hlen).
  assert (g' = g) as -> by (eapply Path_key_inj; eauto using Link_Path).
  eauto.
Qed.

(** [if (!parent.has(nk)) parent.set(nk, key)] for a successor [ng] of a
    reachable configuration [g] whose key is in the map. *)
Lemma record_parent_ok parent g gs0 ng :
  ParentOk start parent → Path start g gs0 →
  is_Some (parent !! serializeGrid g) → ng ∈ moveGen g →
  let parent' := if decide (is_Some (parent !! serializeGrid ng)) then parent
                 else <[serializeGrid ng := Some (serializeGrid g)]> parent in
  ParentOk start parent' ∧ parent ⊆ parent' ∧
  is_Some (parent' !! serializeGrid ng).
Proof.
  intros Hok Hp Hg Hm. cbv zeta. case_decide as Hnk; [done|].
  assert (parent !! serializeGrid ng = None) as Hnone
    by (by apply eq_None_not_Some).
  split; [|split].
  - intros k v Hkv. rewrite map_size_insert_None by done.
    apply lookup_insert_Some in Hkv as [[<- <-]|[Hne Hkv]].
    + destruct (ParentOk_linked parent g gs0 Hok Hp Hg) as (gs & Hl & Hlen).
      exists ng, (gs ++ [ng]). split; [done|]. split.
      * eapply Link_step; [by apply Link_insert|done|]. apply lookup_insert_eq.
      * rewrite length_app. simpl. lia.
    + destruct (Hok _ _ Hkv) as (g' & gs & Hk & Hl & Hlen).
      exists g', gs. split; [done|]. split; [by apply Link_insert|lia].
  - by apply insert_subseteq.
  - rewrite lookup_insert_eq. done.
Qed.

(** *** Depth-first search *)

Lemma dfs_fold parent0 g gs0 :
  Path start g gs0 →
  ∀ nexts parent stack,
    (∀ ng, ng ∈ nexts → ng ∈ moveGen g) →
    ParentOk start parent → Frontier start parent (fst <$> stack) →
    is_Some (parent !! serializeGrid g) → parent0 ⊆ parent →
    ∃ parent' stack',
      foldl (dfsPush (serializeGrid g)) (parent, stack) nexts = (parent', stack') ∧
      ParentOk start parent' ∧ Frontier start parent' (fst <$> stack') ∧
      length stack' = (length stack + length nexts)%nat ∧ parent0 ⊆ parent'.
Proof.
  intros Hp. induction nexts as [|ng nexts IH]; intros parent stack Hin Hok HF Hg Hsub.
  - exists parent, stack. simpl. do 3 (split; [done|]). split; [lia|done].
  - simpl. unfold dfsPush at 2. simpl.
    destruct (record_parent_ok parent g gs0 ng Hok Hp Hg) as (Hok' & Hsub' & Hnk).
    { apply Hin. left. }
    cbv zeta in Hok', Hsub', Hnk.
    set (parent1 := if decide (is_Some (parent !! serializeGrid ng)) then parent
                    else <[serializeGrid ng := Some (serializeGrid g)]> parent) in *.
    destruct (IH parent1 ((ng, Some (serializeGrid g)) :: stack))
      as (parent' & stack' & Hfold & Hok'' & HF'' & Hlen & Hsub'').
    + intros ng' Hng'. apply Hin. by right.
    + done.
    + rewrite fmap_cons. simpl. apply Frontier_cons. split.
      * split; [|done]. exists (gs0 ++ [ng]). econstructor; [done|]. apply Hin. left.
      * by eapply Frontier_mono.
    + destruct Hg as [v Hv]. exists v. by eapply lookup_weaken.
    + by etrans.
    + exists parent', stack'. do 3 (split; [done|]). split; [|done].
      rewrite Hlen. simpl. lia.
Qed.

Lemma dfsStep_inv dockPos maxNodes st st' :
  DfsInv start maxNodes st → dfsStep dockPos maxNodes st = inl st' →
  DfsInv start maxNodes st' ∧ (dfsMeasure maxNodes st' < dfsMeasure maxNodes st)%nat.
Proof.
  intros (Hok & HF & Hn). unfold dfsStep, dfsMeasure.
  destruct (d_stack st) as [|[grid par] rest] eqn:Hstack; [done|].
  rewrite fmap_cons in HF. simpl in HF. apply Frontier_cons in HF as [[[gs0 Hp] Hkey] HF].
  case_decide as Hseen.
  { intros [= <-]. simpl. split; [done|lia]. }
  destruct (goalTest grid dockPos); [done|].
  destruct (maxNodes <? S (d_nodes st))%nat eqn:Hc; [done|].
  apply Nat.ltb_ge in Hc.
  destruct (dfs_fold (d_parent st) grid gs0 Hp (moveGen grid) (d_parent st) rest)
    as (parent' & stack' & Hfold & Hok' & HF' & Hlen & _); try done.
  rewrite Hfold. intros [= <-]. simpl. split; [done|].
  pose proof (moveGen_length grid). lia.
Qed.

Lemma DfsInv_init maxNodes : DfsInv start maxNodes (dfsInit start).
Proof.
  split; [apply ParentOk_init|]. split; [|simpl; lia].
  simpl. intros g ->%list_elem_of_singleton. split.
  - exists [start]. constructor.
  - rewrite lookup_singleton_eq. done.
Qed.

Lemma dfsRun_terminates maxNodes : is_Some (dfsRun start maxNodes).
Proof.
  unfold dfsRun.
  apply (runLoop_terminates _ (DfsInv start maxNodes) (dfsMeasure maxNodes)).
  - intros s s'. apply dfsStep_inv.
  - apply DfsInv_init.
  - unfold dfsMeasure, lazyFuel. simpl. lia.
Qed.

Lemma dfsRun_exit maxNodes e :
  dfsRun start maxNodes = Some e →
  ∃ s, DfsInv start maxNodes s ∧ dfsStep (findCell start DOCK) maxNodes s = inr e.
Proof.
  unfold dfsRun. apply runLoop_inv.
  - intros s s' Hs Hstep. by eapply dfsStep_inv.
  - apply DfsInv_init.
Qed.

(** *** Greedy best-first search *)

Lemma elem_of_insertPQ (x y : Grid * Z) l : y ∈ insertPQ x l ↔ y = x ∨ y ∈ l.
Proof.
  induction l as [|z l IH]; simpl.
  - rewrite list_elem_of_singleton, elem_of_nil. tauto.
  - destruct (x.2 <=? z.2); rewrite !elem_of_cons; [tauto|]. rewrite IH. tauto.
Qed.

Lemma length_insertPQ (x : Grid * Z) l : length (insertPQ x l) = S (length l).
Proof.
  induction l as [|z l IH]; simpl; [done|].
  destruct (x.2 <=? z.2); simpl; [done|]. by rewrite IH.
Qed.

Lemma elem_of_sortPQ (y : Grid * Z) l : y ∈ sortPQ l ↔ y ∈ l.
Proof.
  unfold sortPQ. induction l as [|x l IH]; simpl; [done|].
  rewrite elem_of_insertPQ, elem_of_cons, IH. tauto.
Qed.

Lemma length_sortPQ l : length (sortPQ l) = length l.
Proof.
  unfold sortPQ. induction l as [|x l IH]; simpl; [done|].
  by rewrite length_insertPQ, IH.
Qed.

Lemma pushPQ_length dockPos pq g :
  (length (pushPQ dockPos pq g) ≤ S (length pq))%nat.
Proof.
  unfold pushPQ. destruct (findCell g PROBE); [|lia].
  rewrite length_sortPQ, length_app. simpl. lia.
Qed.

Lemma pushPQ_Frontier dockPos parent pq g gs0 :
  Path start g gs0 → is_Some (parent !! serializeGrid g) →
  Frontier start parent (fst <$> pq) →
  Frontier start parent (fst <$> pushPQ dockPos pq g).
Proof.
  intros Hp Hk HF. unfold pushPQ. destruct (findCell g PROBE) as [p|]; [|done].
  intros g' ([g'' sc] & -> & Hin)%list_elem_of_fmap. simpl.
  apply elem_of_sortPQ, elem_of_app in Hin as [Hin|Hin].
  - apply HF. apply list_elem_of_fmap. by exists (g'', sc).
  - apply list_elem_of_singleton in Hin as [= -> _]. eauto.
Qed.

Lemma best_fold dockPos parent0 g gs0 :
  Path start g gs0 →
  ∀ nexts parent pq,
    (∀ ng, ng ∈ nexts → ng ∈ moveGen g) →
    ParentOk start parent → Frontier start parent (fst <$> pq) →
    is_Some (parent !! serializeGrid g) → parent0 ⊆ parent →
    ∃ parent' pq',
      foldl (bestPush dockPos (serializeGrid g)) (parent, pq) nexts = (parent', pq') ∧
      ParentOk start parent' ∧ Frontier start parent' (fst <$> pq') ∧
      (length pq' ≤ length pq + length nexts)%nat ∧ parent0 ⊆ parent'.
Proof.
  intros Hp. induction nexts as [|ng nexts IH]; intros parent pq Hin Hok HF Hg Hsub.
  - exists parent, pq. simpl. do 3 (split; [done|]). split; [lia|done].
  - simpl. unfold bestPush at 2. simpl.
    destruct (record_parent_ok parent g gs0 ng Hok Hp Hg) as (Hok' & Hsub' & Hnk).
    { apply Hin. left. }
    cbv zeta in Hok', Hsub', Hnk.
    set (parent1 := if decide (is_Some (parent !! serializeGrid ng)) then parent
                    else <[serializeGrid ng := Some (serializeGrid g)]> parent) in *.
    destruct (IH parent1 (pushPQ dockPos pq ng))
      as (parent' & pq' & Hfold & Hok'' & HF'' & Hlen & Hsub'').
    + intros ng' Hng'. apply Hin. by right.
    + done.
    + eapply (pushPQ_Frontier _ _ _ _ (gs0 ++ [ng])).
      * econstructor; [done|]. apply Hin. left.
      * done.
      * by eapply Frontier_mono.
    + destruct Hg as [v Hv]. exists v. by eapply lookup_weaken.
    + by etrans.
    + exists parent', pq'. do 3 (split; [done|]). split; [|done].
      pose proof (pushPQ_length dockPos pq ng). simpl. lia.
Qed.

Lemma bestStep_inv dockPos maxNodes st st' :
  BestInv start maxNodes st → bestStep dockPos maxNodes st = inl st' →
  BestInv start maxNodes st' ∧ (bestMeasure maxNodes st' < bestMeasure maxNodes st)%nat.
Proof.
  intros (Hok & HF & Hn). unfold bestStep, bestMeasure.
  destruct (f_pq st) as [|[grid sc] rest] eqn:Hpq; [done|].
  rewrite fmap_cons in HF. simpl in HF. apply Frontier_cons in HF as [[[gs0 Hp] Hkey] HF].
  case_decide as Hseen.
  { intros [= <-]. simpl. split; [done|lia]. }
  destruct (goalTest grid (Some dockPos)); [done|].
  destruct (maxNodes <? S (f_nodes st))%nat eqn:Hc; [done|].
  apply Nat.ltb_ge in Hc.
  destruct (best_fold dockPos (f_parent st) grid gs0 Hp (moveGen grid) (f_parent st) rest)
    as (parent' & pq' & Hfold & Hok' & HF' & Hlen & _); try done.
  rewrite Hfold. intros [= <-]. simpl. split; [done|].
  pose proof (moveGen_length grid). lia.
Qed.

Lemma BestInv_init dockPos maxNodes : BestInv start maxNodes (bestInit dockPos start).
Proof.
  split; [apply ParentOk_init|]. split; [|simpl; lia].
  simpl. eapply (pushPQ_Frontier _ _ _ _ [start]).
  - constructor.
  - rewrite lookup_singleton_eq. done.
  - intros g Hg. by apply elem_of_nil in Hg.
Qed.

Lemma bestRun_terminates dockPos maxNodes : is_Some (bestRun dockPos start maxNodes).
Proof.
  unfold bestRun.
  apply (runLoop_terminates _ (BestInv start maxNodes) (bestMeasure maxNodes)).
  - intros s s'. apply bestStep_inv.
  - apply BestInv_init.
  - unfold bestMeasure, lazyFuel. simpl.
    pose proof (pushPQ_length dockPos [] start). simpl in *. lia.
Qed.

Lemma bestRun_exit dockPos maxNodes e :
  bestRun dockPos start maxNodes = Some e →
  ∃ s, BestInv start maxNodes s ∧ bestStep dockPos maxNodes s = inr e.
Proof.
  unfold bestRun. apply runLoop_inv.
  - intros s s' Hs Hstep. by eapply bestStep_inv.
  - apply BestInv_init.
Qed.
End lazy_engines.

Section bfs_engine.
Context (start : Grid).
Implicit Types (g h : Grid) (gs : list Grid) (parent : gmap string (option string))
  (seen : gset string).

Lemma AtLevel_mono parent parent' d g :
  parent ⊆ parent' → AtLevel start parent d g → AtLevel start parent' d g.
Proof. intros Hsub (gs & Hl & Hlen & Hs). exists gs. eauto using Link_mono. Qed.

Lemma AtLevel_unique parent d d' g :
  AtLevel start parent d g → AtLevel start parent d' g → d = d'.
Proof.
  intros (gs & Hl & Hlen & Hs) (gs' & Hl' & Hlen' & Hs').
  pose proof (Hs gs' (Link_Path _ _ _ _ Hl')).
  pose proof (Hs' gs (Link_Path _ _ _ _ Hl)). lia.
Qed.

Lemma AtLevel_Path parent d g : AtLevel start parent d g → ∃ gs, Path start g gs.
Proof. intros (gs & Hl & _). eauto using Link_Path. Qed.

Lemma Link_key parent g gs : Link start parent g gs → is_Some (parent !! serializeGrid g).
Proof. destruct 1; eauto. Qed.

Lemma bfsPush_mid h d A seen parent q ng :
  BfsMid start h d A seen parent q → ng ∈ moveGen h →
  ∃ seen' parent' q',
    bfsPush (serializeGrid h) (seen, parent, q) ng = (seen', parent', q') ∧
    BfsMid start h d A seen' parent' q' ∧ seen ⊆ seen' ∧
    serializeGrid ng ∈ seen'.
Proof.
  intros [Hseen Htree Hh Hsize (B & -> & HA & HB) Hcompl Hexp] Hm.
  unfold bfsPush. case_decide as Hnk.
  { eexists _, _, _. split; [done|]. split; [by split; eauto|]. done. }
  set (nk := serializeGrid ng) in *.
  set (parent' := <[nk := Some (serializeGrid h)]> parent).
  assert (parent !! nk = None) as Hnone.
  { apply eq_None_not_Some. by rewrite <-Hseen. }
  assert (parent ⊆ parent') as Hsub by (by apply insert_subseteq).
  assert (size parent' = S (size parent)) as Hsz by (by apply map_size_insert_None).
  assert (AtLevel start parent' (S d) ng) as Hng.
  { destruct Hh as (gs & Hl & Hlen & Hs). exists (gs ++ [ng]). split; [|split].
    - eapply Link_step; [by eapply Link_mono|done|]. apply lookup_insert_eq.
    - rewrite length_app. simpl. lia.
    - intros gs' Hp'. rewrite length_app. simpl.
      destruct (decide (length gs' ≤ S d)%nat) as [Hle|]; [|lia].
      exfalso. apply Hnk. by eapply Hcompl. }
  eexists _, _, _. split; [done|]. split; [|split; [set_solver|set_solver]].
  split.
  - intros k. unfold parent'. rewrite lookup_insert_is_Some
    , elem_of_union, elem_of_singleton, Hseen.
    destruct (decide (nk = k)); naive_solver.
  - intros k [->%elem_of_singleton|Hk]%elem_of_union.
    + exists ng, (S d). split; [done|]. split; [done|lia].
    + destruct (Htree k Hk) as (g & d' & Hg & Hat & Hle).
      exists g, d'. split; [done|]. split; [by eapply AtLevel_mono|lia].
  - by eapply AtLevel_mono.
  - lia.
  - exists (B ++ [ng]). split; [by rewrite app_assoc|]. split.
    + eapply Forall_impl; [exact HA|]. intros g. by apply AtLevel_mono.
    + apply Forall_app. split; [|by repeat constructor].
      eapply Forall_impl; [exact HB|]. intros g. by apply AtLevel_mono.
  - intros g gs Hp Hlen. apply elem_of_union. right. by eapply Hcompl.
  - intros g gs Hp [Hk%elem_of_singleton|Hk]%elem_of_union Hq Hne.
    + exfalso. apply Hq. apply elem_of_app. right. apply list_elem_of_singleton.
      destruct (AtLevel_Path _ _ _ Hng) as [gs' Hp'].
      by eapply Path_key_inj.
    + destruct (Hexp g gs Hp Hk) as [Hg Hsucc]; [|done|].
      { intros Hin. apply Hq. apply elem_of_app. by left. }
      split; [done|]. intros g' Hg'. apply elem_of_union. right. by apply Hsucc.
Qed.

Lemma bfs_fold h d A :
  ∀ nexts seen parent q,
    (∀ ng, ng ∈ nexts → ng ∈ moveGen h) →
    BfsMid start h d A seen parent q →
    ∃ seen' parent' q',
      foldl (bfsPush (serializeGrid h)) (seen, parent, q) nexts = (seen', parent', q') ∧
      BfsMid start h d A seen' parent' q' ∧ seen ⊆ seen' ∧
      ∀ ng, ng ∈ nexts → serializeGrid ng ∈ seen'.
Proof.
  induction nexts as [|ng nexts IH]; intros seen parent q Hin Hmid.
  - eexists _, _, _. split; [done|]. split; [done|]. split; [done|].
    intros ng Hng. by apply elem_of_nil in Hng.
  - cbn [foldl].
    destruct (bfsPush_mid h d A seen parent q ng Hmid)
      as (s1 & p1 & q1 & -> & Hmid1 & Hsub1 & Hng1).
    { apply Hin. left. }
    destruct (IH s1 p1 q1) as (s2 & p2 & q2 & Hfold & Hmid2 & Hsub2 & Hall); [|done|].
    { intros ng' Hng'. apply Hin. by right. }
    eexists _, _, _. split; [done|]. split; [done|]. split; [set_solver|].
    intros ng' [->|Hng']%elem_of_cons; [set_solver|by apply Hall].
Qed.

Lemma bfsStep_inv maxNodes st st' :
  BfsInv start maxNodes st → bfsStep (findCell start DOCK) maxNodes st = inl st' →
  BfsInv start maxNodes st' ∧ (bfsMeasure maxNodes st' < bfsMeasure maxNodes st)%nat.
Proof.
  intros [Hn Hseen Htree (d & A & B & Hq & HAB & HA & HB & Hcompl) Hexp].
  unfold bfsStep, bfsMeasure.
  destruct (b_q st) as [|h rest] eqn:Hbq; [done|].
  destruct (goalTest h (findCell start DOCK)) eqn:Hgoal; [done|].
  destruct (maxNodes <? S (b_nodes st))%nat eqn:Hc; [done|].
  apply Nat.ltb_ge in Hc.
  destruct A as [|h' A']; [by rewrite HAB in Hq|].
  simpl in Hq. injection Hq as <- ->.
  apply Forall_cons in HA as [Hh HA'].
  assert (BfsMid start h d A' (b_seen st) (b_parent st) (A' ++ B)) as Hmid.
  { split; try done.
    - destruct Hh as (gs & Hl & Hlen & Hs).
      pose proof (Link_key _ _ _ Hl) as Hk. apply Hseen in Hk.
      destruct (Htree _ Hk) as (g' & d' & Hg' & Hat' & Hle).
      destruct (AtLevel_Path _ _ _ Hat') as [gs' Hp'].
      assert (g' = h) as -> by (eapply Path_key_inj; eauto using Link_Path).
      assert (d' = d) as ->; [|done].
      eapply AtLevel_unique; [exact Hat'|]. exists gs. eauto.
    - eauto.
    - intros g gs Hp Hk Hq Hne. eapply Hexp; [done|done|].
      intros [->|Hin]%elem_of_cons; done. }
  destruct (bfs_fold h d A' (moveGen h) (b_seen st) (b_parent st) (A' ++ B))
    as (seen' & parent' & q' & Hfold & Hmid' & Hsub & Hall); [done|done|].
  rewrite Hfold. intros [= <-]. simpl. split; [|lia].
  destruct Hmid' as [Hseen' Htree' Hh' Hsize' (B' & -> & HA'' & HB') Hcompl' Hexp'].
  assert (Hexp2 : ∀ g gs, Path start g gs → serializeGrid g ∈ seen' → g ∉ A' ++ B' →
      goalTest g (findCell start DOCK) = false ∧
      ∀ g', g' ∈ moveGen g → serializeGrid g' ∈ seen').
  { intros g gs Hp Hk Hq. destruct (decide (g = h)) as [->|Hne]; [by split|].
    by eapply Hexp'. }
  split; simpl.
  - lia.
  - done.
  - done.
  - destruct A' as [|a A'].
    + exists (S d), B', []. rewrite app_nil_r. simpl.
      split; [done|]. split; [done|]. split; [done|]. split; [done|].
      intros g gs Hp Hlen.
      destruct (decide (length gs ≤ S d)%nat) as [Hle|Hgt]; [by eapply Hcompl'|].
      destruct (Path_inv_snoc _ _ _ Hp) as [[-> ->]|(g0 & gs0 & -> & Hp0 & Hm)].
      { simpl in Hgt. lia. }
      rewrite length_app in Hlen, Hgt. simpl in Hlen, Hgt.
      assert (serializeGrid g0 ∈ seen') as Hk0 by (eapply Hcompl'; [done|lia]).
      destruct (Hexp2 g0 gs0 Hp0 Hk0) as [_ Hsucc]; [|by apply Hsucc].
      simpl. intros Hin. eapply Forall_forall in HB'; [|exact Hin].
      destruct HB' as (gs1 & Hl1 & Hlen1 & Hs1). specialize (Hs1 gs0 Hp0). lia.
    + exists d, (a :: A'), B'. split; [done|]. split; [done|]. done.
  - done.
Qed.

Lemma BfsInv_init maxNodes : BfsInv start maxNodes (bfsInit start).
Proof.
  assert (AtLevel start {[serializeGrid start := None]} 0 start) as H0.
  { exists [start]. split; [|split; [done|]].
    - apply Link_root. apply lookup_singleton_eq.
    - intros gs' Hp'. apply Path_length in Hp'. simpl. lia. }
  split; simpl.
  - lia.
  - intros k. rewrite elem_of_singleton. split.
    + intros ->. rewrite lookup_singleton_eq. done.
    + intros [v [-> _]%lookup_singleton_Some]. done.
  - intros k ->%elem_of_singleton. exists start, 0%nat.
    split; [done|]. split; [done|]. by rewrite map_size_singleton.
  - exists 0%nat, [start], []. split; [done|]. split; [done|].
    split; [by repeat constructor|]. split; [done|].
    intros g gs Hp Hlen. apply elem_of_singleton.
    destruct (Path_inv_snoc _ _ _ Hp) as [[-> ->]|(g0 & gs0 & -> & Hp0 & Hm)]; [done|].
    apply Path_length in Hp0. rewrite length_app in Hlen. simpl in Hlen. lia.
  - intros g gs Hp Hk%elem_of_singleton Hq. exfalso. apply Hq.
    apply list_elem_of_singleton. eapply Path_key_inj; [done|constructor|done].
Qed.

Lemma bfsRun_terminates maxNodes : is_Some (bfsRun start maxNodes).
Proof.
  unfold bfsRun.
  apply (runLoop_terminates _ (BfsInv start maxNodes) (bfsMeasure maxNodes)).
  - intros s s'. apply bfsStep_inv.
  - apply BfsInv_init.
  - unfold bfsMeasure. simpl. lia.
Qed.

Lemma bfsRun_exit maxNodes e :
  bfsRun start maxNodes = Some e →
  ∃ s, BfsInv start maxNodes s ∧ bfsStep (findCell start DOCK) maxNodes s = inr e.
Proof.
  unfold bfsRun. apply runLoop_inv.
  - intros s s' Hs Hstep. by eapply bfsStep_inv.
  - apply BfsInv_init.
Qed.
End bfs_engine.

Section found_lemmas.
Context (start : Grid).
Implicit Types (g : Grid) (gs : list Grid).

(** [isGoal] never holds: the cell [findCell] reports for the probe holds
    [PROBE], the one it reports for the dock holds [DOCK]. *)
Lemma isGoal_false g : isGoal g = false.
Proof.
  unfold isGoal.
  destruct (findCell g PROBE) as [p|] eqn:Hp; [|done].
  destruct (findCell g DOCK) as [d|] eqn:Hd; [|done].
  apply findCell_Some in Hp as [Hp _]. apply findCell_Some in Hd as [Hd _].
  apply andb_false_iff.
  destruct (decide (posR p = posR d)) as [Er|]; [|left; by apply bool_decide_eq_false].
  destruct (decide (posC p = posC d)) as [Ec|]; [|right; by apply bool_decide_eq_false].
  rewrite Er, Ec in Hp. congruence.
Qed.

Lemma goalTest_isAtDock g dockPos : goalTest g dockPos = isAtDock g dockPos.
Proof. unfold goalTest. by rewrite isGoal_false. Qed.

Lemma reparse_shape n m g :
  g ≠ [] → (n ≤ length g)%nat → reparse n m g = fixRow <$> g.
Proof.
  intros Hne Hn. unfold reparse, deserializeGrid. rewrite split_rows by done.
  rewrite <-list_fmap_compose, !length_fmap.
  replace (n - length g)%nat with 0%nat by lia. simpl.
  rewrite app_nil_r. apply list_fmap_ext. intros _ row _. apply parse_row.
Qed.

Lemma isAtDock_reparse n m g dockPos :
  (n ≤ length g)%nat → isAtDock g dockPos = true →
  isAtDock (reparse n m g) dockPos = true.
Proof.
  intros Hn Hat. unfold isAtDock in *. destruct dockPos as [d|]; [|done].
  destruct (findCell g PROBE) as [p|] eqn:Hp; [|done].
  pose proof (findCell_width _ _ _ Hp) as Hw.
  rewrite reparse_shape; [|by destruct g|done].
  by rewrite findCell_fixRow, Hp.
Qed.

Lemma isAtDock_start_false dockPos :
  findCell start DOCK = Some dockPos → isAtDock start (Some dockPos) = false.
Proof.
  intros [Hd _]%findCell_Some. unfold isAtDock.
  destruct (findCell start PROBE) as [p|] eqn:Hp; [|done].
  apply findCell_Some in Hp as [Hp _].
  apply andb_false_iff.
  destruct (decide (posR p = posR dockPos)) as [Er|]; [|left; by apply bool_decide_eq_false].
  destruct (decide (posC p = posC dockPos)) as [Ec|]; [|right; by apply bool_decide_eq_false].
  rewrite Er, Ec in Hp. congruence.
Qed.

(** What a [Found] exit of each engine returns. *)
Lemma dfs_found maxNodes key st :
  is_Some (findCell start PROBE) →
  dfsRun start maxNodes = Some (Found key st) →
  ∃ g gs, Link start (d_parent st) g gs ∧
          goalTest g (findCell start DOCK) = true ∧
          dfsFinish start (Found key st) =
            Some (mkResult (Some (reparse (length start) (width start) <$> gs))
                           (d_nodes st) (d_visited st)).
Proof.
  intros Hprobe (s & (Hok & HF & Hn) & Hstep)%dfsRun_exit.
  unfold dfsStep in Hstep.
  destruct (d_stack s) as [|[grid par] rest] eqn:Hstack; [done|].
  rewrite fmap_cons in HF. simpl in HF. apply Frontier_cons in HF as [[[gs0 Hp] Hkey] HF].
  case_decide as Hseen; [done|].
  destruct (goalTest grid (findCell start DOCK)) eqn:Hgoal.
  2:{ destruct (maxNodes <? S (d_nodes s))%nat; [done|].
      by destruct (foldl _ _ _). }
  injection Hstep as <- <-.
  destruct (ParentOk_linked start _ grid gs0 Hok Hp Hkey) as (gs & Hl & Hlen).
  exists grid, gs. split; [done|]. split; [done|]. simpl.
  rewrite (walkParentsDfs_Link start _ _ _ grid gs); [by rewrite app_nil_r| done | | done].
  eapply Path_keys_nonempty; [done|]. by eapply Link_Path.
Qed.

Lemma best_found dockPos maxNodes key st :
  bestRun dockPos start maxNodes = Some (Found key st) →
  ∃ g gs, Link start (f_parent st) g gs ∧
          goalTest g (Some dockPos) = true ∧
          bestFinish start (Found key st) =
            Some (mkResult (Some (reparse (length start) (width start) <$> gs))
                           (f_nodes st) (f_visited st)).
Proof.
  intros (s & (Hok & HF & Hn) & Hstep)%bestRun_exit.
  unfold bestStep in Hstep.
  destruct (f_pq s) as [|[grid sc] rest] eqn:Hpq; [done|].
  rewrite fmap_cons in HF. simpl in HF. apply Frontier_cons in HF as [[[gs0 Hp] Hkey] HF].
  case_decide as Hseen; [done|].
  destruct (goalTest grid (Some dockPos)) eqn:Hgoal.
  2:{ destruct (maxNodes <? S (f_nodes s))%nat; [done|].
      by destruct (foldl _ _ _). }
  injection Hstep as <- <-.
  destruct (ParentOk_linked start _ grid gs0 Hok Hp Hkey) as (gs & Hl & Hlen).
  exists grid, gs. split; [done|]. split; [done|]. simpl.
  by rewrite (walkParents_Link start _ _ _ grid gs), app_nil_r.
Qed.

Lemma bfs_found maxNodes key st :
  bfsRun start maxNodes = Some (Found key st) →
  ∃ g gs, Link start (b_parent st) g gs ∧
          goalTest g (findCell start DOCK) = true ∧
          (∀ gs', Solution start gs' → (length gs ≤ length gs')%nat) ∧
          bfsFinish start (Found key st) =
            Some (mkResult (Some (reparse (length start) (width start) <$> gs))
                           (b_nodes st) (b_visited st)).
Proof.
  intros (s & [Hn Hseen Htree (d & A & B & Hq & HAB & HA & HB & Hcompl) Hexp] & Hstep)%bfsRun_exit.
  unfold bfsStep in Hstep.
  destruct (b_q s) as [|h rest] eqn:Hbq; [done|].
  destruct (goalTest h (findCell start DOCK)) eqn:Hgoal.
  2:{ destruct (maxNodes <? S (b_nodes s))%nat; [done|].
      by destruct (foldl _ _ _) as [[? ?] ?]. }
  injection Hstep as <- <-.
  destruct A as [|h' A']; [by rewrite HAB in Hq|].
  simpl in Hq. injection Hq as <- ->.
  pose proof HA as [Hh HA']%Forall_cons.
  pose proof Hh as (gs & Hl & Hlen & Hs).
  assert (S d ≤ size (b_parent s))%nat as Hsize.
  { pose proof (Link_key _ _ _ _ Hl) as Hk. apply Hseen in Hk.
    destruct (Htree _ Hk) as (g' & d' & Hg' & Hat' & Hle).
    destruct (AtLevel_Path _ _ _ _ Hat') as [gs' Hp'].
    assert (g' = h) as -> by (eapply Path_key_inj; eauto using Link_Path).
    by rewrite (AtLevel_unique _ _ _ _ _ Hh Hat'). }
  exists h, gs. split; [done|]. split; [done|]. split.
  - intros gs' (g' & Hp' & Hg').
    destruct (decide (length gs ≤ length gs')%nat) as [|Hlt]; [done|exfalso].
    assert (serializeGrid g' ∈ b_seen s) as Hk' by (eapply Hcompl; [done|lia]).
    destruct (Hexp g' gs' Hp' Hk') as [Hng _]; [|congruence].
    intros Hin.
    assert (∃ d', AtLevel start (b_parent s) d' g' ∧ (d ≤ d')%nat) as (d' & Hat & Hd).
    { apply elem_of_cons in Hin as [->|Hin]; [by exists d|].
      apply elem_of_app in Hin as [Hin|Hin].
      - exists d. split; [|done]. by eapply Forall_forall in HA'.
      - exists (S d). split; [|lia]. by eapply Forall_forall in HB. }
    destruct Hat as (gs1 & Hl1 & Hlen1 & Hs1). specialize (Hs1 gs' Hp'). lia.
  - simpl. rewrite (walkParents_Link start _ _ _ h gs); [by rewrite app_nil_r|done|lia].
Qed.
End found_lemmas.

Section engine_claims.
Implicit Types (start g : Grid) (gs p : list Grid) (res : SearchResult).

(** A returned path is a solution, read back from its keys. *)
Lemma dfsSolve_path start maxNodes res p :
  dfsSolve start maxNodes = Some res → path res = Some p →
  ∃ gs, Solution start gs ∧ p = reparse (length start) (width start) <$> gs.
Proof.
  unfold dfsSolve.
  destruct (findCell start DOCK) as [dock|] eqn:Hd; [|by intros [= <-]].
  destruct (findCell start PROBE) as [probe|] eqn:Hp; [|by intros [= <-]].
  destruct (dfsRun start maxNodes) as [[key st|st|st]|] eqn:Hrun;
    cbn [mbind option_bind]; try done.
  - destruct (dfs_found start maxNodes key st) as (g & gs & Hl & Hg & Hfin);
      [by rewrite Hp|done|].
    rewrite Hfin. intros [= <-] [= <-]. exists gs. split; [|done].
    exists g. eauto using Link_Path.
  - by intros [= <-].
  - by intros [= <-].
Qed.

Lemma bestFirstSolve_path start maxNodes res p :
  bestFirstSolve start maxNodes = Some res → path res = Some p →
  ∃ gs, Solution start gs ∧ p = reparse (length start) (width start) <$> gs.
Proof.
  unfold bestFirstSolve.
  destruct (findCell start DOCK) as [dock|] eqn:Hd; [|by intros [= <-]].
  destruct (bestRun dock start maxNodes) as [[key st|st|st]|] eqn:Hrun;
    cbn [mbind option_bind]; try done.
  - destruct (best_found start dock maxNodes key st) as (g & gs & Hl & Hg & Hfin); [done|].
    rewrite Hfin. intros [= <-] [= <-]. exists gs. split; [|done].
    exists g. rewrite Hd. eauto using Link_Path.
  - by intros [= <-].
  - by intros [= <-].
Qed.

Lemma bfsSolve_path start maxNodes res p :
  bfsSolve start maxNodes = Some res → path res = Some p →
  ∃ gs, Solution start gs ∧ p = reparse (length start) (width start) <$> gs ∧
        ∀ gs', Solution start gs' → (length gs ≤ length gs')%nat.
Proof.
  unfold bfsSolve.
  destruct (findCell start DOCK) as [dock|] eqn:Hd; [|by intros [= <-]].
  destruct (findCell start PROBE) as [probe|] eqn:Hp; [|by intros [= <-]].
  destruct (bfsRun start maxNodes) as [[key st|st|st]|] eqn:Hrun;
    cbn [mbind option_bind]; try done.
  - destruct (bfs_found start maxNodes key st) as (g & gs & Hl & Hg & Hmin & Hfin); [done|].
    rewrite Hfin. intros [= <-] [= <-]. exists gs. split; [|split; [done|]].
    + exists g. eauto using Link_Path.
    + done.
  - by intros [= <-].
  - by intros [= <-].
Qed.

(** C1.  A path returned by [bfsSolve] is a solution with the least number
    of configurations, hence of probe actions, among all solutions that
    [moveGen] steps from the start reach; in particular it is no longer
    than any path [dfsSolve] or [bestFirstSolve] return for the same
    start, whatever their ceilings. *)
Theorem bfsSolve_shortest start maxNodes res p :
  bfsSolve start maxNodes = Some res → path res = Some p →
  (∃ gs, Solution start gs ∧ p = reparse (length start) (width start) <$> gs) ∧
  (∀ gs', Solution start gs' → (length p ≤ length gs')%nat) ∧
  (∀ maxNodes' res' p',
     dfsSolve start maxNodes' = Some res' ∨ bestFirstSolve start maxNodes' = Some res' →
     path res' = Some p' → (length p ≤ length p')%nat).
Proof.
  intros Hsolve Hpath.
  destruct (bfsSolve_path _ _ _ _ Hsolve Hpath) as (gs & Hsol & -> & Hmin).
  split; [eauto|]. split.
  - intros gs' Hsol'. rewrite length_fmap. by apply Hmin.
  - intros m res' p' [Hdfs|Hbest] Hpath'.
    + destruct (dfsSolve_path _ _ _ _ Hdfs Hpath') as (gs' & Hsol' & ->).
      rewrite !length_fmap. by apply Hmin.
    + destruct (bestFirstSolve_path _ _ _ _ Hbest Hpath') as (gs' & Hsol' & ->).
      rewrite !length_fmap. by apply Hmin.
Qed.

Lemma bfsSolve_shortest_witness :
  (∃ gs, Solution [[PROBE; DOCK]] gs ∧
         [ [[PROBE; DOCK]]; [[EMPTY; PROBE]] ] = reparse 1 2 <$> gs) ∧
  (∀ gs', Solution [[PROBE; DOCK]] gs' → (2 ≤ length gs')%nat).
Proof.
  destruct (bfsSolve_shortest [[PROBE; DOCK]] 10
              (mkResult (Some [ [[PROBE; DOCK]]; [[EMPTY; PROBE]] ]) 2
                        [mkPos 0 0; mkPos 0 1])
              [ [[PROBE; DOCK]]; [[EMPTY; PROBE]] ]) as (H1 & H2 & _).
  - vm_compute. reflexivity.
  - reflexivity.
  - split; [exact H1|exact H2].
Defined.

(** C10.  When a call leaves its loop by the ceiling [break], the result
    has no path and its count of expanded states is [maxNodes + 1]: the
    counter is incremented before it is compared with the ceiling. *)
Theorem ceiling_count start maxNodes res :
  (dfsCeiling start maxNodes ∧ dfsSolve start maxNodes = Some res) ∨
  (bfsCeiling start maxNodes ∧ bfsSolve start maxNodes = Some res) ∨
  (bestCeiling start maxNodes ∧ bestFirstSolve start maxNodes = Some res) →
  path res = None ∧ nodesExpanded res = S maxNodes.
Proof.
  intros [[(Hd & Hp & st & Hrun) Hsolve]|[[(Hd & Hp & st & Hrun) Hsolve]|
          [(dock & st & Hd & Hrun) Hsolve]]].
  - unfold dfsSolve in Hsolve. destruct Hd as [dock Hd], Hp as [probe Hp].
    rewrite Hd, Hp, Hrun in Hsolve. injection Hsolve as <-. split; [done|]. simpl.
    apply dfsRun_exit in Hrun as (s & (_ & _ & Hn) & Hstep).
    unfold dfsStep in Hstep.
    destruct (d_stack s) as [|[grid par] rest]; [done|].
    case_decide; [done|]. destruct (goalTest _ _); [done|].
    destruct (maxNodes <? S (d_nodes s))%nat eqn:Hc.
    + injection Hstep as <-. simpl. apply Nat.ltb_lt in Hc. lia.
    + by destruct (foldl _ _ _).
  - unfold bfsSolve in Hsolve. destruct Hd as [dock Hd], Hp as [probe Hp].
    rewrite Hd, Hp, Hrun in Hsolve. injection Hsolve as <-. split; [done|]. simpl.
    apply bfsRun_exit in Hrun as (s & [Hn _ _ _ _] & Hstep).
    unfold bfsStep in Hstep.
    destruct (b_q s) as [|h rest]; [done|].
    destruct (goalTest _ _); [done|].
    destruct (maxNodes <? S (b_nodes s))%nat eqn:Hc.
    + injection Hstep as <-. simpl. apply Nat.ltb_lt in Hc. lia.
    + by destruct (foldl _ _ _) as [[? ?] ?].
  - unfold bestFirstSolve in Hsolve. rewrite Hd, Hrun in Hsolve.
    injection Hsolve as <-. split; [done|]. simpl.
    apply bestRun_exit in Hrun as (s & (_ & _ & Hn) & Hstep).
    unfold bestStep in Hstep.
    destruct (f_pq s) as [|[grid sc] rest]; [done|].
    case_decide; [done|]. destruct (goalTest _ _); [done|].
    destruct (maxNodes <? S (f_nodes s))%nat eqn:Hc.
    + injection Hstep as <-. simpl. apply Nat.ltb_lt in Hc. lia.
    + by destruct (foldl _ _ _).
Qed.

Lemma ceiling_count_witness :
  path (mkResult None 4
          [mkPos 1 1; mkPos 2 1; mkPos 1 2; mkPos 3 1]) = None ∧
  nodesExpanded (mkResult None 4
          [mkPos 1 1; mkPos 2 1; mkPos 1 2; mkPos 3 1]) = 4%nat.
Proof.
  apply (ceiling_count grid5 3). right. left. split.
  - split; [by eexists|]. split; [by eexists|]. eexists. vm_compute. reflexivity.
  - vm_compute. reflexivity.
Defined.
End engine_claims.

Section start_and_goal_claims.
Implicit Types (start g : Grid) (gs p : list Grid) (res : SearchResult).

(** Counterexample to C5 as stated: a start with two [DOCK] cells lacks a
    unique dock, yet the search runs and returns a path after two
    expansions. *)
Lemma two_docks_are_searched :
  countCell [[PROBE; DOCK; DOCK]] DOCK ≠ 1%nat ∧
  ∃ res, bfsSolve [[PROBE; DOCK; DOCK]] 10 = Some res ∧
         path res ≠ None ∧ nodesExpanded res ≠ 0%nat.
Proof.
  split; [by vm_compute|].
  exists (mkResult (Some [ [[PROBE; DOCK; DOCK]]; [[EMPTY; PROBE; DOCK]] ]) 2
                   [mkPos 0 0; mkPos 0 1]).
  split; [by vm_compute|]. split; simpl; congruence.
Qed.

(** C5, amended.  When [findCell] finds no [PROBE] or no [DOCK] in the
    start (in particular when the grid holds none), each engine returns at
    once a result without path, with zero expanded states and no visited
    position: [dfsSolve] and [bfsSolve] by their guard, [bestFirstSolve] by
    its guard on the dock or, without a probe, because its frontier is
    empty when the loop is first tested. *)
Theorem malformed_start start maxNodes :
  findCell start PROBE = None ∨ findCell start DOCK = None →
  dfsSolve start maxNodes = Some (mkResult None 0 []) ∧
  bfsSolve start maxNodes = Some (mkResult None 0 []) ∧
  bestFirstSolve start maxNodes = Some (mkResult None 0 []) ∧
  (findCell start PROBE = None →
   ∀ dockPos, f_pq (bestInit dockPos start) = [] ∧
              bestRun dockPos start maxNodes =
                Some (Exhausted (bestInit dockPos start))).
Proof.
  assert (Hbest : findCell start PROBE = None →
     ∀ dockPos, f_pq (bestInit dockPos start) = [] ∧
                bestRun dockPos start maxNodes =
                  Some (Exhausted (bestInit dockPos start))).
  { intros Hp dockPos.
    assert (f_pq (bestInit dockPos start) = []) as Hpq.
    { unfold bestInit, pushPQ. by rewrite Hp. }
    split; [done|]. unfold bestRun, lazyFuel.
    replace (5 * maxNodes + 8)%nat with (S (5 * maxNodes + 7)) by lia.
    cbn [runLoop]. unfold bestStep. by rewrite Hpq. }
  intros Hmiss. split; [|split; [|split; [|done]]].
  - unfold dfsSolve. destruct Hmiss as [-> | ->]; [|done].
    by destruct (findCell start DOCK).
  - unfold bfsSolve. destruct Hmiss as [-> | ->]; [|done].
    by destruct (findCell start DOCK).
  - unfold bestFirstSolve.
    destruct (findCell start DOCK) as [dock|] eqn:Hd; [|done].
    destruct Hmiss as [Hp|]; [|done].
    destruct (Hbest Hp dock) as [_ ->]. simpl. unfold bestInit. done.
Qed.

Lemma malformed_start_witness :
  dfsSolve [[PROBE; EMPTY]] 10 = Some (mkResult None 0 []) ∧
  bfsSolve [[PROBE; EMPTY]] 10 = Some (mkResult None 0 []) ∧
  bestFirstSolve [[PROBE; EMPTY]] 10 = Some (mkResult None 0 []).
Proof.
  destruct (malformed_start [[PROBE; EMPTY]] 10) as (H1 & H2 & H3 & _).
  - right. reflexivity.
  - split; [exact H1|]. split; [exact H2|exact H3].
Defined.

Lemma countCell_zero_malformed start :
  countCell start PROBE = 0%nat ∨ countCell start DOCK = 0%nat →
  findCell start PROBE = None ∨ findCell start DOCK = None.
Proof. intros [H|H]; [left|right]; by apply countCell_zero_findCell. Qed.

Lemma isAtDock_reparse_eq n m g dockPos :
  (0 < width g)%nat → (n ≤ length g)%nat →
  isAtDock (reparse n m g) dockPos = isAtDock g dockPos.
Proof.
  intros Hw Hn. unfold isAtDock. destruct dockPos as [d|]; [|done].
  rewrite reparse_shape; [|intros ->; simpl in Hw; lia|done].
  by rewrite findCell_fixRow.
Qed.

(** Counterexample to C7 as stated: [isGoal] is false on the last element
    of a returned path. *)
Lemma isGoal_false_on_last :
  ∃ res p final,
    bfsSolve [[PROBE; DOCK]] 10 = Some res ∧ path res = Some p ∧
    last p = Some final ∧ isGoal final = false.
Proof.
  exists (mkResult (Some [ [[PROBE; DOCK]]; [[EMPTY; PROBE]] ]) 2
                   [mkPos 0 0; mkPos 0 1]),
         [ [[PROBE; DOCK]]; [[EMPTY; PROBE]] ], [[EMPTY; PROBE]].
  split; [by vm_compute|]. split; [done|]. split; [done|]. by vm_compute.
Qed.

(** C7, amended.  On the first and on the last element of a path returned
    by any of the three engines [isGoal] is false, as it is on every grid:
    the probe's cell holds [PROBE], not [DOCK].  The test the engines
    decide on is [isAtDock] against the dock position recorded from the
    start: it is false on the first element and true on the last. *)
Theorem path_ends start maxNodes res p :
  dfsSolve start maxNodes = Some res ∨ bfsSolve start maxNodes = Some res ∨
  bestFirstSolve start maxNodes = Some res →
  path res = Some p →
  ∃ first final,
    head p = Some first ∧ last p = Some final ∧
    isGoal first = false ∧ isGoal final = false ∧
    isAtDock first (findCell start DOCK) = false ∧
    isAtDock final (findCell start DOCK) = true.
Proof.
  intros Hsolve Hpath.
  assert (∃ gs, Solution start gs ∧ p = reparse (length start) (width start) <$> gs)
    as (gs & (g & Hp & Hg) & ->).
  { destruct Hsolve as [H|[H|H]].
    - by eapply dfsSolve_path.
    - destruct (bfsSolve_path _ _ _ _ H Hpath) as (gs & ? & ? & _). eauto.
    - by eapply bestFirstSolve_path. }
  rewrite goalTest_isAtDock in Hg.
  destruct (findCell start DOCK) as [dock|] eqn:Hd; [|done].
  pose proof (findCell_width _ _ _ Hd) as Hw.
  pose proof (Path_shape _ _ _ Hp) as Hshape.
  exists (reparse (length start) (width start) start),
         (reparse (length start) (width start) g).
  split.
  { pose proof (Path_head _ _ _ Hp) as Hh. destruct gs; [done|].
    simpl in Hh. injection Hh as ->. done. }
  split; [by rewrite fmap_last, (Path_last _ _ _ Hp)|].
  split; [apply isGoal_false|]. split; [apply isGoal_false|]. split.
  - rewrite isAtDock_reparse_eq by (done || lia). by apply isAtDock_start_false.
  - rewrite isAtDock_reparse_eq; [done| |].
    + by rewrite (shape_width _ _ Hshape).
    + by rewrite (shape_length _ _ Hshape).
Qed.

Lemma path_ends_witness :
  ∃ first final,
    head [ [[PROBE; DOCK]]; [[EMPTY; PROBE]] ] = Some first ∧
    last [ [[PROBE; DOCK]]; [[EMPTY; PROBE]] ] = Some final ∧
    isGoal first = false ∧ isGoal final = false ∧
    isAtDock first (findCell [[PROBE; DOCK]] DOCK) = false ∧
    isAtDock final (findCell [[PROBE; DOCK]] DOCK) = true.
Proof.
  apply (path_ends [[PROBE; DOCK]] 10
           (mkResult (Some [ [[PROBE; DOCK]]; [[EMPTY; PROBE]] ]) 2
                     [mkPos 0 0; mkPos 0 1])).
  - right. left. vm_compute. reflexivity.
  - reflexivity.
Defined.
End start_and_goal_claims.

Section reachable_claims.
Implicit Types (start g : Grid) (gs : list Grid).

(** A push never lands on a [DOCK] cell and the probe may step onto one: a
    cell holding [DOCK] holds [DOCK] or [PROBE] in every successor. *)
Lemma moveGen_dock_cell g g' r c :
  g' ∈ moveGen g → cellAt g r c = Some DOCK →
  cellAt g' r c = Some DOCK ∨ cellAt g' r c = Some PROBE.
Proof.
  intros (probe & d & Hf & Hd & Hm)%elem_of_moveGen Hdock.
  pose proof Hf as [Hp _]%findCell_Some.
  apply moveDir_Some_inv in Hm. cbv zeta in Hm.
  destruct Hm as (Hb & [[Hn ->]|(k & Hk & Hrun & Hbl & Hland & ->)]).
  - destruct (step_cells g probe d Hd Hp) as (Ca & Cb & Cc).
    { destruct Hn as [-> | ->]; done. }
    destruct (decide (r = posR probe + dr d ∧ c = posC probe + dc d)) as [[-> ->]|Hne].
    { by right. }
    left. rewrite Cc; [done| |done]. intros [-> ->]. congruence.
  - assert (Hrun' : ∀ i : nat, (1 ≤ i ≤ k)%nat →
              cellAt g (lineR probe d i) (lineC probe d i) = Some AST).
    { intros i Hi. destruct i as [|j]; [lia|].
      destruct (Hrun j ltac:(lia)) as [_ Ha].
      replace (lineR probe d (S j)) with (posR probe + dr d + Z.of_nat j * dr d)
        by (unfold lineR; lia).
      replace (lineC probe d (S j)) with (posC probe + dc d + Z.of_nat j * dc d)
        by (unfold lineC; lia).
      done. }
    assert (Hland' : cellAt g (lineR probe d (S k)) (lineC probe d (S k)) = Some EMPTY).
    { replace (lineR probe d (S k)) with (posR probe + dr d + Z.of_nat k * dr d)
        by (unfold lineR; lia).
      replace (lineC probe d (S k)) with (posC probe + dc d + Z.of_nat k * dc d)
        by (unfold lineC; lia).
      done. }
    destruct (push_cells g probe d k Hd Hp Hrun' Hland') as (_ & _ & _ & Pd).
    replace (posR probe + dr d) with (lineR probe d 1%nat) by (unfold lineR; simpl; lia).
    replace (posC probe + dc d) with (lineC probe d 1%nat) by (unfold lineC; simpl; lia).
    left. rewrite Pd; [done|].
    intros i Hi [-> ->].
    destruct (decide (i = 0%nat)) as [->|Hi0].
    { replace (lineR probe d 0%nat) with (posR probe) in Hdock by (unfold lineR; simpl; lia).
      replace (lineC probe d 0%nat) with (posC probe) in Hdock by (unfold lineC; simpl; lia).
      congruence. }
    destruct (decide (i = S k)) as [->|Hik]; [congruence|].
    rewrite Hrun' in Hdock by lia. congruence.
Qed.

Lemma Path_one_probe start g gs :
  countCell start PROBE = 1%nat → Path start g gs → countCell g PROBE = 1%nat.
Proof.
  intros H1. induction 1 as [|g g' gs Hp IH Hm]; [done|].
  by eapply moveGen_conserves.
Qed.

Lemma Explored_Path start dockPos g :
  Explored start dockPos g → ∃ gs, Path start g gs.
Proof.
  induction 1 as [|g g' He [gs IH] Hn Hm].
  - exists [start]. constructor.
  - exists (gs ++ [g']). by econstructor.
Qed.

(** Counterexample to C6 as stated: once the probe has stepped onto the
    dock and left it, the cell is [EMPTY] and an asteroid can be pushed
    onto the recorded dock position. *)
Lemma asteroid_reaches_dock_position :
  let start := [ [PROBE; DOCK; AST; EMPTY]; [EMPTY; EMPTY; EMPTY; EMPTY] ] in
  countCell start PROBE = 1%nat ∧ countCell start DOCK = 1%nat ∧
  findCell start DOCK = Some (mkPos 0 1) ∧
  ∃ g gs, Path start g gs ∧ cellAt g 0 1 = Some AST.
Proof.
  intros start. split; [done|]. split; [done|]. split; [done|].
  set (g1 := [ [EMPTY; PROBE; AST; EMPTY]; [EMPTY; EMPTY; EMPTY; EMPTY] ]).
  set (g2 := [ [EMPTY; EMPTY; AST; EMPTY]; [EMPTY; PROBE; EMPTY; EMPTY] ]).
  set (g3 := [ [EMPTY; EMPTY; AST; EMPTY]; [EMPTY; EMPTY; PROBE; EMPTY] ]).
  set (g4 := [ [EMPTY; EMPTY; AST; EMPTY]; [EMPTY; EMPTY; EMPTY; PROBE] ]).
  set (g5 := [ [EMPTY; EMPTY; AST; PROBE]; [EMPTY; EMPTY; EMPTY; EMPTY] ]).
  set (g6 := [ [EMPTY; AST; PROBE; EMPTY]; [EMPTY; EMPTY; EMPTY; EMPTY] ]).
  exists g6, ((((((([start] ++ [g1]) ++ [g2]) ++ [g3]) ++ [g4]) ++ [g5]) ++ [g6])).
  split; [|done].
  apply (Path_step _ g5 g6); [|apply list_elem_of_In; vm_compute; tauto].
  apply (Path_step _ g4 g5); [|apply list_elem_of_In; vm_compute; tauto].
  apply (Path_step _ g3 g4); [|apply list_elem_of_In; vm_compute; tauto].
  apply (Path_step _ g2 g3); [|apply list_elem_of_In; vm_compute; tauto].
  apply (Path_step _ g1 g2); [|apply list_elem_of_In; vm_compute; tauto].
  apply (Path_step _ start g1); [|apply list_elem_of_In; vm_compute; tauto].
  constructor.
Qed.

(** C6, amended.  From a start with exactly one [PROBE] cell, every
    configuration reached by [moveGen] steps has exactly one [PROBE] cell.
    No step puts an asteroid on a cell holding [DOCK]; so in every
    configuration reached through configurations whose probe is not on the
    dock position recorded from the start, which are the ones the engines
    expand, that position holds [DOCK] or [PROBE], never an asteroid. *)
Theorem reachable_invariants start dockPos :
  countCell start PROBE = 1%nat → findCell start DOCK = Some dockPos →
  (∀ g gs, Path start g gs → countCell g PROBE = 1%nat) ∧
  (∀ g g' r c, g' ∈ moveGen g → cellAt g r c = Some DOCK →
               cellAt g' r c = Some DOCK ∨ cellAt g' r c = Some PROBE) ∧
  (∀ g, Explored start dockPos g →
        cellAt g (posR dockPos) (posC dockPos) = Some DOCK ∨
        cellAt g (posR dockPos) (posC dockPos) = Some PROBE).
Proof.
  intros H1 Hd. split; [|split].
  - intros g gs. by apply Path_one_probe.
  - intros g g' r c. apply moveGen_dock_cell.
  - pose proof Hd as [Hdock Hbd]%findCell_Some.
    induction 1 as [|g g' He IH Hn Hm]; [by left|].
    apply (moveGen_dock_cell g g'); [done|].
    destruct IH as [IH|IH]; [done|exfalso].
    destruct (Explored_Path _ _ _ He) as [gs Hp].
    pose proof (Path_one_probe _ _ _ H1 Hp) as Hone.
    pose proof (Path_shape _ _ _ Hp) as Hshape.
    unfold isAtDock in Hn.
    destruct (findCell g PROBE) as [p|] eqn:Hfp.
    + destruct (findCell_unique g PROBE p _ _ Hone Hfp IH) as [E1 E2].
      rewrite E1, E2 in Hn. by rewrite !bool_decide_eq_true_2 in Hn.
    + eapply (findCell_None g PROBE); [done| |exact IH].
      by rewrite (shape_inBounds _ _ _ _ Hshape).
Qed.

Lemma reachable_invariants_witness :
  countCell [[EMPTY; EMPTY; PROBE; AST; DOCK]] PROBE = 1%nat.
Proof.
  destruct (reachable_invariants [[EMPTY; PROBE; AST; EMPTY; DOCK]] (mkPos 0 4))
    as (H & _ & _).
  - reflexivity.
  - reflexivity.
  - apply (H _ ([[[EMPTY; PROBE; AST; EMPTY; DOCK]]] ++ [[[EMPTY; EMPTY; PROBE; AST; DOCK]]])).
    eapply Path_step; [constructor|]. apply list_elem_of_In. vm_compute. tauto.
Defined.
End reachable_claims.

Section heap_lemmas.
Implicit Types (h : Heap.Store) (g : Heap.GridRef) (block : Grid).

Lemma heap_load_app h block g :
  (∀ l, l ∈ g → (l < length h)%nat) → Heap.load (h ++ block) g = Heap.load h g.
Proof.
  intros Hval. unfold Heap.load. apply list_fmap_ext. intros i l Hl.
  rewrite lookup_app_l; [done|]. apply Hval. by eapply list_elem_of_lookup_2.
Qed.

Lemma heap_load_block h block :
  Heap.load (h ++ block) (seq (length h) (length block)) = block.
Proof.
  unfold Heap.load. apply list_eq. intros i. rewrite list_lookup_fmap.
  destruct (decide (i < length block)%nat) as [Hi|Hi].
  - rewrite lookup_seq_lt by done. simpl.
    rewrite lookup_app_r by lia. replace (length h + i - length h)%nat with i by lia.
    destruct (lookup_lt_is_Some_2 block i Hi) as [row ->]. done.
  - rewrite lookup_seq_ge by lia. simpl. symmetry. apply lookup_ge_None. lia.
Qed.

Lemma heap_cloneGrid h g :
  (∀ l, l ∈ g → (l < length h)%nat) →
  Heap.cloneGrid h g = (h ++ Heap.load h g, seq (length h) (length g)).
Proof.
  intros Hval. unfold Heap.cloneGrid.
  assert (∀ block ng,
    foldl (λ acc l, let '(h', l') := Heap.slice acc.1 l in (h', acc.2 ++ [l']))
          (h ++ block, ng) g =
    (h ++ block ++ Heap.load h g, ng ++ seq (length h + length block) (length g))) as Hgen.
  { induction g as [|l g IH]; intros block ng.
    - simpl. by rewrite !app_nil_r.
    - cbn [foldl]. unfold Heap.slice at 2. cbn [fst snd].
      rewrite lookup_app_l by (apply Hval; left).
      rewrite <-app_assoc. rewrite IH by (intros l' Hl'; apply Hval; by right).
      rewrite !length_app. simpl. rewrite <-!app_assoc. simpl.
      by replace (length h + (length block + 1))%nat
        with (S (length h + length block)) by lia. }
  specialize (Hgen [] []). rewrite app_nil_r in Hgen. rewrite Hgen. simpl.
  by rewrite Nat.add_0_r.
Qed.

(** Assigning through a reference to a fresh block of rows is the update
    of the value model on that block; the store in front of it is left
    alone. *)
Lemma heap_write_block h block r c v :
  Heap.write (h ++ block) (seq (length h) (length block)) r c v =
  h ++ setCell block r c v.
Proof.
  unfold Heap.write, setCell. destruct ((0 <=? r) && (0 <=? c)); [|done].
  destruct (decide (Z.to_nat r < length block)%nat) as [Hr|Hr].
  - rewrite lookup_seq_lt by done.
    apply list_eq. intros i.
    destruct (decide (i = length h + Z.to_nat r)%nat) as [->|Hne].
    + rewrite list_lookup_alter_eq, !lookup_app_r by lia.
      replace (length h + Z.to_nat r - length h)%nat with (Z.to_nat r) by lia.
      by rewrite list_lookup_alter_eq.
    + rewrite list_lookup_alter_ne by done.
      destruct (decide (i < length h)%nat) as [Hi|Hi].
      * by rewrite !lookup_app_l by done.
      * rewrite !lookup_app_r by lia. rewrite list_lookup_alter_ne by lia. done.
  - rewrite lookup_seq_ge by lia. f_equal. symmetry.
    apply list_eq. intros i. rewrite list_lookup_alter.
    case_decide as Hi; [|done]. subst i.
    rewrite (lookup_ge_None_2 block) by lia. done.
Qed.

Lemma setCell_length block r c v : length (setCell block r c v) = length block.
Proof. unfold setCell. destruct (_ && _); [|done]. apply length_alter. Qed.

Lemma shiftChain_length d chain block : length (shiftChain d chain block) = length block.
Proof.
  induction chain as [|q chain IH]; [done|].
  by rewrite shiftChain_cons, !setCell_length.
Qed.

Lemma heap_shiftChain_block h d chain block :
  Heap.shiftChain (h ++ block) (seq (length h) (length block)) d chain =
  h ++ shiftChain d chain block.
Proof.
  induction chain as [|q chain IH]; [done|].
  rewrite shiftChain_cons. unfold Heap.shiftChain in *. simpl.
  rewrite foldl_snoc, IH.
  rewrite <-(shiftChain_length d chain block) at 1 2.
  rewrite heap_write_block.
  rewrite <-(setCell_length (shiftChain d chain block) (posR q + dr d) (posC q + dc d) AST) at 1.
  by rewrite heap_write_block.
Qed.

(** One direction on the store: the store grows by the rows of the
    successor of the value model, if there is one, and is unchanged
    otherwise. *)
Lemma heap_moveDir h g probe d :
  (∀ l, l ∈ g → (l < length h)%nat) →
  Heap.moveDir h g probe d =
  match moveDir (Heap.load h g) probe d with
  | Some ng => (h ++ ng, Some (seq (length h) (length g)))
  | None => (h, None)
  end.
Proof.
  intros Hval. unfold Heap.moveDir, moveDir. cbv zeta.
  set (gv := Heap.load h g).
  assert (length gv = length g) as Hlen by (unfold gv, Heap.load; apply length_fmap).
  destruct (negb (inBounds gv _ _)); [done|].
  destruct (cellAt gv (posR probe + dr d) (posC probe + dc d)) as [[]|]; try done.
  - rewrite heap_cloneGrid by done. fold gv. rewrite cloneGrid_id.
    rewrite <-Hlen, heap_write_block.
    rewrite <-(setCell_length gv (posR probe) (posC probe) EMPTY) at 1.
    by rewrite heap_write_block.
  - destruct (scanChain _ _ _ _ _) as [chain e].
    destruct (negb (inBounds gv _ _)); [done|].
    destruct (negb (bool_decide _)); [done|].
    rewrite heap_cloneGrid by done. fold gv. rewrite cloneGrid_id.
    rewrite <-Hlen, heap_write_block.
    rewrite <-(setCell_length gv (posR probe) (posC probe) EMPTY) at 1 2.
    rewrite heap_shiftChain_block.
    rewrite <-(shiftChain_length d chain (setCell gv (posR probe) (posC probe) EMPTY)) at 1.
    by rewrite heap_write_block.
  - rewrite heap_cloneGrid by done. fold gv. rewrite cloneGrid_id.
    rewrite <-Hlen, heap_write_block.
    rewrite <-(setCell_length gv (posR probe) (posC probe) EMPTY) at 1.
    by rewrite heap_write_block.
Qed.
End heap_lemmas.

Section heap_claim.
Implicit Types (h : Heap.Store) (g : Heap.GridRef).

Lemma heap_moveGen_fold h0 g probe :
  (∀ l, l ∈ g → (l < length h0)%nat) →
  ∀ dirs fresh res,
    (∀ ng l, ng ∈ res → l ∈ ng → (length h0 ≤ l < length (h0 ++ fresh))%nat) →
    ∃ fresh' res',
      foldl (λ acc d,
               match Heap.moveDir acc.1 g probe d with
               | (h', Some ng) => (h', acc.2 ++ [ng])
               | (h', None) => (h', acc.2)
               end) (h0 ++ fresh, res) dirs = (h0 ++ fresh', res') ∧
      (∀ ng l, ng ∈ res' → l ∈ ng → (length h0 ≤ l < length (h0 ++ fresh'))%nat) ∧
      Heap.load (h0 ++ fresh') <$> res' =
        (Heap.load (h0 ++ fresh) <$> res) ++ omap (moveDir (Heap.load h0 g) probe) dirs.
Proof.
  intros Hval. induction dirs as [|d dirs IH]; intros fresh res Hres.
  - exists fresh, res. simpl. by rewrite app_nil_r.
  - cbn [foldl fst snd]. rewrite heap_moveDir.
    2:{ intros l Hl. rewrite length_app. specialize (Hval l Hl). lia. }
    rewrite heap_load_app by done. cbn [omap list_omap].
    destruct (moveDir (Heap.load h0 g) probe d) as [ng|] eqn:Hm; [|by apply IH].
    assert (length ng = length g) as Hlen.
    { apply moveDir_shape, shape_length in Hm. rewrite Hm.
      unfold Heap.load. apply length_fmap. }
    rewrite <-app_assoc.
    destruct (IH (fresh ++ ng) (res ++ [seq (length (h0 ++ fresh)) (length g)]))
      as (fresh' & res' & Hfold & Hres' & Hload).
    + intros ng' l [Hin|Hin]%elem_of_app Hl.
      * specialize (Hres ng' l Hin Hl). rewrite !length_app in *. lia.
      * apply list_elem_of_singleton in Hin. subst ng'.
        apply elem_of_seq in Hl. rewrite !length_app in *. lia.
    + exists fresh', res'. split; [done|]. split; [done|].
      rewrite Hload, fmap_app, <-app_assoc. f_equal.
      * apply list_fmap_ext. intros i ng' Hi.
        rewrite !app_assoc. apply heap_load_app.
        intros l Hl. apply list_elem_of_lookup_2 in Hi.
        by apply (Hres ng' l).
      * simpl. f_equal. rewrite app_assoc, <-Hlen. apply heap_load_block.
Qed.

(** C9.  Run on a store, [moveGen] leaves every row array that exists
    before the call as it is, so the cells of its argument [g] are the same
    after the call as before; every successor consists of row arrays
    allocated during the call, one for each row of [g], none of them a row
    of [g]; and the successors hold what the value model [moveGen]
    computes. *)
Theorem moveGen_frame h g :
  (∀ l, l ∈ g → (l < length h)%nat) →
  (∃ fresh, (Heap.moveGen h g).1 = h ++ fresh) ∧
  Heap.load (Heap.moveGen h g).1 g = Heap.load h g ∧
  (∀ ng l, ng ∈ (Heap.moveGen h g).2 → l ∈ ng → (length h ≤ l)%nat ∧ l ∉ g) ∧
  Heap.load (Heap.moveGen h g).1 <$> (Heap.moveGen h g).2 = moveGen (Heap.load h g).
Proof.
  intros Hval. unfold Heap.moveGen, moveGen.
  destruct (findCell (Heap.load h g) PROBE) as [probe|].
  2:{ simpl. split; [exists []; by rewrite app_nil_r|]. split; [done|]. split; [|done].
      intros ng l Hng. by apply elem_of_nil in Hng. }
  destruct (heap_moveGen_fold h g probe Hval DIRS [] [])
    as (fresh & res & Hfold & Hres & Hload).
  { intros ng l Hng. by apply elem_of_nil in Hng. }
  rewrite app_nil_r in Hfold. rewrite Hfold. simpl.
  split; [by exists fresh|]. split; [by apply heap_load_app|]. split; [|done].
  intros ng l Hng Hl. specialize (Hres ng l Hng Hl). split; [lia|].
  intros Hin. specialize (Hval l Hin). lia.
Qed.

Lemma moveGen_frame_witness :
  Heap.load (Heap.moveGen grid5 [0; 1; 2; 3; 4]%nat).1 [0; 1; 2; 3; 4]%nat =
  Heap.load grid5 [0; 1; 2; 3; 4]%nat.
Proof.
  destruct (moveGen_frame grid5 [0; 1; 2; 3; 4]%nat) as (_ & H & _).
  - intros l Hl. apply list_elem_of_In in Hl. simpl in *. lia.
  - exact H.
Defined.
End heap_claim.

Section fidelity_lemmas.
Implicit Types (g : Grid) (r c : Z) (v : Cell) (d : Dir).

(** On a rectangular grid the bounds test of the source accepts exactly the
    cells that exist, and [findCell] finds every value that occurs. *)
Lemma rect_inBounds g r c : rect g → is_Some (cellAt g r c) → inBounds g r c = true.
Proof.
  intros Hrect [x (Hr & Hc & row & Hrow & Hx)%cellAt_Some].
  apply inBounds_true. pose proof (lookup_lt_Some _ _ _ Hrow).
  pose proof (lookup_lt_Some _ _ _ Hx).
  eapply Forall_lookup_1 in Hrect; [|exact Hrow]. simpl in Hrect. lia.
Qed.

Lemma rect_findCell g r c v : rect g → cellAt g r c = Some v → is_Some (findCell g v).
Proof.
  intros Hrect Hc. destruct (findCell g v) as [p|] eqn:Hf; [done|exfalso].
  eapply findCell_None; [exact Hf| |exact Hc]. apply rect_inBounds; [done|]. by rewrite Hc.
Qed.

Lemma scanChain_end d g : ∀ fuel r c chain e,
  scanChain fuel g d r c = (chain, e) → (length chain < fuel)%nat →
  ¬ (inBounds g (posR e) (posC e) = true ∧ cellAt g (posR e) (posC e) = Some AST).
Proof.
  induction fuel as [|fuel IH]; intros r c chain e; simpl; [lia|].
  destruct (inBounds g r c) eqn:Hb; simpl.
  2:{ intros [= <- <-] _ [Hb' _]. simpl in Hb'. congruence. }
  case_bool_decide as Ha.
  2:{ intros [= <- <-] _ [_ Ha']. done. }
  destruct (scanChain fuel g d (r + dr d) (c + dc d)) as [chain' e'] eqn:Hs.
  intros [= <- <-] Hlen. simpl in Hlen. eapply IH; [exact Hs|lia].
Qed.

(** The fuel of the chain loop is never exhausted: the loop is left because
    its condition fails. *)
Lemma scanChain_stops d g r c :
  d ∈ DIRS →
  let e := (scanChain (chainFuel g) g d r c).2 in
  ¬ (inBounds g (posR e) (posC e) = true ∧ cellAt g (posR e) (posC e) = Some AST).
Proof.
  intros Hd. cbv zeta.
  destruct (scanChain (chainFuel g) g d r c) as [chain e] eqn:Hs. simpl.
  eapply scanChain_end; [exact Hs|].
  pose proof Hs as (_ & _ & Hrun)%scanChain_inv.
  eapply run_length_bound; [exact Hd|]. intros i Hi. by apply Hrun.
Qed.
End fidelity_lemmas.

(** ** The scenarios of the documentation *)

Example moveGen_grid5 :
  moveGen grid5 =
  [ [ [WALL; WALL;  WALL;  WALL;  WALL];
      [WALL; EMPTY; AST;   EMPTY; WALL];
      [WALL; PROBE; EMPTY; EMPTY; WALL];
      [WALL; EMPTY; EMPTY; DOCK;  WALL];
      [WALL; WALL;  WALL;  WALL;  WALL] ];
    [ [WALL; WALL;  WALL;  WALL;  WALL];
      [WALL; EMPTY; PROBE; AST;   WALL];
      [WALL; EMPTY; EMPTY; EMPTY; WALL];
      [WALL; EMPTY; EMPTY; DOCK;  WALL];
      [WALL; WALL;  WALL;  WALL;  WALL] ] ].
Proof. reflexivity. Qed.

Example bfsSolve_grid5 :
  (λ res, (length <$> path res, nodesExpanded res)) <$> bfsSolve grid5 150 =
  Some (Some 5%nat, 13%nat).
Proof. by vm_compute. Qed.

(** A run of two asteroids against the wall cannot be pushed. *)
Example moveDir_blocked_run :
  moveDir [ [WALL; PROBE; AST; AST; WALL] ] (mkPos 0 1) (mkDir 0 1 "Right") = None.
Proof. reflexivity. Qed.

Example serializeGrid_grid5 :
  serializeGrid grid5 = "1,1,1,1,1|1,3,2,0,1|1,0,0,0,1|1,0,0,4,1|1,1,1,1,1"%string ∧
  deserializeGrid (serializeGrid grid5) 5 5 = grid5.
Proof. by vm_compute. Qed.

Example heap_moveGen_grid5 :
  let g := [0; 1; 2; 3; 4]%nat in
  Heap.load (Heap.moveGen grid5 g).1 g = grid5 ∧
  (Heap.moveGen grid5 g).2 = [ [5; 6; 7; 8; 9]; [10; 11; 12; 13; 14] ]%nat.
Proof. by vm_compute. Qed.

(** ** Further properties of the core functions *)

Section key_extras.
Implicit Types (g : Grid) (row : list Cell).

(** X1.  Among grids of one shape (the same row lengths, as all the
    configurations of one search have) the key of [serializeGrid] identifies
    the grid: two grids have the same key exactly when they are equal. *)
Theorem serializeGrid_key g g' :
  length <$> g = length <$> g' →
  (serializeGrid g = serializeGrid g' ↔ g = g').
Proof.
  intros Hshape. split; [by apply serializeGrid_inj|by intros ->].
Qed.

Lemma serializeGrid_key_witness :
  serializeGrid [[PROBE; DOCK]] = serializeGrid [[EMPTY; PROBE]] ↔
  [[PROBE; DOCK]] = [[EMPTY; PROBE]].
Proof. apply (serializeGrid_key [[PROBE; DOCK]] [[EMPTY; PROBE]]). reflexivity. Defined.

(** X2.  Round trip of the keys: for a grid with at least one row and no
    empty row, [deserializeGrid] applied to its key gives the grid back,
    whatever column count is passed and for any row count up to the
    grid's. *)
Theorem deserialize_serialize g n m :
  g ≠ [] → Forall (λ row, row ≠ []) g → (n ≤ length g)%nat →
  deserializeGrid (serializeGrid g) n m = g.
Proof.
  intros Hne Hrows Hn. fold (reparse n m g). rewrite reparse_shape by done.
  rewrite <-(list_fmap_id g) at 2. apply Forall_fmap_ext_1.
  eapply Forall_impl; [exact Hrows|]. intros [|x row] H; done.
Qed.

Lemma deserialize_serialize_witness :
  deserializeGrid (serializeGrid grid5) 5 5 = grid5.
Proof.
  apply (deserialize_serialize grid5 5 5).
  - discriminate.
  - repeat constructor; discriminate.
  - simpl. lia.
Defined.

(** X3.  What [deserializeGrid] does beyond the round trip: rows are only
    added, never trimmed.  For the key of any grid with a row, the parsed
    rows come first, an empty row read back as one [EMPTY] cell, and when
    fewer than [n] rows were parsed the grid is padded to [n] rows with
    rows of [m] [EMPTY] cells. *)
Theorem deserialize_pads g n m :
  g ≠ [] →
  deserializeGrid (serializeGrid g) n m =
    (fixRow <$> g) ++ replicate (n - length g) (replicate m EMPTY) ∧
  length (deserializeGrid (serializeGrid g) n m) = (length g `max` n)%nat.
Proof.
  intros Hne.
  assert (deserializeGrid (serializeGrid g) n m =
          (fixRow <$> g) ++ replicate (n - length g) (replicate m EMPTY)) as ->.
  { unfold deserializeGrid. rewrite split_rows by done.
    rewrite <-list_fmap_compose, !length_fmap. f_equal.
    apply list_fmap_ext. intros _ row _. apply parse_row. }
  split; [done|]. rewrite length_app, length_fmap, length_replicate. lia.
Qed.

Lemma deserialize_pads_witness :
  deserializeGrid (serializeGrid [[PROBE]; []]) 3 2 =
    (fixRow <$> [[PROBE]; []]) ++ replicate (3 - 2) (replicate 2 EMPTY) ∧
  length (deserializeGrid (serializeGrid [[PROBE]; []]) 3 2) = (2 `max` 3)%nat.
Proof. apply (deserialize_pads [[PROBE]; []] 3 2). discriminate. Defined.
End key_extras.

Section findCell_extras.
Implicit Types (g : Grid) (row : list Cell) (v : Cell).

Lemma indexOf_first v row i :
  indexOf v row = Some i → ∀ j, (j < i)%nat → row !! j ≠ Some v.
Proof.
  revert i. induction row as [|y row IH]; intros i; simpl; [done|].
  case_decide as Hy; [intros [= <-]; lia|].
  destruct (indexOf v row) as [k|] eqn:Hk; simpl; [|done].
  intros [= <-] [|j] Hj; simpl; [congruence|]. apply (IH k); [done|lia].
Qed.

Lemma findRows_first w v rows n0 p :
  findRows w v rows n0 = Some p →
  ∀ i j row, rows !! i = Some row → (j < w)%nat →
    (Z.of_nat (n0 + i) < posR p ∨
     (Z.of_nat (n0 + i) = posR p ∧ Z.of_nat j < posC p)) →
    row !! j ≠ Some v.
Proof.
  revert n0. induction rows as [|row0 rows IH]; intros n0; simpl; [done|].
  destruct (indexOf v (take w row0)) as [c|] eqn:Hc.
  - intros [= <-] i j row Hi Hj Hlt. simpl in Hlt.
    destruct i as [|i]; [|lia]. simpl in Hi. injection Hi as <-.
    intros Hv. destruct Hlt as [Hlt|[_ Hlt]]; [lia|].
    eapply (indexOf_first _ _ _ Hc j); [lia|].
    by apply lookup_take_Some.
  - intros Hrest [|i] j row Hi Hj Hlt; simpl in Hi.
    + injection Hi as <-. intros Hv. apply indexOf_None in Hc. apply Hc.
      apply list_elem_of_lookup. exists j. by apply lookup_take_Some.
    + eapply (IH (S n0) Hrest i j row); [done|done|].
      replace (Z.of_nat (S n0 + i)) with (Z.of_nat (n0 + S i)) by lia. done.
Qed.

(** X4.  [findCell] returns the first cell, in row-major order over the
    rows and the columns below [g[0].length], that holds the value: the
    cell it returns holds the value and lies inside the bounds, no cell
    inside the bounds before it does, and it returns [null] exactly when no
    cell inside the bounds holds the value. *)
Theorem findCell_first g v :
  match findCell g v with
  | Some p =>
      cellAt g (posR p) (posC p) = Some v ∧
      inBounds g (posR p) (posC p) = true ∧
      ∀ r c, inBounds g r c = true →
             r < posR p ∨ (r = posR p ∧ c < posC p) →
             cellAt g r c ≠ Some v
  | None => ∀ r c, inBounds g r c = true → cellAt g r c ≠ Some v
  end.
Proof.
  destruct (findCell g v) as [p|] eqn:Hf.
  - destruct (findCell_Some _ _ _ Hf) as [Hc Hb]. split; [done|]. split; [done|].
    intros r c (Hr0 & Hr & Hc0 & Hcw)%inBounds_true Hlt
           (_ & _ & row & Hrow & Hv)%cellAt_Some.
    eapply (findRows_first _ _ _ _ _ Hf (Z.to_nat r) (Z.to_nat c) row);
      [done|lia| |done].
    simpl. rewrite !Z2Nat.id by lia. done.
  - intros r c. by apply findCell_None.
Qed.
End findCell_extras.

Section goal_extras.
Implicit Types (g : Grid) (v : Cell).

(** X5.  [isGoal] returns false on every grid: [findCell] reports a cell
    holding [PROBE] for the probe and a cell holding [DOCK] for the dock,
    and no cell holds both.  So the goal test of the engines,
    [isGoal(grid) || isAtDock(grid, dockPos)], is decided by [isAtDock]
    alone. *)
Theorem isGoal_never g dockPos :
  isGoal g = false ∧ goalTest g dockPos = isAtDock g dockPos.
Proof. split; [apply isGoal_false|apply goalTest_isAtDock]. Qed.

(** X6.  On a grid with exactly one [PROBE] cell, [isAtDock] holds for a
    position inside the bounds exactly when that cell holds the probe;
    without a recorded dock position it is false. *)
Theorem isAtDock_probe_cell g d :
  countCell g PROBE = 1%nat → inBounds g (posR d) (posC d) = true →
  (isAtDock g (Some d) = true ↔ cellAt g (posR d) (posC d) = Some PROBE) ∧
  isAtDock g None = false.
Proof.
  intros H1 Hb. split; [|done]. unfold isAtDock. split.
  - destruct (findCell g PROBE) as [p|] eqn:Hp; [|done].
    intros [Er%bool_decide_eq_true Ec%bool_decide_eq_true]%andb_true_iff.
    apply findCell_Some in Hp as [Hp _]. by rewrite <-Er, <-Ec.
  - intros Hc. destruct (findCell g PROBE) as [p|] eqn:Hp.
    + destruct (findCell_unique g PROBE p _ _ H1 Hp Hc) as [-> ->].
      by rewrite !bool_decide_eq_true_2.
    + exfalso. by eapply findCell_None.
Qed.

Lemma isAtDock_probe_cell_witness :
  (isAtDock [[EMPTY; PROBE]] (Some (mkPos 0 1)) = true ↔
   cellAt [[EMPTY; PROBE]] 0 1 = Some PROBE) ∧
  isAtDock [[EMPTY; PROBE]] None = false.
Proof.
  apply (isAtDock_probe_cell [[EMPTY; PROBE]] (mkPos 0 1)); reflexivity.
Defined.
End goal_extras.

Section moveGen_extras.
Implicit Types (g : Grid) (v : Cell).

Lemma moveGen_changes g g' : g' ∈ moveGen g → g' ≠ g.
Proof.
  intros Hm ->. pose proof Hm as (probe & d & Hf & Hd & Hdir)%elem_of_moveGen.
  pose proof Hf as [Hp _]%findCell_Some.
  apply moveDir_Some_inv in Hdir. cbv zeta in Hdir.
  destruct Hdir as (Hb & [[Hn Heq]|(k & Hk & Hrun & Hbl & Hland & Heq)]).
  - destruct (step_cells g probe d Hd Hp) as (Ca & _).
    { destruct Hn as [-> | ->]; done. }
    rewrite <-Heq in Ca. congruence.
  - assert (Hrun' : ∀ i : nat, (1 ≤ i ≤ k)%nat →
              cellAt g (lineR probe d i) (lineC probe d i) = Some AST).
    { intros i Hi. destruct i as [|j]; [lia|].
      destruct (Hrun j ltac:(lia)) as [_ Ha].
      replace (lineR probe d (S j)) with (posR probe + dr d + Z.of_nat j * dr d)
        by (unfold lineR; lia).
      replace (lineC probe d (S j)) with (posC probe + dc d + Z.of_nat j * dc d)
        by (unfold lineC; lia).
      done. }
    assert (Hland' : cellAt g (lineR probe d (S k)) (lineC probe d (S k)) = Some EMPTY).
    { replace (lineR probe d (S k)) with (posR probe + dr d + Z.of_nat k * dr d)
        by (unfold lineR; lia).
      replace (lineC probe d (S k)) with (posC probe + dc d + Z.of_nat k * dc d)
        by (unfold lineC; lia).
      done. }
    destruct (push_cells g probe d k Hd Hp Hrun' Hland') as (Pa & _).
    replace (lineR probe d 1%nat) with (posR probe + dr d) in Pa
      by (unfold lineR; simpl; lia).
    replace (lineC probe d 1%nat) with (posC probe + dc d) in Pa
      by (unfold lineC; simpl; lia).
    rewrite <-Heq in Pa. congruence.
Qed.

(** X7.  [moveGen] emits at most four successors, none for a grid in which
    [findCell] finds no probe; every successor has the row lengths of its
    predecessor (the grid extent never changes) and differs from it (no
    move leaves the configuration as it is). *)
Theorem moveGen_successors g :
  (length (moveGen g) ≤ 4)%nat ∧
  (findCell g PROBE = None → moveGen g = []) ∧
  ∀ g', g' ∈ moveGen g → length <$> g' = length <$> g ∧ g' ≠ g.
Proof.
  split; [apply moveGen_length|]. split.
  - unfold moveGen. by intros ->.
  - intros g' Hm. split; [by apply moveGen_shape|by apply moveGen_changes].
Qed.

Lemma moveGen_probe_step g g' :
  countCell g PROBE = 1%nat → g' ∈ moveGen g →
  ∃ p d, findCell g PROBE = Some p ∧ d ∈ DIRS ∧
         findCell g' PROBE = Some (mkPos (posR p + dr d) (posC p + dc d)).
Proof.
  intros H1 Hm.
  pose proof (moveGen_conserves g g' H1 Hm) as (H1' & _).
  pose proof Hm as (probe & d & Hf & Hd & Hdir)%elem_of_moveGen.
  pose proof Hf as [Hp _]%findCell_Some.
  pose proof (moveDir_shape _ _ _ _ Hdir) as Hshape.
  exists probe, d. split; [done|]. split; [done|].
  assert (inBounds g' (posR probe + dr d) (posC probe + dc d) = true ∧
          cellAt g' (posR probe + dr d) (posC probe + dc d) = Some PROBE) as [Hb' Hc'].
  { apply moveDir_Some_inv in Hdir. cbv zeta in Hdir.
    destruct Hdir as (Hb & Hcase).
    split; [by rewrite (shape_inBounds _ _ _ _ Hshape)|].
    destruct Hcase as [[Hy ->]|(k & Hk & Hrun & Hbl & Hland & ->)].
    - eapply step_cells; [done|done|]. destruct Hy as [-> | ->]; done.
    - replace (posR probe + dr d) with (lineR probe d 1%nat) by (unfold lineR; simpl; lia).
      replace (posC probe + dc d) with (lineC probe d 1%nat) by (unfold lineC; simpl; lia).
      eapply push_cells; [done|done| |].
      + intros i Hi. destruct i as [|j]; [lia|].
        destruct (Hrun j ltac:(lia)) as [_ Ha].
        replace (lineR probe d (S j)) with (posR probe + dr d + Z.of_nat j * dr d)
          by (unfold lineR; lia).
        replace (lineC probe d (S j)) with (posC probe + dc d + Z.of_nat j * dc d)
          by (unfold lineC; lia).
        done.
      + replace (lineR probe d (S k)) with (posR probe + dr d + Z.of_nat k * dr d)
          by (unfold lineR; lia).
        replace (lineC probe d (S k)) with (posC probe + dc d + Z.of_nat k * dc d)
          by (unfold lineC; lia).
        done. }
  destruct (findCell g' PROBE) as [p'|] eqn:Hf'.
  - destruct (findCell_unique g' PROBE p' _ _ H1' Hf' Hc') as [E1 E2].
    destruct p' as [pr' pc']. simpl in *. by subst.
  - exfalso. by eapply findCell_None.
Qed.

(** X8.  From a configuration with exactly one probe, every successor of
    [moveGen] has its probe exactly one cell away, in one of the four
    directions: each action moves the probe by one cell. *)
Theorem moveGen_moves_probe g g' :
  countCell g PROBE = 1%nat → g' ∈ moveGen g →
  ∃ p d, findCell g PROBE = Some p ∧ d ∈ DIRS ∧
         findCell g' PROBE = Some (mkPos (posR p + dr d) (posC p + dc d)).
Proof. apply moveGen_probe_step. Qed.

Lemma moveGen_moves_probe_witness :
  ∃ p d, findCell [[EMPTY; PROBE; AST; EMPTY]] PROBE = Some p ∧ d ∈ DIRS ∧
         findCell [[EMPTY; EMPTY; PROBE; AST]] PROBE =
           Some (mkPos (posR p + dr d) (posC p + dc d)).
Proof.
  apply (moveGen_moves_probe [[EMPTY; PROBE; AST; EMPTY]] [[EMPTY; EMPTY; PROBE; AST]]).
  - reflexivity.
  - vm_compute. repeat constructor.
Defined.

Lemma manhattan_step p d q :
  d ∈ DIRS →
  manhattan p q ≤ 1 + manhattan (mkPos (posR p + dr d) (posC p + dc d)) q.
Proof. intros Hd. unfold manhattan. simpl. dir_lia Hd. Qed.

Lemma Path_manhattan start g gs p0 p q :
  countCell start PROBE = 1%nat → Path start g gs →
  findCell start PROBE = Some p0 → findCell g PROBE = Some p →
  manhattan p0 q ≤ Z.of_nat (length gs) - 1 + manhattan p q.
Proof.
  intros H1 Hp. revert p. induction Hp as [|g g' gs Hp IH Hm]; intros p Hf0 Hf.
  - simpl. assert (p = p0) as -> by congruence. lia.
  - pose proof (Path_one_probe _ _ _ H1 Hp) as Hone.
    destruct (moveGen_probe_step g g' Hone Hm) as (pg & d & Hfg & Hd & Hfg').
    rewrite Hf in Hfg'. injection Hfg' as ->.
    specialize (IH pg Hf0 Hfg). rewrite length_app. simpl.
    pose proof (manhattan_step pg d q Hd). lia.
Qed.

(** X9.  The score of greedy best-first search never overestimates: from a
    start with exactly one probe, every solution has at least as many
    actions (configurations minus one) as the Manhattan distance between
    the probe and the dock position of the start. *)
Theorem manhattan_admissible start p0 dockPos gs :
  countCell start PROBE = 1%nat →
  findCell start PROBE = Some p0 → findCell start DOCK = Some dockPos →
  Solution start gs →
  manhattan p0 dockPos ≤ Z.of_nat (length gs) - 1.
Proof.
  intros H1 Hp0 Hd (g & Hp & Hg). rewrite Hd, goalTest_isAtDock in Hg.
  unfold isAtDock in Hg. destruct (findCell g PROBE) as [p|] eqn:Hf; [|done].
  apply andb_true_iff in Hg as [Er%bool_decide_eq_true Ec%bool_decide_eq_true].
  pose proof (Path_manhattan start g gs p0 p dockPos H1 Hp Hp0 Hf) as Hle.
  assert (manhattan p dockPos = 0) as Hz by (unfold manhattan; lia). lia.
Qed.

Lemma manhattan_admissible_witness :
  manhattan (mkPos 0 0) (mkPos 0 1) ≤
  Z.of_nat (length [ [[PROBE; DOCK]]; [[EMPTY; PROBE]] ]) - 1.
Proof.
  apply (manhattan_admissible [[PROBE; DOCK]] (mkPos 0 0) (mkPos 0 1)).
  - reflexivity.
  - reflexivity.
  - reflexivity.
  - exists [[EMPTY; PROBE]]. split; [|reflexivity].
    apply (Path_step _ [[PROBE; DOCK]] [[EMPTY; PROBE]] [[[PROBE; DOCK]]]).
    + constructor.
    + vm_compute. repeat constructor.
Defined.
End moveGen_extras.

Section soundness_extras.
Implicit Types (start g : Grid) (gs p : list Grid) (res : SearchResult).

Lemma Path_elems start g gs x :
  Path start g gs → x ∈ gs → ∃ gs', Path start x gs'.
Proof.
  induction 1 as [|g g' gs Hp IH Hm].
  - intros ->%list_elem_of_singleton. exists [start]. constructor.
  - intros [Hx|Hx]%elem_of_app; [by apply IH|].
    apply list_elem_of_singleton in Hx as ->. exists (gs ++ [g']). by econstructor.
Qed.

Lemma shape_rows_nonempty g g' :
  length <$> g = length <$> g' →
  Forall (λ row, row ≠ []) g → Forall (λ row, row ≠ []) g'.
Proof.
  intros Hshape Hrows. apply Forall_lookup. intros i row' Hi.
  assert ((length <$> g) !! i = Some (length row')) as H
    by (by rewrite Hshape, list_lookup_fmap, Hi).
  rewrite list_lookup_fmap in H. destruct (g !! i) as [row|] eqn:Hrow; [|done].
  simpl in H. injection H as H.
  eapply Forall_lookup_1 in Hrows; [|exact Hrow]. simpl in Hrows.
  intros ->. destruct row; done.
Qed.

Lemma Path_reparse start g gs :
  start ≠ [] → Forall (λ row, row ≠ []) start → Path start g gs →
  reparse (length start) (width start) <$> gs = gs.
Proof.
  intros Hne Hrows Hp. rewrite <-(list_fmap_id gs) at 2.
  apply Forall_fmap_ext_1, Forall_forall. intros x Hx.
  destruct (Path_elems _ _ _ _ Hp Hx) as [gs' Hp'].
  pose proof (Path_shape _ _ _ Hp') as Hshape.
  rewrite reparse_shape.
  - rewrite <-(list_fmap_id x) at 2. apply Forall_fmap_ext_1.
    assert (Forall (λ row, row ≠ []) x) as Hx'.
    { eapply shape_rows_nonempty; [|exact Hrows]. done. }
    eapply Forall_impl; [exact Hx'|]. intros [|y row] H; done.
  - intros ->. destruct start; done.
  - by rewrite (shape_length _ _ Hshape).
Qed.

Lemma no_dock_no_solution start gs :
  findCell start DOCK = None → ¬ Solution start gs.
Proof. intros Hd (g & _ & Hg). rewrite Hd, goalTest_isAtDock in Hg. done. Qed.

Lemma no_probe_no_solution start gs :
  findCell start PROBE = None → ¬ Solution start gs.
Proof.
  intros Hp (g & Hpath & Hg).
  assert (g = start) as ->.
  { clear Hg. induction Hpath as [|g g' gs Hpath IH Hm]; [done|].
    rewrite IH in Hm. unfold moveGen in Hm. rewrite Hp in Hm.
    by apply elem_of_nil in Hm. }
  rewrite goalTest_isAtDock in Hg. unfold isAtDock in Hg.
  destruct (findCell start DOCK); [|done]. by rewrite Hp in Hg.
Qed.

(** The path an engine returns is itself a solution. *)
Lemma returned_path_solution start maxNodes res p :
  Forall (λ row, row ≠ []) start →
  dfsSolve start maxNodes = Some res ∨ bfsSolve start maxNodes = Some res ∨
  bestFirstSolve start maxNodes = Some res →
  path res = Some p → Solution start p.
Proof.
  intros Hrows Hsolve Hpath.
  assert (∃ gs, Solution start gs ∧ p = reparse (length start) (width start) <$> gs)
    as (gs & Hsol & ->).
  { destruct Hsolve as [H|[H|H]].
    - by eapply dfsSolve_path.
    - destruct (bfsSolve_path _ _ _ _ H Hpath) as (gs & ? & ? & _). eauto.
    - by eapply bestFirstSolve_path. }
  pose proof Hsol as (g & Hp & Hg).
  rewrite (Path_reparse start g gs); [done| |done|done].
  intros ->. rewrite goalTest_isAtDock in Hg. done.
Qed.

(** X10.  Soundness of the three engines: for a start without empty rows,
    the path an engine returns is itself a solution: it begins with the
    start, every configuration is a [moveGen] successor of the one before,
    and the last one passes the goal test for the dock position of the
    start. *)
Theorem solve_path_sound start maxNodes res p :
  Forall (λ row, row ≠ []) start →
  dfsSolve start maxNodes = Some res ∨ bfsSolve start maxNodes = Some res ∨
  bestFirstSolve start maxNodes = Some res →
  path res = Some p → Solution start p.
Proof. apply returned_path_solution. Qed.

Lemma solve_path_sound_witness :
  Solution [[PROBE; DOCK]] [ [[PROBE; DOCK]]; [[EMPTY; PROBE]] ].
Proof.
  apply (solve_path_sound [[PROBE; DOCK]] 10
           (mkResult (Some [ [[PROBE; DOCK]]; [[EMPTY; PROBE]] ]) 2
                     [mkPos 0 0; mkPos 0 1])).
  - repeat constructor; discriminate.
  - right. left. vm_compute. reflexivity.
  - reflexivity.
Defined.
End soundness_extras.

Section exhaustive_search.
Context (start : Grid).
Implicit Types (g grid : Grid) (gs : list Grid) (seen : gset string).

Lemma closure_skip seen grid rest :
  Closure start seen (grid :: rest) → serializeGrid grid ∈ seen →
  Closure start seen rest.
Proof.
  intros [Hstart Hcl] Hseen. split.
  - destruct Hstart as [?|[->|?]%elem_of_cons]; auto.
  - intros g gs Hp Hg. destruct (Hcl g gs Hp Hg) as [Hgoal Hsucc].
    split; [done|]. intros g' Hg'.
    destruct (Hsucc g' Hg') as [?|[->|?]%elem_of_cons]; auto.
Qed.

Lemma closure_expand seen grid rest frontier gs0 :
  Closure start seen (grid :: rest) → Path start grid gs0 →
  goalTest grid (findCell start DOCK) = false →
  (∀ x, x ∈ moveGen grid → x ∈ frontier) →
  (∀ x, x ∈ rest → x ∈ frontier) →
  Closure start ({[serializeGrid grid]} ∪ seen) frontier.
Proof.
  intros [Hstart Hcl] Hp0 Hgoal Hnew Hold. split.
  - destruct Hstart as [?|[->|?]%elem_of_cons]; [left|left|right]; set_solver.
  - intros g gs Hp [Hk%elem_of_singleton|Hk]%elem_of_union.
    + assert (g = grid) as -> by (by eapply Path_key_inj).
      split; [done|]. intros g' Hg'. right. by apply Hnew.
    + destruct (Hcl g gs Hp Hk) as [Hg Hsucc]. split; [done|].
      intros g' Hg'.
      destruct (Hsucc g' Hg') as [?|[->|?]%elem_of_cons];
        [left|left|right]; set_solver.
Qed.

Lemma closure_empty seen : Closure start seen [] → ∀ gs, ¬ Solution start gs.
Proof.
  intros [Hstart Hcl] gs (g & Hp & Hg).
  assert (serializeGrid g ∈ seen) as Hk.
  { clear Hg. induction Hp as [|g g' gs Hp IH Hm].
    - destruct Hstart as [?|Hin]; [done|]. by apply elem_of_nil in Hin.
    - destruct (Hcl g gs Hp IH) as [_ Hsucc].
      destruct (Hsucc g' Hm) as [?|Hin]; [done|]. by apply elem_of_nil in Hin. }
  destruct (Hcl g gs Hp Hk) as [Hng _]. congruence.
Qed.

Lemma Path_has_probe g gs :
  is_Some (findCell start PROBE) → Path start g gs → is_Some (findCell g PROBE).
Proof. intros Hs. destruct 1; [done|]. by eapply moveGen_has_probe. Qed.

Lemma pushProbe_length g gs visited :
  is_Some (findCell start PROBE) → Path start g gs →
  length (pushProbe g visited) = S (length visited).
Proof.
  intros Hs Hp. unfold pushProbe.
  destruct (Path_has_probe g gs Hs Hp) as [p ->].
  rewrite length_app. simpl. lia.
Qed.

(** *** Depth-first search *)

Lemma dfs_fold_stack key nexts : ∀ parent stack,
  (foldl (dfsPush key) (parent, stack) nexts).2 =
  reverse ((λ ng, (ng, Some key)) <$> nexts) ++ stack.
Proof.
  induction nexts as [|ng nexts IH]; intros parent stack; [done|].
  cbn [foldl]. unfold dfsPush at 2. cbn [fst snd]. rewrite IH.
  rewrite fmap_cons, reverse_cons, <-app_assoc. done.
Qed.

Lemma dfs_fold_elem key nexts parent stack x :
  x ∈ fst <$> (foldl (dfsPush key) (parent, stack) nexts).2 ↔
  x ∈ nexts ∨ x ∈ fst <$> stack.
Proof.
  rewrite dfs_fold_stack, fmap_app, elem_of_app, fmap_reverse, elem_of_reverse.
  rewrite <-list_fmap_compose.
  assert (fst ∘ (λ ng : Grid, (ng, Some key)) <$> nexts = nexts) as ->; [|done].
  rewrite <-(list_fmap_id nexts) at 2. by apply list_fmap_ext.
Qed.

Lemma dfsStep_all maxNodes st st' :
  is_Some (findCell start PROBE) →
  DfsAll start maxNodes st → dfsStep (findCell start DOCK) maxNodes st = inl st' →
  DfsAll start maxNodes st'.
Proof.
  intros Hs (Hinv & Hcl & Hcnt) Hstep.
  split; [by eapply dfsStep_inv|].
  destruct Hinv as (Hok & HF & Hn). unfold dfsStep in Hstep.
  destruct (d_stack st) as [|[grid par] rest] eqn:Hstack; [done|].
  rewrite fmap_cons in HF, Hcl. simpl in HF, Hcl.
  apply Frontier_cons in HF as [[[gs0 Hp] Hkey] HF].
  case_decide as Hseen.
  { injection Hstep as <-. simpl. split; [|done]. by eapply closure_skip. }
  destruct (goalTest grid (findCell start DOCK)) eqn:Hgoal; [done|].
  destruct (maxNodes <? S (d_nodes st))%nat; [done|].
  destruct (foldl (dfsPush (serializeGrid grid)) (d_parent st, rest) (moveGen grid))
    as [parent' stack'] eqn:Hfold.
  injection Hstep as <-. simpl.
  assert (∀ x, x ∈ fst <$> stack' ↔ x ∈ moveGen grid ∨ x ∈ fst <$> rest) as Hel.
  { intros x. rewrite <-dfs_fold_elem. by rewrite Hfold. }
  split.
  - eapply closure_expand; [done|done|done| |]; intros x Hx; apply Hel; auto.
  - rewrite (pushProbe_length grid gs0) by done. lia.
Qed.

Lemma DfsAll_init maxNodes : DfsAll start maxNodes (dfsInit start).
Proof.
  split; [apply DfsInv_init|]. split; [|done]. split.
  - right. simpl. by left.
  - intros g gs _ Hk. simpl in Hk. by apply elem_of_empty in Hk.
Qed.

Lemma dfs_exit_facts maxNodes e :
  is_Some (findCell start PROBE) → dfsRun start maxNodes = Some e →
  length (d_visited (exitState e)) = d_nodes (exitState e) ∧
  match e with
  | Found _ st => (d_nodes st ≤ S maxNodes)%nat
  | Ceiling st => d_nodes st = S maxNodes
  | Exhausted st => (d_nodes st ≤ maxNodes)%nat ∧ ∀ gs, ¬ Solution start gs
  end.
Proof.
  intros Hs Hrun. unfold dfsRun in Hrun.
  apply (runLoop_inv _ (DfsAll start maxNodes)) in Hrun as (s & (Hinv & Hcl & Hcnt) & Hstep).
  2:{ intros s s'. by apply dfsStep_all. }
  2:{ apply DfsAll_init. }
  destruct Hinv as (Hok & HF & Hn). unfold dfsStep in Hstep.
  destruct (d_stack s) as [|[grid par] rest] eqn:Hstack.
  { injection Hstep as <-. simpl. split; [done|]. split; [done|].
    simpl in Hcl. exact (closure_empty _ Hcl). }
  rewrite fmap_cons in HF. simpl in HF.
  apply Frontier_cons in HF as [[[gs0 Hp] Hkey] HF].
  case_decide as Hseen; [done|].
  destruct (goalTest grid (findCell start DOCK)) eqn:Hgoal.
  { injection Hstep as <-. simpl.
    rewrite (pushProbe_length grid gs0) by done. lia. }
  destruct (maxNodes <? S (d_nodes s))%nat eqn:Hc.
  { injection Hstep as <-. simpl. apply Nat.ltb_lt in Hc.
    rewrite (pushProbe_length grid gs0) by done. lia. }
  by destruct (foldl _ _ _).
Qed.
End exhaustive_search.

Section exhaustive_search_2.
Context (start : Grid).
Implicit Types (g grid : Grid) (gs : list Grid) (seen : gset string).

(** *** Greedy best-first search *)

Lemma pushPQ_elem dockPos pq g x :
  x ∈ fst <$> pushPQ dockPos pq g ↔
  x ∈ fst <$> pq ∨ (x = g ∧ is_Some (findCell g PROBE)).
Proof.
  unfold pushPQ. destruct (findCell g PROBE) as [p|].
  - rewrite !list_elem_of_fmap. split.
    + intros ([y sc] & -> & Hin). simpl.
      apply elem_of_sortPQ, elem_of_app in Hin as [Hin|Hin].
      * left. by exists (y, sc).
      * apply list_elem_of_singleton in Hin as [= -> _]. right. eauto.
    + intros [([y sc] & -> & Hin)|[-> _]].
      * exists (y, sc). split; [done|]. apply elem_of_sortPQ, elem_of_app. by left.
      * exists (g, manhattan p dockPos). split; [done|].
        apply elem_of_sortPQ, elem_of_app. right. by apply list_elem_of_singleton.
  - split; [by left|]. intros [?|[_ [? ?]]]; done.
Qed.

Lemma best_fold_elem dockPos key nexts : ∀ parent pq x,
  x ∈ fst <$> (foldl (bestPush dockPos key) (parent, pq) nexts).2 ↔
  x ∈ fst <$> pq ∨ (x ∈ nexts ∧ is_Some (findCell x PROBE)).
Proof.
  induction nexts as [|ng nexts IH]; intros parent pq x.
  - simpl. rewrite elem_of_nil. tauto.
  - cbn [foldl]. unfold bestPush at 2. cbn [fst snd].
    rewrite IH, pushPQ_elem, elem_of_cons. naive_solver.
Qed.

Lemma bestStep_all dockPos maxNodes st st' :
  findCell start DOCK = Some dockPos → is_Some (findCell start PROBE) →
  BestAll start maxNodes st → bestStep dockPos maxNodes st = inl st' →
  BestAll start maxNodes st'.
Proof.
  intros Hd Hs (Hinv & Hcl & Hcnt) Hstep.
  split; [by eapply bestStep_inv|].
  destruct Hinv as (Hok & HF & Hn). unfold bestStep in Hstep.
  destruct (f_pq st) as [|[grid sc] rest] eqn:Hpq; [done|].
  rewrite fmap_cons in HF, Hcl. simpl in HF, Hcl.
  apply Frontier_cons in HF as [[[gs0 Hp] Hkey] HF].
  case_decide as Hseen.
  { injection Hstep as <-. simpl. split; [|done]. by eapply closure_skip. }
  destruct (goalTest grid (Some dockPos)) eqn:Hgoal; [done|].
  destruct (maxNodes <? S (f_nodes st))%nat; [done|].
  destruct (foldl (bestPush dockPos (serializeGrid grid)) (f_parent st, rest) (moveGen grid))
    as [parent' pq'] eqn:Hfold.
  injection Hstep as <-. simpl.
  assert (∀ x, x ∈ fst <$> pq' ↔
               x ∈ fst <$> rest ∨ (x ∈ moveGen grid ∧ is_Some (findCell x PROBE))) as Hel.
  { intros x. rewrite <-best_fold_elem. by rewrite Hfold. }
  split.
  - eapply closure_expand; [done|done|by rewrite Hd| |]; intros x Hx; apply Hel; auto.
    right. split; [done|]. by eapply moveGen_has_probe.
  - rewrite (pushProbe_length start grid gs0) by done. lia.
Qed.

Lemma BestAll_init dockPos maxNodes :
  is_Some (findCell start PROBE) → BestAll start maxNodes (bestInit dockPos start).
Proof.
  intros Hs. split; [apply BestInv_init|]. split; [|done]. split.
  - right. simpl. apply pushPQ_elem. by right.
  - intros g gs _ Hk. simpl in Hk. by apply elem_of_empty in Hk.
Qed.

Lemma best_exit_facts dockPos maxNodes e :
  findCell start DOCK = Some dockPos → is_Some (findCell start PROBE) →
  bestRun dockPos start maxNodes = Some e →
  length (f_visited (exitState e)) = f_nodes (exitState e) ∧
  match e with
  | Found _ st => (f_nodes st ≤ S maxNodes)%nat
  | Ceiling st => f_nodes st = S maxNodes
  | Exhausted st => (f_nodes st ≤ maxNodes)%nat ∧ ∀ gs, ¬ Solution start gs
  end.
Proof.
  intros Hd Hs Hrun. unfold bestRun in Hrun.
  apply (runLoop_inv _ (BestAll start maxNodes)) in Hrun as (s & (Hinv & Hcl & Hcnt) & Hstep).
  2:{ intros s s'. by apply bestStep_all. }
  2:{ by apply BestAll_init. }
  destruct Hinv as (Hok & HF & Hn). unfold bestStep in Hstep.
  destruct (f_pq s) as [|[grid sc] rest] eqn:Hpq.
  { injection Hstep as <-. simpl. split; [done|]. split; [done|].
    simpl in Hcl. exact (closure_empty _ _ Hcl). }
  rewrite fmap_cons in HF. simpl in HF.
  apply Frontier_cons in HF as [[[gs0 Hp] Hkey] HF].
  case_decide as Hseen; [done|].
  destruct (goalTest grid (Some dockPos)) eqn:Hgoal.
  { injection Hstep as <-. simpl.
    rewrite (pushProbe_length start grid gs0) by done. lia. }
  destruct (maxNodes <? S (f_nodes s))%nat eqn:Hc.
  { injection Hstep as <-. simpl. apply Nat.ltb_lt in Hc.
    rewrite (pushProbe_length start grid gs0) by done. lia. }
  by destruct (foldl _ _ _).
Qed.

Lemma best_no_probe dockPos maxNodes :
  findCell start PROBE = None →
  bestRun dockPos start maxNodes = Some (Exhausted (bestInit dockPos start)) ∧
  f_pq (bestInit dockPos start) = [].
Proof.
  intros Hp.
  assert (f_pq (bestInit dockPos start) = []) as Hpq.
  { unfold bestInit, pushPQ. by rewrite Hp. }
  split; [|done]. unfold bestRun, lazyFuel.
  replace (5 * maxNodes + 8)%nat with (S (5 * maxNodes + 7)) by lia.
  cbn [runLoop]. unfold bestStep. by rewrite Hpq.
Qed.

(** *** Breadth-first search *)

Lemma bfsStep_count maxNodes st st' :
  is_Some (findCell start PROBE) →
  BfsInv start maxNodes st ∧ length (b_visited st) = b_nodes st →
  bfsStep (findCell start DOCK) maxNodes st = inl st' →
  BfsInv start maxNodes st' ∧ length (b_visited st') = b_nodes st'.
Proof.
  intros Hs [Hinv Hcnt] Hstep. split; [by eapply bfsStep_inv|].
  destruct Hinv as [Hn Hseen Htree (d & A & B & Hq & HAB & HA & HB & Hcompl) Hexp].
  unfold bfsStep in Hstep.
  destruct (b_q st) as [|h rest] eqn:Hbq; [done|].
  assert (∃ gs0, Path start h gs0) as [gs0 Hp].
  { assert (h ∈ A ++ B) as [Hin|Hin]%elem_of_app by (rewrite <-Hq; by left).
    - eapply Forall_forall in HA; [|exact Hin]. by eapply AtLevel_Path.
    - eapply Forall_forall in HB; [|exact Hin]. by eapply AtLevel_Path. }
  destruct (goalTest h (findCell start DOCK)); [done|].
  destruct (maxNodes <? S (b_nodes st))%nat; [done|].
  destruct (foldl _ _ _) as [[seen' parent'] q'].
  injection Hstep as <-. simpl.
  rewrite (pushProbe_length start h gs0) by done. lia.
Qed.

Lemma bfs_exit_facts maxNodes e :
  is_Some (findCell start PROBE) → bfsRun start maxNodes = Some e →
  length (b_visited (exitState e)) = b_nodes (exitState e) ∧
  match e with
  | Found _ st => (b_nodes st ≤ S maxNodes)%nat
  | Ceiling st => b_nodes st = S maxNodes
  | Exhausted st => (b_nodes st ≤ maxNodes)%nat ∧ ∀ gs, ¬ Solution start gs
  end.
Proof.
  intros Hs Hrun. unfold bfsRun in Hrun.
  apply (runLoop_inv _ (λ st, BfsInv start maxNodes st ∧
                               length (b_visited st) = b_nodes st))
    in Hrun as (s & (Hinv & Hcnt) & Hstep).
  2:{ intros s s'. by apply bfsStep_count. }
  2:{ split; [apply BfsInv_init|done]. }
  destruct Hinv as [Hn Hseen Htree (d & A & B & Hq & HAB & HA & HB & Hcompl) Hexp].
  unfold bfsStep in Hstep.
  destruct (b_q s) as [|h rest] eqn:Hbq.
  { injection Hstep as <-. simpl. split; [done|]. split; [done|].
    apply (closure_empty start (b_seen s)). split.
    - left. apply (Hcompl start [start]); [constructor|simpl; lia].
    - intros g gs Hp Hk. destruct (Hexp g gs Hp Hk) as [Hg Hsucc].
      { intros Hin. by apply elem_of_nil in Hin. }
      split; [done|]. intros g' Hg'. left. by apply Hsucc. }
  assert (∃ gs0, Path start h gs0) as [gs0 Hp].
  { assert (h ∈ A ++ B) as [Hin|Hin]%elem_of_app by (rewrite <-Hq; by left).
    - eapply Forall_forall in HA; [|exact Hin]. by eapply AtLevel_Path.
    - eapply Forall_forall in HB; [|exact Hin]. by eapply AtLevel_Path. }
  destruct (goalTest h (findCell start DOCK)) eqn:Hgoal.
  { injection Hstep as <-. simpl.
    rewrite (pushProbe_length start h gs0) by done. lia. }
  destruct (maxNodes <? S (b_nodes s))%nat eqn:Hc.
  { injection Hstep as <-. simpl. apply Nat.ltb_lt in Hc.
    rewrite (pushProbe_length start h gs0) by done. lia. }
  by destruct (foldl _ _ _) as [[? ?] ?].
Qed.
End exhaustive_search_2.

Section exhaustive_claims.
Implicit Types (start : Grid) (res : SearchResult).

(** X11.  The searches are exhaustive: when an engine returns no path
    although it expanded no more than [maxNodes] states (so it was not
    stopped by the ceiling), then there is no solution at all: no sequence
    of [moveGen] steps from the start reaches a configuration that passes
    the goal test. *)
Theorem not_found_means_unsolvable start maxNodes res :
  dfsSolve start maxNodes = Some res ∨ bfsSolve start maxNodes = Some res ∨
  bestFirstSolve start maxNodes = Some res →
  path res = None → (nodesExpanded res ≤ maxNodes)%nat →
  ∀ gs, ¬ Solution start gs.
Proof.
  intros Hsolve Hpath Hn gs.
  destruct (findCell start DOCK) as [dock|] eqn:Hd;
    [|by apply no_dock_no_solution].
  destruct (findCell start PROBE) as [probe|] eqn:Hp;
    [|by apply no_probe_no_solution].
  assert (is_Some (findCell start PROBE)) as Hs by (by rewrite Hp).
  destruct Hsolve as [H|[H|H]].
  - unfold dfsSolve in H. rewrite Hd, Hp in H.
    destruct (dfsRun start maxNodes) as [e|] eqn:Hrun; [|done].
    destruct (dfs_exit_facts start maxNodes e Hs Hrun) as [_ Hfacts].
    destruct e as [key st|st|st]; cbn [mbind option_bind] in H.
    + destruct (dfs_found start maxNodes key st Hs Hrun) as (g & gs' & _ & _ & Hfin).
      rewrite Hfin in H. injection H as <-. done.
    + injection H as <-. simpl in Hn. lia.
    + by apply Hfacts.
  - unfold bfsSolve in H. rewrite Hd, Hp in H.
    destruct (bfsRun start maxNodes) as [e|] eqn:Hrun; [|done].
    destruct (bfs_exit_facts start maxNodes e Hs Hrun) as [_ Hfacts].
    destruct e as [key st|st|st]; cbn [mbind option_bind] in H.
    + destruct (bfs_found start maxNodes key st Hrun) as (g & gs' & _ & _ & _ & Hfin).
      rewrite Hfin in H. injection H as <-. done.
    + injection H as <-. simpl in Hn. lia.
    + by apply Hfacts.
  - unfold bestFirstSolve in H. rewrite Hd in H.
    destruct (bestRun dock start maxNodes) as [e|] eqn:Hrun; [|done].
    destruct (best_exit_facts start dock maxNodes e Hd Hs Hrun) as [_ Hfacts].
    destruct e as [key st|st|st]; cbn [mbind option_bind] in H.
    + destruct (best_found start dock maxNodes key st Hrun) as (g & gs' & _ & _ & Hfin).
      rewrite Hfin in H. injection H as <-. done.
    + injection H as <-. simpl in Hn. lia.
    + by apply Hfacts.
Qed.

Lemma not_found_means_unsolvable_witness :
  ¬ Solution [[PROBE; WALL; DOCK]] [[[PROBE; WALL; DOCK]]].
Proof.
  apply (not_found_means_unsolvable [[PROBE; WALL; DOCK]] 10
           (mkResult None 1 [mkPos 0 0])).
  - right. left. vm_compute. reflexivity.
  - reflexivity.
  - simpl. lia.
Defined.

(** X12.  The statistics of a result: whatever the outcome, an engine
    reports at most [maxNodes + 1] expanded states, and the list of visited
    probe positions has exactly one entry for each expanded state. *)
Theorem result_statistics start maxNodes res :
  dfsSolve start maxNodes = Some res ∨ bfsSolve start maxNodes = Some res ∨
  bestFirstSolve start maxNodes = Some res →
  (nodesExpanded res ≤ S maxNodes)%nat ∧
  length (visitedProbe res) = nodesExpanded res.
Proof.
  intros Hsolve.
  destruct (findCell start DOCK) as [dock|] eqn:Hd.
  2:{ destruct Hsolve as [H|[H|H]];
        [unfold dfsSolve in H|unfold bfsSolve in H|unfold bestFirstSolve in H];
        rewrite Hd in H; injection H as <-; simpl; split; (lia || done). }
  destruct (findCell start PROBE) as [probe|] eqn:Hp.
  2:{ destruct Hsolve as [H|[H|H]].
      - unfold dfsSolve in H. rewrite Hd, Hp in H. injection H as <-.
        simpl; split; (lia || done).
      - unfold bfsSolve in H. rewrite Hd, Hp in H. injection H as <-.
        simpl; split; (lia || done).
      - unfold bestFirstSolve in H. rewrite Hd in H.
        destruct (best_no_probe start dock maxNodes Hp) as [Hrun _].
        rewrite Hrun in H. injection H as <-. simpl; split; (lia || done). }
  assert (is_Some (findCell start PROBE)) as Hs by (by rewrite Hp).
  destruct Hsolve as [H|[H|H]].
  - unfold dfsSolve in H. rewrite Hd, Hp in H.
    destruct (dfsRun start maxNodes) as [e|] eqn:Hrun; [|done].
    destruct (dfs_exit_facts start maxNodes e Hs Hrun) as [Hcnt Hfacts].
    destruct e as [key st|st|st]; cbn [mbind option_bind] in H.
    + destruct (dfs_found start maxNodes key st Hs Hrun) as (g & gs' & _ & _ & Hfin).
      rewrite Hfin in H. injection H as <-. done.
    + injection H as <-. simpl in *. split; [lia|done].
    + injection H as <-. simpl in *. split; [lia|done].
  - unfold bfsSolve in H. rewrite Hd, Hp in H.
    destruct (bfsRun start maxNodes) as [e|] eqn:Hrun; [|done].
    destruct (bfs_exit_facts start maxNodes e Hs Hrun) as [Hcnt Hfacts].
    destruct e as [key st|st|st]; cbn [mbind option_bind] in H.
    + destruct (bfs_found start maxNodes key st Hrun) as (g & gs' & _ & _ & _ & Hfin).
      rewrite Hfin in H. injection H as <-. done.
    + injection H as <-. simpl in *. split; [lia|done].
    + injection H as <-. simpl in *. split; [lia|done].
  - unfold bestFirstSolve in H. rewrite Hd in H.
    destruct (bestRun dock start maxNodes) as [e|] eqn:Hrun; [|done].
    destruct (best_exit_facts start dock maxNodes e Hd Hs Hrun) as [Hcnt Hfacts].
    destruct e as [key st|st|st]; cbn [mbind option_bind] in H.
    + destruct (best_found start dock maxNodes key st Hrun) as (g & gs' & _ & _ & Hfin).
      rewrite Hfin in H. injection H as <-. done.
    + injection H as <-. simpl in *. split; [lia|done].
    + injection H as <-. simpl in *. split; [lia|done].
Qed.

Lemma result_statistics_witness :
  (nodesExpanded (mkResult None 4 [mkPos 1 1; mkPos 2 1; mkPos 1 2; mkPos 3 1])
     ≤ 4)%nat ∧
  length (visitedProbe (mkResult None 4 [mkPos 1 1; mkPos 2 1; mkPos 1 2; mkPos 3 1])) =
  nodesExpanded (mkResult None 4 [mkPos 1 1; mkPos 2 1; mkPos 1 2; mkPos 3 1]).
Proof.
  apply (result_statistics grid5 3). right. left. vm_compute. reflexivity.
Defined.
End exhaustive_claims.

Section priority_queue.
Implicit Types (g grid : Grid) (pq : list (Grid * Z)) (x y : Grid * Z).

Lemma insertPQ_least x l : Forall (λ y, x.2 ≤ y.2) l → insertPQ x l = x :: l.
Proof.
  destruct l as [|y l]; [done|]. intros Hall%Forall_inv. simpl.
  by rewrite (proj2 (Z.leb_le _ _) Hall).
Qed.

(** Sorting a sorted queue with one entry appended: the entry goes behind
    all entries that do not score higher. *)
Lemma sortPQ_snoc pq x :
  Ordered pq →
  ∃ l1 l2, pq = l1 ++ l2 ∧ sortPQ (pq ++ [x]) = l1 ++ x :: l2 ∧
    Forall (λ e, e.2 ≤ x.2) l1 ∧ Forall (λ e, x.2 < e.2) l2.
Proof.
  unfold sortPQ. rewrite foldr_app. cbn [foldr insertPQ].
  induction pq as [|y pq IH]; intros Hord.
  - exists [], []. by repeat split.
  - destruct Hord as [Hy Hord].
    destruct (IH Hord) as (l1 & l2 & -> & Hs & H1 & H2).
    cbn [foldr]. rewrite Hs.
    destruct l1 as [|z l1].
    + simpl. destruct (y.2 <=? x.2) eqn:Hc.
      * apply Z.leb_le in Hc. exists [y], l2. repeat split; [|done].
        by apply Forall_singleton.
      * apply Z.leb_gt in Hc. exists [], (y :: l2). simpl in Hy.
        rewrite (insertPQ_least y l2) by done. repeat split; [done|].
        by constructor.
    + exists (y :: z :: l1), l2. apply Forall_inv in Hy as Hyz.
      pose proof (Forall_inv H1) as Hz.
      simpl. rewrite (proj2 (Z.leb_le _ _) Hyz).
      repeat split; [|done]. constructor; [simpl in *; lia|done].
Qed.

Lemma Ordered_insert l1 l2 x :
  Ordered (l1 ++ l2) → Forall (λ e, e.2 ≤ x.2) l1 → Forall (λ e, x.2 < e.2) l2 →
  Ordered (l1 ++ x :: l2).
Proof.
  induction l1 as [|z l1 IH]; simpl.
  - intros Hord _ H2. split; [|done].
    eapply Forall_impl; [exact H2|]. simpl. intros; lia.
  - intros [Hz Hord] H1 H2. apply Forall_cons in H1 as [Hzx H1].
    split; [|by apply IH].
    apply Forall_app in Hz as [Hz1 Hz2].
    apply Forall_app. split; [done|]. by constructor.
Qed.

Lemma pushPQ_ordered dockPos pq g :
  Ordered pq → Scored dockPos pq →
  Ordered (pushPQ dockPos pq g) ∧ Scored dockPos (pushPQ dockPos pq g).
Proof.
  intros Hord Hsc. unfold pushPQ.
  destruct (findCell g PROBE) as [p|] eqn:Hp; [|done].
  destruct (sortPQ_snoc pq (g, manhattan p dockPos) Hord) as (l1 & l2 & -> & -> & H1 & H2).
  split; [by apply Ordered_insert|].
  unfold Scored in *. apply Forall_app in Hsc as [Hs1 Hs2].
  apply Forall_app. split; [done|]. constructor; [|done]. simpl. eauto.
Qed.

Lemma best_fold_ordered dockPos key nexts : ∀ parent pq,
  Ordered pq → Scored dockPos pq →
  Ordered (foldl (bestPush dockPos key) (parent, pq) nexts).2 ∧
  Scored dockPos (foldl (bestPush dockPos key) (parent, pq) nexts).2.
Proof.
  induction nexts as [|ng nexts IH]; intros parent pq Hord Hsc; [done|].
  cbn [foldl]. unfold bestPush at 2 4. cbn [fst snd].
  destruct (pushPQ_ordered dockPos pq ng Hord Hsc). by apply IH.
Qed.

Lemma best_frontier_ordered start dockPos maxNodes st :
  Iterates (bestStep dockPos maxNodes) (bestInit dockPos start) st →
  Ordered (f_pq st) ∧ Scored dockPos (f_pq st).
Proof.
  induction 1 as [|st st' _ [Hord Hsc] Hstep].
  - cbn [bestInit f_pq]. apply pushPQ_ordered; [done|constructor].
  - unfold bestStep in Hstep.
    destruct (f_pq st) as [|[grid sc] rest] eqn:Hpq; [done|].
    destruct Hord as [_ Hord]. apply Forall_cons in Hsc as [_ Hsc].
    case_decide; [by injection Hstep as <-|].
    destruct (goalTest _ _); [done|].
    destruct (maxNodes <? _)%nat; [done|].
    pose proof (best_fold_ordered dockPos (serializeGrid grid) (moveGen grid)
                  (f_parent st) rest Hord Hsc) as Hf.
    destruct (foldl _ _ _) as [parent' pq']. by injection Hstep as <-.
Qed.

(** X13.  [pushPQ] on a sorted queue: a configuration with a probe is
    inserted behind every entry whose score is at most its own and before
    every entry that scores higher, the other entries keep their order
    (ties are served first in, first out); the result is sorted again. *)
Theorem pushPQ_stable dockPos pq g p :
  Ordered pq → findCell g PROBE = Some p →
  ∃ l1 l2, pq = l1 ++ l2 ∧
    pushPQ dockPos pq g = l1 ++ (g, manhattan p dockPos) :: l2 ∧
    Forall (λ e, e.2 ≤ manhattan p dockPos) l1 ∧
    Forall (λ e, manhattan p dockPos < e.2) l2 ∧
    Ordered (pushPQ dockPos pq g).
Proof.
  intros Hord Hp. unfold pushPQ. rewrite Hp.
  destruct (sortPQ_snoc pq (g, manhattan p dockPos) Hord) as (l1 & l2 & -> & Hs & H1 & H2).
  exists l1, l2. rewrite Hs. repeat split; [done..|]. by apply Ordered_insert.
Qed.

Lemma pushPQ_stable_witness :
  ∃ l1 l2, [(grid5, 3); (grid5, 4); (grid5, 6)] = l1 ++ l2 ∧
    pushPQ (mkPos 3 3) [(grid5, 3); (grid5, 4); (grid5, 6)] grid5 =
      l1 ++ (grid5, manhattan (mkPos 1 1) (mkPos 3 3)) :: l2 ∧
    Forall (λ e, e.2 ≤ manhattan (mkPos 1 1) (mkPos 3 3)) l1 ∧
    Forall (λ e, manhattan (mkPos 1 1) (mkPos 3 3) < e.2) l2 ∧
    Ordered (pushPQ (mkPos 3 3) [(grid5, 3); (grid5, 4); (grid5, 6)] grid5).
Proof.
  apply (pushPQ_stable (mkPos 3 3) [(grid5, 3); (grid5, 4); (grid5, 6)] grid5 (mkPos 1 1)).
  - simpl. repeat split; repeat constructor; simpl; lia.
  - reflexivity.
Defined.

(** X14.  Greedy selection: in every state the loop of [bestFirstSolve]
    reaches, the frontier is sorted, so the configuration it takes next is
    one whose probe has the least Manhattan distance to the dock among all
    frontier entries. *)
Theorem best_takes_least start dockPos maxNodes st grid sc rest :
  Iterates (bestStep dockPos maxNodes) (bestInit dockPos start) st →
  f_pq st = (grid, sc) :: rest →
  ∃ p, findCell grid PROBE = Some p ∧ sc = manhattan p dockPos ∧
    Forall (λ e, ∃ q, findCell e.1 PROBE = Some q ∧ e.2 = manhattan q dockPos ∧
                      manhattan p dockPos ≤ manhattan q dockPos) rest.
Proof.
  intros Hit Hpq. destruct (best_frontier_ordered _ _ _ _ Hit) as [Hord Hsc].
  rewrite Hpq in Hord, Hsc. destruct Hord as [Hle _].
  apply Forall_cons in Hsc as [(p & Hp & Hs) Hsc]. simpl in Hp, Hs.
  exists p. split; [done|]. split; [done|].
  apply Forall_forall. intros e He.
  eapply Forall_forall in Hle; [|exact He]. eapply Forall_forall in Hsc; [|exact He].
  destruct Hsc as (q & Hq & Hsq). exists q. simpl in Hle. repeat split; [done..|]. lia.
Qed.

Lemma best_takes_least_witness :
  ∃ p,
    findCell [ [WALL; WALL;  WALL;  WALL;  WALL];
               [WALL; EMPTY; AST;   EMPTY; WALL];
               [WALL; PROBE; EMPTY; EMPTY; WALL];
               [WALL; EMPTY; EMPTY; DOCK;  WALL];
               [WALL; WALL;  WALL;  WALL;  WALL] ] PROBE = Some p ∧
    3 = manhattan p (mkPos 3 3) ∧
    Forall (λ e : Grid * Z, ∃ q, findCell e.1 PROBE = Some q ∧
                      e.2 = manhattan q (mkPos 3 3) ∧
                      manhattan p (mkPos 3 3) ≤ manhattan q (mkPos 3 3))
           [ ([ [WALL; WALL;  WALL;  WALL;  WALL];
                [WALL; EMPTY; PROBE; AST;   WALL];
                [WALL; EMPTY; EMPTY; EMPTY; WALL];
                [WALL; EMPTY; EMPTY; DOCK;  WALL];
                [WALL; WALL;  WALL;  WALL;  WALL] ], 3) ].
Proof.
  eapply (best_takes_least grid5 (mkPos 3 3) 10).
  - eapply Iterates_step; [apply Iterates_start|]. vm_compute. reflexivity.
  - reflexivity.
Defined.
End priority_queue.

Section editor_grids.
Implicit Types (g : Grid) (r c n m : Z) (v x : Cell).

(** *** Fresh grids *)

Lemma cellAt_emptyGrid n m r c :
  cellAt (emptyGrid n m) r c =
  if decide (0 ≤ r < n ∧ 0 ≤ c < m) then Some EMPTY else None.
Proof.
  unfold cellAt, emptyGrid.
  destruct (0 <=? r) eqn:Hr, (0 <=? c) eqn:Hc; simpl;
    try (rewrite decide_False; [done|]; apply Z.leb_gt in Hr || apply Z.leb_gt in Hc; lia).
  apply Z.leb_le in Hr, Hc.
  case_decide as Hd.
  - rewrite lookup_replicate_2 by lia. simpl. by rewrite lookup_replicate_2 by lia.
  - destruct (decide (r < n)) as [Hrn|Hrn].
    + rewrite lookup_replicate_2 by lia. simpl.
      apply lookup_replicate_None. lia.
    + rewrite (proj1 (lookup_replicate_None _ _ _)) by lia. done.
Qed.

Lemma emptyGrid_shape n m :
  length <$> emptyGrid n m = replicate (Z.to_nat n) (Z.to_nat m).
Proof.
  unfold emptyGrid. rewrite fmap_replicate. by rewrite length_replicate.
Qed.

Lemma shape_rect g g' : length <$> g = length <$> g' → rect g → rect g'.
Proof.
  intros Hs Hr. unfold rect in *. rewrite <-(shape_width _ _ Hs).
  apply (Forall_fmap length (λ k, k = width g)).
  rewrite <-Hs. by apply (Forall_fmap length (λ k, k = width g)).
Qed.

Lemma shape_cellAt g g' r c :
  length <$> g = length <$> g' → is_Some (cellAt g r c) → is_Some (cellAt g' r c).
Proof.
  intros Hs [x (Hr & Hc & row & Hrow & Hx)%cellAt_Some].
  assert ((length <$> g') !! Z.to_nat r = Some (length row)) as Hl
    by (by rewrite <-Hs, list_lookup_fmap, Hrow).
  rewrite list_lookup_fmap in Hl.
  destruct (g' !! Z.to_nat r) as [row'|] eqn:Hrow'; [|done].
  injection Hl as Hl.
  destruct (lookup_lt_is_Some_2 row' (Z.to_nat c)) as [y Hy].
  { rewrite Hl. by eapply lookup_lt_Some. }
  exists y. apply cellAt_Some. eauto.
Qed.

Section fold_walls.
Context (step : Grid → Z → Grid) (T : Z → Z → Z → Prop).
Context `{∀ i r c, Decision (T i r c)}.
Hypothesis step_hit : ∀ g i r c,
  T i r c → cellAt (step g i) r c = (λ _, WALL) <$> cellAt g r c.
Hypothesis step_miss : ∀ g i r c,
  ¬ T i r c → cellAt (step g i) r c = cellAt g r c.

Lemma fold_walls_miss l : ∀ g r c,
  Forall (λ i, ¬ T i r c) l → cellAt (foldl step g l) r c = cellAt g r c.
Proof.
  induction l as [|i l IH]; intros g r c Hall; [done|].
  apply Forall_cons in Hall as [Hi Hall]. simpl.
  rewrite IH by done. by apply step_miss.
Qed.

Lemma fold_walls_hit l : ∀ g r c,
  Exists (λ i, T i r c) l →
  cellAt (foldl step g l) r c = (λ _, WALL) <$> cellAt g r c.
Proof.
  induction l as [|i l IH]; intros g r c Hex; [by apply Exists_nil in Hex|].
  simpl. destruct (decide (Exists (λ i, T i r c) l)) as [Hl|Hl].
  - rewrite IH by done. destruct (decide (T i r c)).
    + rewrite step_hit by done. by destruct (cellAt g r c).
    + by rewrite step_miss.
  - apply not_Exists_Forall in Hl; [|intros ?; apply _].
    rewrite fold_walls_miss by done.
    apply Exists_cons in Hex as [Hi|Hex]; [by apply step_hit|].
    exfalso. apply Exists_exists in Hex as (j & Hj & HT).
    eapply Forall_forall in Hl; [|exact Hj]. done.
Qed.
End fold_walls.

Lemma borderWalls_shape n m g : length <$> borderWalls n m g = length <$> g.
Proof.
  unfold borderWalls.
  assert (∀ (f : Grid → Z → Grid) l g0,
            (∀ g1 i, length <$> f g1 i = length <$> g1) →
            length <$> foldl f g0 l = length <$> g0) as Hfold.
  { intros f l. induction l as [|i l IH]; intros g0 Hf; [done|].
    simpl. rewrite IH by done. apply Hf. }
  rewrite !Hfold; [done|intros; by rewrite !setCell_shape..].
Qed.

(** The cells of a bordered grid: the border cells that exist hold [WALL],
    the others are as before. *)
Lemma cellAt_borderWalls n m g r c :
  cellAt (borderWalls n m g) r c =
  if decide ((0 ≤ r < n ∧ (c = 0 ∨ c = m - 1)) ∨ (0 ≤ c < m ∧ (r = 0 ∨ r = n - 1)))
  then (λ _, WALL) <$> cellAt g r c else cellAt g r c.
Proof.
  unfold borderWalls.
  set (step1 := λ (g : Grid) (r : Z), setCell (setCell g r 0 WALL) r (m - 1) WALL).
  set (step2 := λ (g : Grid) (c : Z), setCell (setCell g 0 c WALL) (n - 1) c WALL).
  set (T1 := λ i r c : Z, r = i ∧ (c = 0 ∨ c = m - 1)).
  set (T2 := λ i r c : Z, c = i ∧ (r = 0 ∨ r = n - 1)).
  assert (∀ g i r c, T1 i r c → cellAt (step1 g i) r c = (λ _, WALL) <$> cellAt g r c) as H1.
  { intros g0 i r0 c0 [-> Hc]. unfold step1. rewrite !cellAt_setCell.
    repeat case_decide; try done; try (by destruct (cellAt g0 i c0)); exfalso; lia. }
  assert (∀ g i r c, ¬ T1 i r c → cellAt (step1 g i) r c = cellAt g r c) as H1'.
  { intros g0 i r0 c0 Hn. unfold step1, T1 in *. rewrite !cellAt_setCell.
    repeat case_decide; try done; exfalso; apply Hn; lia. }
  assert (∀ g i r c, T2 i r c → cellAt (step2 g i) r c = (λ _, WALL) <$> cellAt g r c) as H2.
  { intros g0 i r0 c0 [-> Hc]. unfold step2. rewrite !cellAt_setCell.
    repeat case_decide; try done; try (by destruct (cellAt g0 r0 i)); exfalso; lia. }
  assert (∀ g i r c, ¬ T2 i r c → cellAt (step2 g i) r c = cellAt g r c) as H2'.
  { intros g0 i r0 c0 Hn. unfold step2, T2 in *. rewrite !cellAt_setCell.
    repeat case_decide; try done; exfalso; apply Hn; lia. }
  assert (Exists (λ i, T1 i r c) (seqZ 0 n) ↔ 0 ≤ r < n ∧ (c = 0 ∨ c = m - 1)) as E1.
  { rewrite Exists_exists. unfold T1. setoid_rewrite elem_of_seqZ. naive_solver lia. }
  assert (Exists (λ i, T2 i r c) (seqZ 0 m) ↔ 0 ≤ c < m ∧ (r = 0 ∨ r = n - 1)) as E2.
  { rewrite Exists_exists. unfold T2. setoid_rewrite elem_of_seqZ. naive_solver lia. }
  destruct (decide (Exists (λ i, T2 i r c) (seqZ 0 m))) as [Hb|Hb];
    destruct (decide (Exists (λ i, T1 i r c) (seqZ 0 n))) as [Ha|Ha].
  - rewrite (fold_walls_hit step2 T2 H2 H2') by done.
    rewrite (fold_walls_hit step1 T1 H1 H1') by done.
    rewrite decide_True by tauto. by destruct (cellAt g r c).
  - rewrite (fold_walls_hit step2 T2 H2 H2') by done.
    apply not_Exists_Forall in Ha; [|intros ?; apply _].
    rewrite (fold_walls_miss step1 T1 H1') by done.
    rewrite decide_True by tauto. done.
  - apply not_Exists_Forall in Hb; [|intros ?; apply _].
    rewrite (fold_walls_miss step2 T2 H2') by done.
    rewrite (fold_walls_hit step1 T1 H1 H1') by done.
    rewrite decide_True by tauto. done.
  - rewrite decide_False by tauto.
    apply not_Exists_Forall in Ha; [|intros ?; apply _].
    apply not_Exists_Forall in Hb; [|intros ?; apply _].
    rewrite (fold_walls_miss step2 T2 H2') by done.
    by rewrite (fold_walls_miss step1 T1 H1') by done.
Qed.

(** A fresh bordered grid of at least 1 by 1. *)
Lemma cellAt_fresh n m r c :
  1 ≤ n → 1 ≤ m →
  cellAt (borderWalls n m (emptyGrid n m)) r c =
  if decide (0 ≤ r < n ∧ 0 ≤ c < m)
  then Some (if decide (r = 0 ∨ c = 0 ∨ r = n - 1 ∨ c = m - 1) then WALL else EMPTY)
  else None.
Proof.
  intros Hn Hm. rewrite cellAt_borderWalls, cellAt_emptyGrid.
  repeat case_decide; simpl; try done; exfalso; lia.
Qed.

Lemma fresh_dims n m :
  1 ≤ n →
  length (borderWalls n m (emptyGrid n m)) = Z.to_nat n ∧
  width (borderWalls n m (emptyGrid n m)) = Z.to_nat m ∧
  rect (borderWalls n m (emptyGrid n m)).
Proof.
  intros Hn. pose proof (borderWalls_shape n m (emptyGrid n m)) as Hs.
  assert (length (emptyGrid n m) = Z.to_nat n) as Hl
    by (unfold emptyGrid; by rewrite length_replicate).
  assert (width (emptyGrid n m) = Z.to_nat m) as Hw.
  { unfold emptyGrid. destruct (Z.to_nat n) eqn:E; [lia|]. simpl.
    by rewrite length_replicate. }
  assert (rect (emptyGrid n m)) as Hr.
  { unfold rect. rewrite Hw. unfold emptyGrid. apply Forall_replicate.
    by rewrite length_replicate. }
  split; [by rewrite (shape_length _ _ Hs)|].
  split; [by rewrite (shape_width _ _ Hs)|].
  eapply shape_rect; [symmetry; exact Hs|done].
Qed.

Lemma countCell_zero g v : (∀ r c, cellAt g r c ≠ Some v) → countCell g v = 0%nat.
Proof.
  intros Hno. unfold countCell.
  destruct (filter (λ x, x = v) (concat g)) as [|y l] eqn:Hf; [done|exfalso].
  assert (y ∈ filter (λ x, x = v) (concat g)) as Hin by (rewrite Hf; by left).
  apply list_elem_of_filter in Hin as [-> Hin].
  apply list_elem_of_In, in_concat in Hin as (row & Hrow & Hin).
  apply list_elem_of_In, list_elem_of_lookup in Hrow as [i Hi].
  apply list_elem_of_In, list_elem_of_lookup in Hin as [j Hj].
  apply (Hno (Z.of_nat i) (Z.of_nat j)). apply cellAt_Some.
  split; [lia|]. split; [lia|]. exists row. by rewrite !Nat2Z.id.
Qed.
End editor_grids.

Section new_grid.
Implicit Types (g : Grid) (r c n m : Z) (v x : Cell).

Lemma fresh_no_piece n m v :
  1 ≤ n → 1 ≤ m → v ≠ WALL → v ≠ EMPTY →
  countCell (borderWalls n m (emptyGrid n m)) v = 0%nat.
Proof.
  intros Hn Hm Hw He. apply countCell_zero. intros r c.
  rewrite cellAt_fresh by done. repeat case_decide; congruence.
Qed.

(** X15.  [makeGridFromInputs].  The size it applies is the parsed value
    (8 and 12 where parsing gives no finite number) raised to 5, and the
    size message is shown exactly when a value was below 5.  When an
    applied size is 2^32 or more, building the grid raises a RangeError and
    no grid is set.  Otherwise the new grid is rectangular with the applied
    numbers of rows and columns, its border cells hold [WALL] and all
    other cells [EMPTY]; since it holds neither a probe nor a dock, each
    engine returns on it at once, with no path and no expansion. *)
Theorem makeGridFromInputs_fresh nParsed mParsed :
  ((makeGridFromInputs nParsed mParsed).2 = true ↔
   default DEFAULT_N nParsed < minSize ∨ default DEFAULT_M mParsed < minSize) ∧
  (arrayLimit ≤ Z.max minSize (default DEFAULT_N nParsed) ∨
   arrayLimit ≤ Z.max minSize (default DEFAULT_M mParsed) →
   (makeGridFromInputs nParsed mParsed).1 = None) ∧
  (Z.max minSize (default DEFAULT_N nParsed) < arrayLimit →
   Z.max minSize (default DEFAULT_M mParsed) < arrayLimit →
   ∃ g, (makeGridFromInputs nParsed mParsed).1 = Some g ∧
     length g = Z.to_nat (Z.max minSize (default DEFAULT_N nParsed)) ∧
     width g = Z.to_nat (Z.max minSize (default DEFAULT_M mParsed)) ∧
     rect g ∧
     (∀ r c,
        cellAt g r c =
        if decide (0 ≤ r < Z.max minSize (default DEFAULT_N nParsed) ∧
                   0 ≤ c < Z.max minSize (default DEFAULT_M mParsed))
        then Some (if decide (r = 0 ∨ c = 0 ∨
                              r = Z.max minSize (default DEFAULT_N nParsed) - 1 ∨
                              c = Z.max minSize (default DEFAULT_M mParsed) - 1)
                   then WALL else EMPTY)
        else None) ∧
     (∀ maxNodes,
        dfsSolve g maxNodes = Some (mkResult None 0 []) ∧
        bfsSolve g maxNodes = Some (mkResult None 0 []) ∧
        bestFirstSolve g maxNodes = Some (mkResult None 0 []))).
Proof.
  unfold makeGridFromInputs. cbn [fst snd].
  set (n0 := default DEFAULT_N nParsed). set (m0 := default DEFAULT_M mParsed).
  assert ((if n0 <? minSize then minSize else n0) = Z.max minSize n0) as ->.
  { destruct (n0 <? minSize) eqn:E;
      [apply Z.ltb_lt in E|apply Z.ltb_ge in E]; lia. }
  assert ((if m0 <? minSize then minSize else m0) = Z.max minSize m0) as ->.
  { destruct (m0 <? minSize) eqn:E;
      [apply Z.ltb_lt in E|apply Z.ltb_ge in E]; lia. }
  set (n := Z.max minSize n0). set (m := Z.max minSize m0).
  assert (1 ≤ n ∧ 1 ≤ m) as [Hn Hm] by (unfold n, m, minSize; lia).
  clearbody n m.
  split.
  { rewrite orb_true_iff, !Z.ltb_lt. done. }
  split.
  { intros Hbig.
    destruct (arrayLimit <=? n) eqn:En; [done|].
    destruct (arrayLimit <=? m) eqn:Em; [done|].
    apply Z.leb_gt in En, Em. lia. }
  intros Hln Hlm.
  rewrite (proj2 (Z.leb_gt arrayLimit n) Hln), (proj2 (Z.leb_gt arrayLimit m) Hlm).
  cbn [orb]. exists (borderWalls n m (emptyGrid n m)).
  destruct (fresh_dims n m Hn) as (Hl & Hw & Hr).
  split; [done|]. split; [done|]. split; [done|]. split; [done|].
  split; [intros r c; by apply cellAt_fresh|].
  intros maxNodes.
  assert (findCell (borderWalls n m (emptyGrid n m)) DOCK = None) as Hd
    by (apply countCell_zero_findCell; by apply fresh_no_piece).
  unfold dfsSolve, bfsSolve, bestFirstSolve. by rewrite Hd.
Qed.
End new_grid.

Section editor_tools.
Implicit Types (g : Grid) (r c : Z) (v x old : Cell) (tool : Tool.t).

(** *** Painting *)

Lemma isBorder_onBorder g r c :
  g ≠ [] → isBorder g r c = Some (bool_decide (onBorder g r c)).
Proof.
  intros Hg. unfold isBorder, onBorder. destruct g as [|row0 g]; [done|].
  cbn [width]. repeat case_bool_decide; simpl; try done; exfalso; tauto.
Qed.

Lemma assign_Some g r c v old :
  cellAt g r c = Some old → assign g r c v = Some (setCell g r c v).
Proof. intros H. unfold assign. rewrite decide_True; [done|by rewrite H]. Qed.

Lemma clearPrev_shape g v : length <$> clearPrev g v = length <$> g.
Proof. unfold clearPrev. destruct (findCell g v); [apply setCell_shape|done]. Qed.

Lemma rect_count_zero g v : rect g → findCell g v = None → countCell g v = 0%nat.
Proof.
  intros Hr Hf. apply countCell_zero. intros r c Hc.
  destruct (rect_findCell g r c v Hr Hc) as [p Hp]. congruence.
Qed.

Lemma clearPrev_cells g v r c :
  rect g → (countCell g v ≤ 1)%nat →
  cellAt (clearPrev g v) r c =
  (λ x, if decide (x = v) then EMPTY else x) <$> cellAt g r c.
Proof.
  intros Hr Hcnt. unfold clearPrev.
  destruct (findCell g v) as [prev|] eqn:Hf.
  - pose proof (findCell_Some _ _ _ Hf) as [Hprev _].
    pose proof (countCell_pos _ _ _ _ Hprev) as Hpos.
    assert (countCell g v = 1%nat) as H1 by lia.
    rewrite cellAt_setCell. case_decide as Hd.
    + destruct Hd as [<- <-]. rewrite Hprev. simpl. by rewrite decide_True.
    + destruct (cellAt g r c) as [x|] eqn:Hx; [|done]. simpl.
      case_decide as Hxv; [|done]. subst x. exfalso. apply Hd.
      by eapply countCell_one_unique.
  - destruct (cellAt g r c) as [x|] eqn:Hx; [|done]. simpl.
    case_decide as Hxv; [|done]. subst x.
    pose proof (rect_count_zero g v Hr Hf) as H0.
    apply countCell_pos in Hx. lia.
Qed.

Lemma clearPrev_count g v x :
  rect g → (countCell g v ≤ 1)%nat → v ≠ EMPTY → x ≠ EMPTY →
  countCell (clearPrev g v) x = if decide (x = v) then 0%nat else countCell g x.
Proof.
  intros Hr Hcnt Hv Hx. unfold clearPrev.
  destruct (findCell g v) as [prev|] eqn:Hf.
  - pose proof (findCell_Some _ _ _ Hf) as [Hprev _].
    pose proof (countCell_pos _ _ _ _ Hprev) as Hpos.
    pose proof (countCell_setCell g (posR prev) (posC prev) v EMPTY x Hprev) as Hc.
    rewrite (decide_False (P := EMPTY = x)) in Hc by done.
    destruct (decide (x = v)) as [->|Hxv].
    + rewrite decide_True in Hc by done. lia.
    + rewrite decide_False in Hc by done. lia.
  - destruct (decide (x = v)) as [->|Hxv]; [|done]. by apply rect_count_zero.
Qed.

Lemma cleared_none tool (o : option Cell) :
  moved tool = None → cleared tool <$> o = o.
Proof.
  intros H. destruct o as [x|]; [|done]. simpl. unfold cleared.
  rewrite H. by rewrite decide_False.
Qed.

(** The effect of a tool on a cell off the border. *)
Lemma tool_effect tool g r c old :
  EditorOk g → cellAt g r c = Some old → ¬ onBorder g r c →
  ∃ g', updateCellByTool tool g r c = Some g' ∧
    length <$> g' = length <$> g ∧
    cellAt g' r c = Some (painted tool old) ∧
    (∀ r' c', ¬ (r' = r ∧ c' = c) → cellAt g' r' c' = cleared tool <$> cellAt g r' c') ∧
    (countCell g' PROBE ≤ 1)%nat ∧ (countCell g' DOCK ≤ 1)%nat.
Proof.
  intros (Hrect & Hlen & Hwid & Hbord & Hp & Hd) Hc Hnb.
  assert (g ≠ []) as Hg by (intros ->; unfold minSize in Hlen; simpl in Hlen; lia).
  unfold updateCellByTool. rewrite (isBorder_onBorder g r c Hg).
  rewrite bool_decide_eq_false_2 by done. cbn [mbind option_bind]. rewrite cloneGrid_id.
  destruct tool.
  - (* probe *)
    assert (cellAt (clearPrev g PROBE) r c =
            Some (if decide (old = PROBE) then EMPTY else old)) as Hc1
      by (by rewrite clearPrev_cells, Hc).
    rewrite (assign_Some _ _ _ _ _ Hc1). eexists. split; [done|].
    split; [by rewrite setCell_shape, clearPrev_shape|].
    split; [by eapply cellAt_setCell_eq|].
    split.
    { intros r' c' Hne. rewrite cellAt_setCell_ne by (intros [? ?]; by apply Hne).
      rewrite clearPrev_cells by done. destruct (cellAt g r' c') as [x|]; [|done].
      simpl. unfold cleared. simpl. f_equal.
      repeat case_decide; congruence. }
    pose proof (countCell_setCell _ r c _ PROBE PROBE Hc1) as HP.
    pose proof (countCell_setCell _ r c _ PROBE DOCK Hc1) as HD.
    rewrite (clearPrev_count g PROBE PROBE) in HP by done.
    rewrite (clearPrev_count g PROBE DOCK) in HD by done.
    split; repeat case_decide; try congruence; lia.
  - (* dock *)
    assert (cellAt (clearPrev g DOCK) r c =
            Some (if decide (old = DOCK) then EMPTY else old)) as Hc1
      by (by rewrite clearPrev_cells, Hc).
    rewrite (assign_Some _ _ _ _ _ Hc1). eexists. split; [done|].
    split; [by rewrite setCell_shape, clearPrev_shape|].
    split; [by eapply cellAt_setCell_eq|].
    split.
    { intros r' c' Hne. rewrite cellAt_setCell_ne by (intros [? ?]; by apply Hne).
      rewrite clearPrev_cells by done. destruct (cellAt g r' c') as [x|]; [|done].
      simpl. unfold cleared. simpl. f_equal.
      repeat case_decide; congruence. }
    pose proof (countCell_setCell _ r c _ DOCK PROBE Hc1) as HP.
    pose proof (countCell_setCell _ r c _ DOCK DOCK Hc1) as HD.
    rewrite (clearPrev_count g DOCK PROBE) in HP by done.
    rewrite (clearPrev_count g DOCK DOCK) in HD by done.
    split; repeat case_decide; try congruence; lia.
  - (* asteroid *)
    pose proof Hc as (Hr0 & Hc0 & row & Hrow & Hx)%cellAt_Some.
    rewrite (proj2 (Z.leb_le 0 r) Hr0), Hrow.
    case_decide as He.
    + rewrite (assign_Some _ _ _ _ _ Hc). eexists. split; [done|].
      split; [by rewrite setCell_shape|].
      assert (old = EMPTY) as -> by congruence.
      split; [by eapply cellAt_setCell_eq|].
      split.
      { intros r' c' Hne. rewrite cellAt_setCell_ne by (intros [? ?]; by apply Hne).
        by rewrite cleared_none. }
      pose proof (countCell_setCell _ r c _ AST PROBE Hc) as HP.
      pose proof (countCell_setCell _ r c _ AST DOCK Hc) as HD.
      split; repeat case_decide; try congruence; lia.
    + exists g. split; [done|]. split; [done|].
      split.
      { rewrite Hc. f_equal. unfold painted. rewrite decide_False; [done|congruence]. }
      split; [|done].
      intros r' c' _. by rewrite cleared_none.
  - (* wall *)
    rewrite (assign_Some _ _ _ _ _ Hc). eexists. split; [done|].
    split; [by rewrite setCell_shape|].
    split; [by eapply cellAt_setCell_eq|].
    split.
    { intros r' c' Hne. rewrite cellAt_setCell_ne by (intros [? ?]; by apply Hne).
      by rewrite cleared_none. }
    pose proof (countCell_setCell _ r c _ WALL PROBE Hc) as HP.
    pose proof (countCell_setCell _ r c _ WALL DOCK Hc) as HD.
    split; repeat case_decide; try congruence; lia.
  - (* erase *)
    rewrite (assign_Some _ _ _ _ _ Hc). eexists. split; [done|].
    split; [by rewrite setCell_shape|].
    split; [by eapply cellAt_setCell_eq|].
    split.
    { intros r' c' Hne. rewrite cellAt_setCell_ne by (intros [? ?]; by apply Hne).
      by rewrite cleared_none. }
    pose proof (countCell_setCell _ r c _ EMPTY PROBE Hc) as HP.
    pose proof (countCell_setCell _ r c _ EMPTY DOCK Hc) as HD.
    split; repeat case_decide; try congruence; lia.
Qed.

(** A result of [updateCellByTool] is the grid itself or the effect on an
    existing cell. *)
Lemma tool_defined tool g r c g' :
  updateCellByTool tool g r c = Some g' → g' = g ∨ is_Some (cellAt g r c).
Proof.
  unfold updateCellByTool. destruct (isBorder g r c) as [[|]|]; cbn [mbind option_bind];
    [intros [= <-]; by left| |done].
  rewrite cloneGrid_id. unfold assign.
  destruct tool.
  - case_decide as Hs; [|done]. intros _. right.
    eapply shape_cellAt; [|exact Hs]. apply clearPrev_shape.
  - case_decide as Hs; [|done]. intros _. right.
    eapply shape_cellAt; [|exact Hs]. apply clearPrev_shape.
  - destruct (if 0 <=? r then _ else _); [|done].
    case_decide as He; [|intros [= <-]; by left].
    intros _. right. by rewrite He.
  - case_decide; [|done]. intros _. by right.
  - case_decide; [|done]. intros _. by right.
Qed.

Lemma tool_ok tool g r c g' :
  EditorOk g → updateCellByTool tool g r c = Some g' → EditorOk g'.
Proof.
  intros Hok Hup.
  destruct (tool_defined _ _ _ _ _ Hup) as [->|[old Hc]]; [done|].
  pose proof Hok as (Hrect & Hlen & Hwid & Hbord & Hp & Hd).
  assert (g ≠ []) as Hg by (intros ->; unfold minSize in Hlen; simpl in Hlen; lia).
  destruct (decide (onBorder g r c)) as [Hb|Hnb].
  { unfold updateCellByTool in Hup. rewrite (isBorder_onBorder g r c Hg) in Hup.
    rewrite bool_decide_eq_true_2 in Hup by done. by injection Hup as <-. }
  destruct (tool_effect tool g r c old Hok Hc Hnb) as (g1 & Hup' & Hs & Hrc & Hoth & HP & HD).
  rewrite Hup in Hup'. injection Hup' as <-.
  split; [by eapply shape_rect|].
  split; [by rewrite (shape_length _ _ Hs)|].
  split; [by rewrite (shape_width _ _ Hs)|].
  split; [|done].
  intros r' c' x Hx Hb'. unfold onBorder in Hb'.
  rewrite (shape_length _ _ Hs), (shape_width _ _ Hs) in Hb'.
  destruct (decide (r' = r ∧ c' = c)) as [[-> ->]|Hne]; [done|].
  rewrite Hoth in Hx by done.
  destruct (cellAt g r' c') as [y|] eqn:Hy; [|done].
  pose proof (Hbord r' c' y Hy Hb') as ->.
  injection Hx as <-. unfold cleared. rewrite decide_False; [done|].
  destruct tool; simpl; congruence.
Qed.
End editor_tools.

Section editor_random.
Implicit Types (g prev : Grid) (r c : Z) (v x y : Cell) (draws : nat → bool).

(** *** Randomizing *)

(** On a rectangular grid the cells are those within the row and column
    counts. *)
Lemma rect_cellAt g r c :
  rect g → 0 ≤ r < Z.of_nat (length g) → 0 ≤ c < Z.of_nat (width g) →
  is_Some (cellAt g r c).
Proof.
  intros Hrect Hr Hc.
  destruct (lookup_lt_is_Some_2 g (Z.to_nat r)) as [row Hrow]; [lia|].
  pose proof (Forall_lookup_1 _ _ _ _ Hrect Hrow) as Hlen. simpl in Hlen.
  destruct (lookup_lt_is_Some_2 row (Z.to_nat c)) as [x Hx]; [lia|].
  exists x. apply cellAt_Some. split; [lia|]. split; [lia|]. eauto.
Qed.

Lemma cellRand_ext (D D' : Prop) x y : (D ↔ D') → cellRand D x y → cellRand D' x y.
Proof. unfold cellRand. case_decide; [done|]. tauto. Qed.

Lemma RandInv_ext prev (D D' : Z → Z → Prop) g :
  (∀ r c, D r c ↔ D' r c) → RandInv prev D g → RandInv prev D' g.
Proof.
  intros HD (Hs & HP & HDk & Hcells). split; [done|]. split; [done|]. split; [done|].
  intros r c x Hx. destruct (Hcells r c x Hx) as (y & Hy & Hrel).
  exists y. split; [done|]. eapply cellRand_ext; [|exact Hrel]. apply HD.
Qed.

Lemma RandInv_init prev : RandInv prev (λ _ _, False) prev.
Proof.
  split; [done|]. split; [done|]. split; [done|].
  intros r c x Hx. exists x. split; [done|].
  unfold cellRand. case_decide; [done|]. right. tauto.
Qed.

(** One cell of the inner loop. *)
Lemma randomizeCell_inv draws prev (D : Z → Z → Prop) g k r c :
  RandInv prev D g → is_Some (cellAt prev r c) →
  ∃ g' k', randomizeCell draws r (Some (g, k)) c = Some (g', k') ∧
    RandInv prev (λ r' c', D r' c' ∨ (r' = r ∧ c' = c)) g'.
Proof.
  intros (Hs & HP & HDk & Hcells) [x Hx].
  destruct (Hcells r c x Hx) as (y & Hy & Hrel).
  unfold randomizeCell. cbn [mbind option_bind]. rewrite Hy.
  assert (∀ r' c' x', ¬ (r' = r ∧ c' = c) → cellAt prev r' c' = Some x' →
            ∃ y', cellAt g r' c' = Some y' ∧
                  cellRand (D r' c' ∨ (r' = r ∧ c' = c)) x' y') as Hother.
  { intros r' c' x' Hne Hx'. destruct (Hcells r' c' x' Hx') as (y' & Hy' & Hrel').
    exists y'. split; [done|]. eapply cellRand_ext; [|exact Hrel']. tauto. }
  assert (y = PROBE ∨ y = DOCK →
          RandInv prev (λ r' c', D r' c' ∨ (r' = r ∧ c' = c)) g) as Hskip.
  { intros Hpd. split; [done|]. split; [done|]. split; [done|].
    intros r' c' x' Hx'.
    destruct (decide (r' = r ∧ c' = c)) as [[-> ->]|Hne]; [|by apply Hother].
    assert (x' = x) as -> by congruence.
    exists y. split; [done|]. unfold cellRand in *.
    case_decide; [done|]. destruct Hrel as [[_ [-> | ->]]|[_ ->]]; naive_solver. }
  assert (y ≠ PROBE → y ≠ DOCK → ∀ v, v = AST ∨ v = EMPTY →
          RandInv prev (λ r' c', D r' c' ∨ (r' = r ∧ c' = c)) (setCell g r c v)) as Hwrite.
  { intros Hyp Hyd v Hv.
    pose proof (countCell_setCell g r c y v PROBE Hy) as HcP.
    pose proof (countCell_setCell g r c y v DOCK Hy) as HcD.
    rewrite (decide_False (P := y = PROBE)) in HcP by done.
    rewrite (decide_False (P := y = DOCK)) in HcD by done.
    rewrite (decide_False (P := v = PROBE)) in HcP by (destruct Hv; congruence).
    rewrite (decide_False (P := v = DOCK)) in HcD by (destruct Hv; congruence).
    split; [by rewrite setCell_shape|]. split; [lia|]. split; [lia|].
    intros r' c' x' Hx'.
    destruct (decide (r' = r ∧ c' = c)) as [[-> ->]|Hne].
    - assert (x' = x) as -> by congruence.
      exists v. split; [by eapply cellAt_setCell_eq|].
      unfold cellRand in *. case_decide as Hpd; [exfalso; destruct Hpd; congruence|].
      left. tauto.
    - rewrite cellAt_setCell_ne by (intros [? ?]; by apply Hne). by apply Hother. }
  destruct y;
    try (exists g, k; split; [done|]; apply Hskip; tauto);
    (eexists _, _; split; [done|]; apply Hwrite;
       [done|done|destruct (draws k); tauto]).
Qed.

(** The inner loop over the columns [cs] of row [r]. *)
Lemma randomize_row draws prev r cs : ∀ (D : Z → Z → Prop) g k,
  RandInv prev D g → (∀ c, c ∈ cs → is_Some (cellAt prev r c)) →
  ∃ g' k', foldl (randomizeCell draws r) (Some (g, k)) cs = Some (g', k') ∧
    RandInv prev (λ r' c', D r' c' ∨ (r' = r ∧ c' ∈ cs)) g'.
Proof.
  induction cs as [|c cs IH]; intros D g k Hinv Hcs.
  - exists g, k. split; [done|]. eapply RandInv_ext; [|exact Hinv].
    intros r' c'. rewrite elem_of_nil. tauto.
  - destruct (randomizeCell_inv draws prev D g k r c Hinv) as (g1 & k1 & Hstep & Hinv1).
    { apply Hcs. by left. }
    destruct (IH _ g1 k1 Hinv1) as (g2 & k2 & Hfold & Hinv2).
    { intros c' Hc'. apply Hcs. by right. }
    exists g2, k2. cbn [foldl]. rewrite Hstep. split; [done|].
    eapply RandInv_ext; [|exact Hinv2].
    intros r' c'. rewrite elem_of_cons. tauto.
Qed.

(** The outer loop over the rows [rs]. *)
Lemma randomize_rows draws prev cs rs : ∀ (D : Z → Z → Prop) g k,
  RandInv prev D g → (∀ r c, r ∈ rs → c ∈ cs → is_Some (cellAt prev r c)) →
  ∃ g' k',
    foldl (λ acc r, foldl (randomizeCell draws r) acc cs) (Some (g, k)) rs =
      Some (g', k') ∧
    RandInv prev (λ r' c', D r' c' ∨ (r' ∈ rs ∧ c' ∈ cs)) g'.
Proof.
  induction rs as [|r rs IH]; intros D g k Hinv Hrs.
  - exists g, k. split; [done|]. eapply RandInv_ext; [|exact Hinv].
    intros r' c'. rewrite elem_of_nil. tauto.
  - destruct (randomize_row draws prev r cs D g k Hinv) as (g1 & k1 & Hrow & Hinv1).
    { intros c Hc. apply Hrs; [by left|done]. }
    destruct (IH _ g1 k1 Hinv1) as (g2 & k2 & Hfold & Hinv2).
    { intros r' c' Hr' Hc'. apply Hrs; [by right|done]. }
    exists g2, k2. cbn [foldl]. rewrite Hrow. split; [done|].
    eapply RandInv_ext; [|exact Hinv2].
    intros r' c'. rewrite elem_of_cons. naive_solver.
Qed.

Lemma randomize_inv draws prev :
  rect prev → prev ≠ [] →
  ∃ g, randomizeAsteroids draws prev = Some g ∧ RandInv prev (interior prev) g.
Proof.
  intros Hrect Hne. unfold randomizeAsteroids.
  destruct prev as [|row0 rest] eqn:Eprev; [done|]. rewrite <-Eprev in *.
  assert (length row0 = width prev) as Hw by (by rewrite Eprev).
  replace (length (row0 :: rest)) with (length prev) by (by rewrite Eprev).
  rewrite Hw, cloneGrid_id.
  destruct (randomize_rows draws prev (seqZ 1 (Z.of_nat (width prev) - 2))
              (seqZ 1 (Z.of_nat (length prev) - 2)) (λ _ _, False) prev 0%nat)
    as (g & k & Hfold & Hinv).
  { apply RandInv_init. }
  { intros r c Hr%elem_of_seqZ Hc%elem_of_seqZ. apply rect_cellAt; [done|lia..]. }
  exists g. rewrite Hfold. split; [done|].
  eapply RandInv_ext; [|exact Hinv].
  intros r c. unfold interior. rewrite !elem_of_seqZ. split; [|lia].
  intros [[]|?]. lia.
Qed.

Lemma random_ok draws g g' :
  EditorOk g → randomizeAsteroids draws g = Some g' → EditorOk g'.
Proof.
  intros (Hrect & Hlen & Hwid & Hbord & Hp & Hd) Hrand.
  assert (g ≠ []) as Hg by (intros ->; unfold minSize in Hlen; simpl in Hlen; lia).
  destruct (randomize_inv draws g Hrect Hg) as (g1 & Hrand' & Hs & HP & HD & Hcells).
  rewrite Hrand in Hrand'. injection Hrand' as <-.
  split; [eapply shape_rect; [symmetry; exact Hs|done]|].
  split; [by rewrite (shape_length _ _ Hs)|].
  split; [by rewrite (shape_width _ _ Hs)|].
  split; [|lia].
  intros r c y Hy Hb. unfold onBorder in Hb.
  rewrite (shape_length _ _ Hs), (shape_width _ _ Hs) in Hb.
  destruct (shape_cellAt g' g r c Hs) as [x Hx]; [by rewrite Hy|].
  destruct (Hcells r c x Hx) as (y' & Hy' & Hrel).
  assert (y' = y) as -> by congruence.
  pose proof (Hbord r c x Hx Hb) as ->.
  unfold cellRand in Hrel. case_decide as Hpd; [done|].
  destruct Hrel as [[Hint _]|[_ ->]]; [|done].
  unfold interior in Hint. exfalso. lia.
Qed.

(** X17.  [randomizeAsteroids] on a rectangular grid with at least one
    row: the call returns a grid of the same shape; every cell off the
    border that holds neither the probe nor the dock ends up an asteroid or
    empty (walls inside the border are lost), every other cell is
    unchanged; the numbers of probes and docks are as before.  This holds
    for every sequence of random draws. *)
Theorem randomizeAsteroids_effect draws prev :
  rect prev → prev ≠ [] →
  ∃ g, randomizeAsteroids draws prev = Some g ∧
    length <$> g = length <$> prev ∧
    countCell g PROBE = countCell prev PROBE ∧
    countCell g DOCK = countCell prev DOCK ∧
    ∀ r c x, cellAt prev r c = Some x →
      ∃ y, cellAt g r c = Some y ∧
        (interior prev r c → x ≠ PROBE → x ≠ DOCK → y = AST ∨ y = EMPTY) ∧
        (¬ interior prev r c ∨ x = PROBE ∨ x = DOCK → y = x).
Proof.
  intros Hrect Hne.
  destruct (randomize_inv draws prev Hrect Hne) as (g & Hrand & Hs & HP & HD & Hcells).
  exists g. split; [done|]. split; [done|]. split; [done|]. split; [done|].
  intros r c x Hx. destruct (Hcells r c x Hx) as (y & Hy & Hrel).
  exists y. split; [done|]. unfold cellRand in Hrel.
  case_decide as Hpd; [split; [tauto|done]|].
  destruct Hrel as [[Hint Hv]|[Hint ->]]; split; try done; tauto.
Qed.
End editor_random.

Section editor_claims.
Implicit Types (g : Grid) (r c : Z) (v x old : Cell) (tool : Tool.t).

Lemma randomizeAsteroids_effect_witness :
  ∃ g, randomizeAsteroids (λ _, true) grid5 = Some g ∧
    length <$> g = length <$> grid5 ∧
    countCell g PROBE = countCell grid5 PROBE ∧
    countCell g DOCK = countCell grid5 DOCK ∧
    ∀ r c x, cellAt grid5 r c = Some x →
      ∃ y, cellAt g r c = Some y ∧
        (interior grid5 r c → x ≠ PROBE → x ≠ DOCK → y = AST ∨ y = EMPTY) ∧
        (¬ interior grid5 r c ∨ x = PROBE ∨ x = DOCK → y = x).
Proof.
  apply (randomizeAsteroids_effect (λ _, true) grid5).
  - unfold rect. vm_compute. repeat constructor.
  - discriminate.
Defined.

(** *** The grids of the editor *)

Lemma initialGrid_ok : EditorOk initialGrid.
Proof.
  split; [unfold rect; vm_compute; repeat constructor|].
  split; [vm_compute; discriminate|]. split; [vm_compute; discriminate|].
  split; [|split; vm_compute; lia].
  intros r c x Hx Hb. unfold onBorder in Hb.
  change (length initialGrid) with 8%nat in Hb.
  change (width initialGrid) with 12%nat in Hb.
  unfold initialGrid in Hx. cbv zeta in Hx.
  rewrite !cellAt_setCell in Hx.
  rewrite cellAt_fresh in Hx by (unfold DEFAULT_N, DEFAULT_M; lia).
  unfold DEFAULT_N, DEFAULT_M in Hx.
  repeat case_decide; simpl in Hx; try congruence; exfalso; lia.
Qed.

Lemma new_grid_ok n m :
  minSize ≤ n → minSize ≤ m → EditorOk (borderWalls n m (emptyGrid n m)).
Proof.
  intros Hn Hm. unfold minSize in *.
  destruct (fresh_dims n m) as (Hl & Hw & Hr); [lia|].
  split; [done|]. split; [rewrite Hl; unfold minSize; lia|].
  split; [rewrite Hw; unfold minSize; lia|].
  split.
  - intros r c x Hx Hb. unfold onBorder in Hb. rewrite Hl, Hw in Hb.
    rewrite cellAt_fresh in Hx by lia.
    repeat case_decide; try congruence. exfalso. lia.
  - rewrite !fresh_no_piece by (done || lia). lia.
Qed.

(** Every grid [makeGridFromInputs] passes to [setGrid] is a grid of the
    editor. *)
Lemma makeGridFromInputs_editor nParsed mParsed g :
  (makeGridFromInputs nParsed mParsed).1 = Some g → EditorGrid g.
Proof.
  unfold makeGridFromInputs. cbn [fst].
  destruct (_ || _); [done|]. intros [= <-].
  apply EditorGrid_new.
  - destruct (_ <? minSize) eqn:E; [done|]. by apply Z.ltb_ge in E.
  - destruct (_ <? minSize) eqn:E; [done|]. by apply Z.ltb_ge in E.
Qed.

Lemma editor_ok g : EditorGrid g → EditorOk g.
Proof.
  induction 1 as [|n m Hn Hm|tool g r c g' _ IH Hup|draws g g' _ IH Hrand].
  - apply initialGrid_ok.
  - by apply new_grid_ok.
  - by eapply tool_ok.
  - by eapply random_ok.
Qed.

(** X16.  [updateCellByTool] on a grid of the editor, applied to one of its
    cells: the update never fails and keeps the shape.  A click on a border
    cell changes nothing.  Off the border the clicked cell takes the
    tool's value (the asteroid tool paints empty cells only), the probe and
    dock tools empty the cell that held the piece before, and no other
    cell changes. *)
Theorem updateCellByTool_effect tool g r c old :
  EditorOk g → cellAt g r c = Some old →
  ∃ g', updateCellByTool tool g r c = Some g' ∧
    length <$> g' = length <$> g ∧
    (onBorder g r c → g' = g) ∧
    (¬ onBorder g r c →
       cellAt g' r c = Some (painted tool old) ∧
       ∀ r' c', ¬ (r' = r ∧ c' = c) →
         cellAt g' r' c' = cleared tool <$> cellAt g r' c').
Proof.
  intros Hok Hc.
  pose proof Hok as (Hrect & Hlen & Hwid & Hbord & Hp & Hd).
  assert (g ≠ []) as Hg by (intros ->; unfold minSize in Hlen; simpl in Hlen; lia).
  destruct (decide (onBorder g r c)) as [Hb|Hnb].
  - exists g. unfold updateCellByTool. rewrite (isBorder_onBorder g r c Hg).
    rewrite bool_decide_eq_true_2 by done. by repeat split.
  - destruct (tool_effect tool g r c old Hok Hc Hnb) as (g' & Hup & Hs & Hrc & Hoth & _).
    exists g'. split; [done|]. split; [done|]. split; [done|]. by intros _.
Qed.

Lemma updateCellByTool_effect_witness :
  ∃ g', updateCellByTool Tool.probe initialGrid 2 2 = Some g' ∧
    length <$> g' = length <$> initialGrid ∧
    (onBorder initialGrid 2 2 → g' = initialGrid) ∧
    (¬ onBorder initialGrid 2 2 →
       cellAt g' 2 2 = Some (painted Tool.probe EMPTY) ∧
       ∀ r' c', ¬ (r' = 2 ∧ c' = 2) →
         cellAt g' r' c' = cleared Tool.probe <$> cellAt initialGrid r' c').
Proof.
  apply (updateCellByTool_effect Tool.probe initialGrid 2 2 EMPTY).
  - exact initialGrid_ok.
  - reflexivity.
Defined.

(** X18.  Every grid the editor can hold (the first grid, a new grid, and
    what painting and randomizing make of such a grid) is rectangular with
    at least 5 rows and 5 columns, has [WALL] on every border cell and
    holds at most one probe and at most one dock.  On such a grid no
    update fails: painting any of its cells and randomizing return a
    grid. *)
Theorem editor_invariant g :
  EditorGrid g →
  EditorOk g ∧
  (∀ tool r c, is_Some (cellAt g r c) → is_Some (updateCellByTool tool g r c)) ∧
  (∀ draws, is_Some (randomizeAsteroids draws g)).
Proof.
  intros Hg%editor_ok. split; [done|]. split.
  - intros tool r c [old Hc].
    pose proof Hg as (Hrect & Hlen & Hwid & Hbord & Hp & Hd).
    assert (g ≠ []) as Hne by (intros ->; unfold minSize in Hlen; simpl in Hlen; lia).
    destruct (decide (onBorder g r c)) as [Hb|Hnb].
    + unfold updateCellByTool. rewrite (isBorder_onBorder g r c Hne).
      by rewrite bool_decide_eq_true_2 by done.
    + destruct (tool_effect tool g r c old Hg Hc Hnb) as (g' & -> & _). done.
  - intros draws. destruct Hg as (Hrect & Hlen & _).
    assert (g ≠ []) as Hne by (intros ->; unfold minSize in Hlen; simpl in Hlen; lia).
    destruct (randomize_inv draws g Hrect Hne) as (g' & -> & _). done.
Qed.

Lemma editor_invariant_witness :
  EditorOk [[WALL; WALL; WALL; WALL; WALL];
            [WALL; EMPTY; EMPTY; EMPTY; WALL];
            [WALL; EMPTY; PROBE; EMPTY; WALL];
            [WALL; EMPTY; EMPTY; EMPTY; WALL];
            [WALL; WALL; WALL; WALL; WALL]] ∧
  (∀ tool r c,
     is_Some (cellAt [[WALL; WALL; WALL; WALL; WALL];
                      [WALL; EMPTY; EMPTY; EMPTY; WALL];
                      [WALL; EMPTY; PROBE; EMPTY; WALL];
                      [WALL; EMPTY; EMPTY; EMPTY; WALL];
                      [WALL; WALL; WALL; WALL; WALL]] r c) →
     is_Some (updateCellByTool tool
                [[WALL; WALL; WALL; WALL; WALL];
                 [WALL; EMPTY; EMPTY; EMPTY; WALL];
                 [WALL; EMPTY; PROBE; EMPTY; WALL];
                 [WALL; EMPTY; EMPTY; EMPTY; WALL];
                 [WALL; WALL; WALL; WALL; WALL]] r c)) ∧
  (∀ draws,
     is_Some (randomizeAsteroids draws
                [[WALL; WALL; WALL; WALL; WALL];
                 [WALL; EMPTY; EMPTY; EMPTY; WALL];
                 [WALL; EMPTY; PROBE; EMPTY; WALL];
                 [WALL; EMPTY; EMPTY; EMPTY; WALL];
                 [WALL; WALL; WALL; WALL; WALL]])).
Proof.
  apply (editor_invariant
           [[WALL; WALL; WALL; WALL; WALL];
            [WALL; EMPTY; EMPTY; EMPTY; WALL];
            [WALL; EMPTY; PROBE; EMPTY; WALL];
            [WALL; EMPTY; EMPTY; EMPTY; WALL];
            [WALL; WALL; WALL; WALL; WALL]]).
  apply (EditorGrid_tool Tool.probe (borderWalls 5 5 (emptyGrid 5 5)) 2 2).
  - apply EditorGrid_new; unfold minSize; lia.
  - vm_compute. reflexivity.
Defined.

(** X19.  On a rectangular grid the bounds test [inBounds] accepts exactly
    the positions that name a cell of the grid. *)
Theorem inBounds_cells g r c :
  rect g → (inBounds g r c = true ↔ is_Some (cellAt g r c)).
Proof.
  intros Hrect. split.
  - intros (? & ? & ? & ?)%inBounds_true. apply rect_cellAt; [done|lia..].
  - by apply rect_inBounds.
Qed.

Lemma inBounds_cells_witness :
  inBounds grid5 4 4 = true ↔ is_Some (cellAt grid5 4 4).
Proof.
  apply (inBounds_cells grid5 4 4). unfold rect. vm_compute. repeat constructor.
Defined.
End editor_claims.

Section playback.
Implicit Types (g cur nxt : Grid) (r c : Z) (d : Dir) (probe : Pos).

(** *** Overlays of moving asteroids *)

(** The cells of a successor, along the line of the move. *)
Lemma moveDir_line g probe d ng :
  d ∈ DIRS → cellAt g (posR probe) (posC probe) = Some PROBE →
  moveDir g probe d = Some ng →
  length <$> ng = length <$> g ∧
  inBounds g (lineR probe d 1%nat) (lineC probe d 1%nat) = true ∧
  ((cellAt g (lineR probe d 1%nat) (lineC probe d 1%nat) = Some EMPTY ∨
    cellAt g (lineR probe d 1%nat) (lineC probe d 1%nat) = Some DOCK) ∧
   cellAt ng (lineR probe d 1%nat) (lineC probe d 1%nat) = Some PROBE ∧
   (∀ r c, ¬ (r = posR probe ∧ c = posC probe) →
           ¬ (r = lineR probe d 1%nat ∧ c = lineC probe d 1%nat) →
           cellAt ng r c = cellAt g r c)
   ∨
   ∃ k : nat, (1 ≤ k)%nat ∧
     (∀ i : nat, (1 ≤ i ≤ k)%nat →
        cellAt g (lineR probe d i) (lineC probe d i) = Some AST) ∧
     cellAt g (lineR probe d (S k)) (lineC probe d (S k)) = Some EMPTY ∧
     inBounds g (lineR probe d (S k)) (lineC probe d (S k)) = true ∧
     cellAt ng (posR probe) (posC probe) = Some EMPTY ∧
     cellAt ng (lineR probe d 1%nat) (lineC probe d 1%nat) = Some PROBE ∧
     (∀ i : nat, (2 ≤ i ≤ S k)%nat →
        cellAt ng (lineR probe d i) (lineC probe d i) = Some AST) ∧
     (∀ r c, (∀ i : nat, (i ≤ S k)%nat →
                ¬ (r = lineR probe d i ∧ c = lineC probe d i)) →
             cellAt ng r c = cellAt g r c)).
Proof.
  intros Hd Hp Hdir.
  pose proof (moveDir_shape _ _ _ _ Hdir) as Hshape.
  split; [done|].
  apply moveDir_Some_inv in Hdir. cbv zeta in Hdir.
  destruct Hdir as (Hb & Hcase).
  assert (lineR probe d 1%nat = posR probe + dr d) as E1 by (unfold lineR; simpl; lia).
  assert (lineC probe d 1%nat = posC probe + dc d) as E2 by (unfold lineC; simpl; lia).
  rewrite E1, E2. split; [done|].
  destruct Hcase as [[Hy ->]|(k & Hk & Hrun & Hbl & Hland & ->)].
  - left. split; [done|].
    destruct (step_cells g probe d Hd Hp) as (_ & Cb & Cc).
    { destruct Hy as [-> | ->]; done. }
    split; [done|]. done.
  - right. exists k. split; [done|].
    assert (∀ i : nat, (1 ≤ i ≤ k)%nat →
              cellAt g (lineR probe d i) (lineC probe d i) = Some AST) as Hrun'.
    { intros i Hi. destruct i as [|j]; [lia|].
      destruct (Hrun j ltac:(lia)) as [_ Ha].
      replace (lineR probe d (S j)) with (posR probe + dr d + Z.of_nat j * dr d)
        by (unfold lineR; lia).
      replace (lineC probe d (S j)) with (posC probe + dc d + Z.of_nat j * dc d)
        by (unfold lineC; lia).
      done. }
    assert (lineR probe d (S k) = posR probe + dr d + Z.of_nat k * dr d) as E3
      by (unfold lineR; lia).
    assert (lineC probe d (S k) = posC probe + dc d + Z.of_nat k * dc d) as E4
      by (unfold lineC; lia).
    assert (cellAt g (lineR probe d (S k)) (lineC probe d (S k)) = Some EMPTY) as Hland'
      by (by rewrite E3, E4).
    split; [done|]. split; [done|]. split; [by rewrite E3, E4|].
    rewrite <-E1, <-E2.
    by apply (push_cells g probe d k Hd Hp Hrun' Hland').
Qed.

Lemma fold_none {A B} (f : B → A → B) (l : list A) :
  ∀ b, (∀ b' x, x ∈ l → f b' x = b') → foldl f b l = b.
Proof.
  induction l as [|x l IH]; intros b Hf; [done|]. simpl.
  rewrite (Hf b x) by (by left). apply IH. intros b' y Hy. apply Hf. by right.
Qed.

Lemma fold_single {A B} (f : B → A → B) (l : list A) (x0 : A) :
  NoDup l → x0 ∈ l →
  ∀ b, (∀ b' x, x ∈ l → x ≠ x0 → f b' x = b') → foldl f b l = f b x0.
Proof.
  induction l as [|x l IH]; intros Hnd Hin b Hf; [by apply elem_of_nil in Hin|].
  apply NoDup_cons in Hnd as [Hx Hnd]. simpl.
  apply elem_of_cons in Hin as [->|Hin].
  - apply fold_none. intros b' y Hy. apply Hf; [by right|]. intros ->. done.
  - rewrite (Hf b x); [|by left|intros ->; done].
    apply IH; [done|done|]. intros b' y Hy Hne. apply Hf; [by right|done].
Qed.

Lemma isAst_true g r c : isAst g r c = true ↔ cellAt g r c = Some AST.
Proof. unfold isAst. apply bool_decide_eq_true. Qed.

Lemma isAst_false g r c : isAst g r c = false ↔ cellAt g r c ≠ Some AST.
Proof. unfold isAst. apply bool_decide_eq_false. Qed.

(** No cell loses or gains an asteroid: no overlay. *)
Lemma stepRocks_none cur nxt :
  (∀ r c, isAst cur r c && negb (isAst nxt r c) = false) → stepRocks cur nxt = [].
Proof.
  intros Hno. unfold stepRocks. apply fold_none. intros b r _.
  apply fold_none. intros b' c _. unfold rocksCell. by rewrite Hno.
Qed.

(** One cell [(r0, c0)] loses its asteroid. *)
Lemma stepRocks_single cur nxt r0 c0 :
  inBounds cur r0 c0 = true →
  (∀ r c, isAst cur r c && negb (isAst nxt r c) = true → r = r0 ∧ c = c0) →
  stepRocks cur nxt = rocksCell cur nxt r0 [] c0.
Proof.
  intros (? & ? & ? & ?)%inBounds_true Hone. unfold stepRocks.
  rewrite (fold_single _ _ r0).
  - apply fold_single; [apply NoDup_seqZ|apply elem_of_seqZ; lia|].
    intros b c _ Hc. unfold rocksCell.
    destruct (isAst cur r0 c && negb (isAst nxt r0 c)) eqn:E; [|done].
    apply Hone in E. tauto.
  - apply NoDup_seqZ.
  - apply elem_of_seqZ. lia.
  - intros b r _ Hr. apply fold_none. intros b' c _. unfold rocksCell.
    destruct (isAst cur r c && negb (isAst nxt r c)) eqn:E; [|done].
    apply Hone in E. tauto.
Qed.
End playback.

Section playback_claims.
Implicit Types (g cur nxt : Grid) (r c : Z) (d : Dir) (probe : Pos).

Lemma find_unique {A} (P : A → bool) (l : list A) (x : A) :
  (∀ y, y ∈ l → P y = true → y = x) → x ∈ l → P x = true →
  List.find P l = Some x.
Proof.
  induction l as [|y l IH]; intros Hu Hin Hx; [by apply elem_of_nil in Hin|].
  simpl. destruct (P y) eqn:Hy.
  - f_equal. apply Hu; [by left|done].
  - apply elem_of_cons in Hin as [->|Hin]; [congruence|].
    apply IH; [|done|done]. intros z Hz. apply Hu. by right.
Qed.

Lemma find_none {A} (P : A → bool) (l : list A) :
  (∀ y, y ∈ l → P y = false) → List.find P l = None.
Proof.
  induction l as [|y l IH]; intros Hn; [done|]. simpl.
  rewrite (Hn y) by (by left). apply IH. intros z Hz. apply Hn. by right.
Qed.

(** The overlays of one move. *)
Lemma stepRocks_move cur nxt probe d :
  findCell cur PROBE = Some probe → d ∈ DIRS → moveDir cur probe d = Some nxt →
  stepRocks cur nxt =
  if decide (cellAt cur (lineR probe d 1%nat) (lineC probe d 1%nat) = Some AST ∧
             cellAt cur (lineR probe d 2%nat) (lineC probe d 2%nat) = Some EMPTY)
  then [mkRock 0 (center (lineC probe d 1%nat)) (center (lineR probe d 1%nat))
               (center (lineC probe d 2%nat)) (center (lineR probe d 2%nat))]
  else [].
Proof.
  intros Hf Hd Hdir.
  pose proof Hf as [Hp _]%findCell_Some.
  destruct (moveDir_line cur probe d nxt Hd Hp Hdir) as (Hshape & Hb1 & Hcase).
  assert (lineR probe d 0%nat = posR probe) as E0r by (unfold lineR; simpl; lia).
  assert (lineC probe d 0%nat = posC probe) as E0c by (unfold lineC; simpl; lia).
  destruct Hcase as [(Hy & Hn1 & Hsame)|(k & Hk & Hrun & Hland & Hbl & Hn0 & Hn1 & Hnrun & Hsame)].
  - rewrite decide_False by (intros [Ha _]; destruct Hy; congruence).
    apply stepRocks_none. intros r c.
    destruct (decide (r = posR probe ∧ c = posC probe)) as [[-> ->]|Hne0].
    { rewrite (proj2 (isAst_false cur _ _)) by congruence. done. }
    destruct (decide (r = lineR probe d 1%nat ∧ c = lineC probe d 1%nat)) as [[-> ->]|Hne1].
    { rewrite (proj2 (isAst_false cur _ _)) by (destruct Hy; congruence). done. }
    unfold isAst. rewrite Hsame by done. by destruct (bool_decide _).
  - set (onLine := λ r c, Exists (λ i : nat, r = lineR probe d i ∧ c = lineC probe d i)
                              (seq 0 (S (S k)))).
    assert (∀ r c, ¬ onLine r c → cellAt nxt r c = cellAt cur r c) as Hoff.
    { intros r c Hno. apply Hsame. intros i Hi Heq. apply Hno.
      apply Exists_exists. exists i. split; [|done]. apply elem_of_seq. lia. }
    assert (∀ r c, isAst cur r c && negb (isAst nxt r c) = true →
                   r = lineR probe d 1%nat ∧ c = lineC probe d 1%nat) as Hlose.
    { intros r c [Ha Hb%negb_true_iff]%andb_true_iff.
      apply isAst_true in Ha. apply isAst_false in Hb.
      destruct (decide (onLine r c)) as [Hon|Hno].
      - apply Exists_exists in Hon as (i & Hi%elem_of_seq & -> & ->).
        destruct (decide (i = 0)%nat) as [->|]; [rewrite E0r, E0c in Ha; congruence|].
        destruct (decide (i = 1)%nat) as [->|]; [done|].
        destruct (decide (i = S k)) as [->|]; [congruence|].
        exfalso. apply Hb. apply Hnrun. lia.
      - rewrite (Hoff r c Hno) in Hb. done. }
    assert (∀ r c, isAst nxt r c && negb (isAst cur r c) = true →
                   r = lineR probe d (S k) ∧ c = lineC probe d (S k)) as Hgain.
    { intros r c [Ha Hb%negb_true_iff]%andb_true_iff.
      apply isAst_true in Ha. apply isAst_false in Hb.
      destruct (decide (onLine r c)) as [Hon|Hno].
      - apply Exists_exists in Hon as (i & Hi%elem_of_seq & -> & ->).
        destruct (decide (i = 0)%nat) as [->|]; [rewrite E0r, E0c in Ha; congruence|].
        destruct (decide (i = 1)%nat) as [->|]; [congruence|].
        destruct (decide (i = S k)) as [->|]; [done|].
        exfalso. apply Hb. apply Hrun. lia.
      - rewrite (Hoff r c Hno) in Ha. done. }
    rewrite (stepRocks_single cur nxt _ _ Hb1 Hlose).
    unfold rocksCell.
    rewrite (proj2 (isAst_true cur _ _)) by (apply Hrun; lia).
    rewrite (proj2 (isAst_false nxt _ _)) by congruence.
    cbn [andb negb].
    set (P := λ cand : Pos,
                inBounds nxt (posR cand) (posC cand) &&
                isAst nxt (posR cand) (posC cand) &&
                negb (isAst cur (posR cand) (posC cand))).
    assert (∀ y, P y = true →
                 posR y = lineR probe d (S k) ∧ posC y = lineC probe d (S k)) as HP.
    { intros y Hy. unfold P in Hy.
      apply andb_true_iff in Hy as [Hab Hc]. apply andb_true_iff in Hab as [_ Ha].
      apply Hgain. by rewrite Ha, Hc. }
    assert (∀ y, y ∈ candidates (lineR probe d 1%nat) (lineC probe d 1%nat) →
              (posR y = lineR probe d 1%nat - 1 ∧ posC y = lineC probe d 1%nat) ∨
              (posR y = lineR probe d 1%nat + 1 ∧ posC y = lineC probe d 1%nat) ∨
              (posR y = lineR probe d 1%nat ∧ posC y = lineC probe d 1%nat - 1) ∨
              (posR y = lineR probe d 1%nat ∧ posC y = lineC probe d 1%nat + 1)) as Hcand.
    { intros y. unfold candidates. rewrite !elem_of_cons, elem_of_nil.
      intros [->|[->|[->|[->|[]]]]]; simpl; tauto. }
    destruct (decide (k = 1)%nat) as [->|Hk2].
    + rewrite decide_True by (split; [apply Hrun; lia|done]).
      unfold rockTarget. fold P.
      rewrite (find_unique P _ (mkPos (lineR probe d 2%nat) (lineC probe d 2%nat))).
      * done.
      * intros [yr yc] _ [Hr Hc]%HP. simpl in Hr, Hc. by subst.
      * unfold candidates. rewrite !elem_of_cons.
        unfold lineR, lineC.
        destruct (DIRS_cases d Hd) as [[Er Ec]|[[Er Ec]|[[Er Ec]|[Er Ec]]]];
          rewrite Er, Ec;
          [left|right; left|right; right; left|right; right; right; left];
          f_equal; lia.
      * unfold P. simpl.
        rewrite <-(shape_inBounds _ _ _ _ Hshape) in Hbl. rewrite Hbl.
        rewrite (proj2 (isAst_true nxt _ _)) by (apply Hnrun; lia).
        rewrite (proj2 (isAst_false cur _ _)) by congruence. done.
    + rewrite decide_False.
      2:{ intros [_ He]. rewrite Hrun in He by lia. done. }
      unfold rockTarget. fold P. rewrite find_none; [done|].
      intros y Hy. destruct (P y) eqn:HPy; [exfalso|done].
      apply HP in HPy as [Hr Hc]. apply Hcand in Hy.
      unfold lineR, lineC in *.
      destruct (DIRS_cases d Hd) as [[Er Ec]|[[Er Ec]|[[Er Ec]|[Er Ec]]]];
        rewrite Er, Ec in *; lia.
Qed.

(** X20.  The asteroid overlays of playback for a step produced by
    [moveGen]: when the probe pushes a single asteroid (the cell behind it
    is empty) there is exactly one overlay, numbered 0, that runs from the
    centre of the asteroid's cell to the centre of the next cell in the
    direction of the move.  In every other case there is none: a plain
    step moves no asteroid, and for a chain of two or more asteroids the
    cell that gains an asteroid is not adjacent to the one that loses it,
    so the chain moves without an overlay. *)
Theorem stepRocks_overlay cur nxt probe d :
  findCell cur PROBE = Some probe → d ∈ DIRS → moveDir cur probe d = Some nxt →
  stepRocks cur nxt =
  if decide (cellAt cur (lineR probe d 1%nat) (lineC probe d 1%nat) = Some AST ∧
             cellAt cur (lineR probe d 2%nat) (lineC probe d 2%nat) = Some EMPTY)
  then [mkRock 0 (center (lineC probe d 1%nat)) (center (lineR probe d 1%nat))
               (center (lineC probe d 2%nat)) (center (lineR probe d 2%nat))]
  else [].
Proof. apply stepRocks_move. Qed.

Lemma stepRocks_overlay_witness :
  stepRocks grid5
    [ [WALL; WALL;  WALL;  WALL; WALL];
      [WALL; EMPTY; PROBE; AST;  WALL];
      [WALL; EMPTY; EMPTY; EMPTY; WALL];
      [WALL; EMPTY; EMPTY; DOCK;  WALL];
      [WALL; WALL;  WALL;  WALL;  WALL] ] =
  if decide (cellAt grid5 (lineR (mkPos 1 1) (mkDir 0 1 "Right") 1%nat)
                          (lineC (mkPos 1 1) (mkDir 0 1 "Right") 1%nat) = Some AST ∧
             cellAt grid5 (lineR (mkPos 1 1) (mkDir 0 1 "Right") 2%nat)
                          (lineC (mkPos 1 1) (mkDir 0 1 "Right") 2%nat) = Some EMPTY)
  then [mkRock 0 (center (lineC (mkPos 1 1) (mkDir 0 1 "Right") 1%nat))
                 (center (lineR (mkPos 1 1) (mkDir 0 1 "Right") 1%nat))
                 (center (lineC (mkPos 1 1) (mkDir 0 1 "Right") 2%nat))
                 (center (lineR (mkPos 1 1) (mkDir 0 1 "Right") 2%nat))]
  else [].
Proof.
  apply (stepRocks_overlay grid5 _ (mkPos 1 1) (mkDir 0 1 "Right")).
  - reflexivity.
  - unfold DIRS. repeat constructor.
  - reflexivity.
Defined.
End playback_claims.

Section playback_run.
Implicit Types (g cur nxt start : Grid) (gs sol : list Grid).

Lemma Path_consecutive start g gs (i : nat) cur nxt :
  Path start g gs → gs !! i = Some cur → gs !! S i = Some nxt →
  nxt ∈ moveGen cur.
Proof.
  induction 1 as [|g g' gs Hp IH Hm]; intros Hc Hn.
  - by destruct i.
  - destruct (decide (S i < length gs)%nat) as [Hlt|Hge].
    + rewrite lookup_app_l in Hc by lia. rewrite lookup_app_l in Hn by lia. by apply IH.
    + pose proof (lookup_lt_Some _ _ _ Hn) as Hlen.
      rewrite length_app in Hlen. simpl in Hlen.
      assert (S i = length gs) as Hi by lia.
      rewrite lookup_app_r in Hn by lia.
      replace (S i - length gs)%nat with 0%nat in Hn by lia. injection Hn as <-.
      rewrite lookup_app_l in Hc by lia.
      pose proof (Path_last _ _ _ Hp) as Hlast. rewrite last_lookup in Hlast.
      replace (pred (length gs)) with i in Hlast by lia.
      assert (cur = g) as -> by congruence. done.
Qed.

Lemma stepRocks_length cur nxt :
  nxt ∈ moveGen cur → (length (stepRocks cur nxt) ≤ 1)%nat.
Proof.
  intros (probe & d & Hf & Hd & Hm)%elem_of_moveGen.
  rewrite (stepRocks_move cur nxt probe d Hf Hd Hm). case_decide; simpl; lia.
Qed.

Lemma playIndex_min sol (t : nat) :
  (1 ≤ length sol)%nat → playIndex sol t = (t `min` (length sol - 1))%nat.
Proof.
  intros Hlen. unfold playIndex. induction t as [|t IH]; [done|].
  rewrite Nat.iter_succ, IH. unfold tick.
  destruct (length sol <=? t `min` (length sol - 1) + 1)%nat eqn:E;
    [apply Nat.leb_le in E|apply Nat.leb_gt in E]; lia.
Qed.

Lemma EditorOk_rows g : EditorOk g → Forall (λ row, row ≠ []) g.
Proof.
  intros (Hrect & _ & Hw & _). unfold minSize in Hw.
  eapply Forall_impl; [exact Hrect|]. simpl. intros row Hrow ->. simpl in Hrow. lia.
Qed.

(** X21.  Playback of a solution found on a grid of the editor.  When an
    engine returns a path for such a grid, the playback index after [t]
    ticks is [t], capped at the last index, so the grid shown always
    exists; the first grid shown is the grid that was solved; and each
    grid is a [moveGen] successor of the one before, so every step shows at
    most one asteroid overlay. *)
Theorem playback_in_range start maxNodes res sol :
  EditorOk start →
  dfsSolve start maxNodes = Some res ∨ bfsSolve start maxNodes = Some res ∨
  bestFirstSolve start maxNodes = Some res →
  path res = Some sol →
  sol !! 0%nat = Some start ∧
  (∀ t : nat, playIndex sol t = (t `min` (length sol - 1))%nat ∧
              is_Some (sol !! playIndex sol t)) ∧
  (∀ (i : nat) cur nxt, sol !! i = Some cur → sol !! S i = Some nxt →
     nxt ∈ moveGen cur ∧ (length (stepRocks cur nxt) ≤ 1)%nat).
Proof.
  intros Hok Hsolve Hpath.
  pose proof (returned_path_solution start maxNodes res sol
                (EditorOk_rows _ Hok) Hsolve Hpath) as (g & Hp & _).
  pose proof (Path_length _ _ _ Hp) as Hlen.
  split.
  { pose proof (Path_head _ _ _ Hp) as Hh. by rewrite head_lookup in Hh. }
  split.
  - intros t. split; [by apply playIndex_min|].
    apply lookup_lt_is_Some. rewrite playIndex_min by done. lia.
  - intros i cur nxt Hc Hn.
    pose proof (Path_consecutive _ _ _ _ _ _ Hp Hc Hn) as Hm.
    split; [done|by apply stepRocks_length].
Qed.
End playback_run.

Section playback_witness.

Lemma gridNear_editor : EditorGrid gridNear.
Proof.
  apply (EditorGrid_tool Tool.dock
           [ [WALL; WALL;  WALL;  WALL;  WALL];
             [WALL; PROBE; EMPTY; EMPTY; WALL];
             [WALL; EMPTY; EMPTY; EMPTY; WALL];
             [WALL; EMPTY; EMPTY; EMPTY; WALL];
             [WALL; WALL;  WALL;  WALL;  WALL] ] 1 2).
  - apply (EditorGrid_tool Tool.probe (borderWalls 5 5 (emptyGrid 5 5)) 1 1).
    + apply EditorGrid_new; unfold minSize; lia.
    + vm_compute. reflexivity.
  - vm_compute. reflexivity.
Qed.

Lemma playback_in_range_witness :
  [gridNear; gridDocked] !! 0%nat = Some gridNear ∧
  (∀ t : nat,
     playIndex [gridNear; gridDocked] t =
       (t `min` (length [gridNear; gridDocked] - 1))%nat ∧
     is_Some ([gridNear; gridDocked] !! playIndex [gridNear; gridDocked] t)) ∧
  (∀ (i : nat) cur nxt,
     [gridNear; gridDocked] !! i = Some cur →
     [gridNear; gridDocked] !! S i = Some nxt →
     nxt ∈ moveGen cur ∧ (length (stepRocks cur nxt) ≤ 1)%nat).
Proof.
  apply (playback_in_range gridNear 10
           (mkResult (Some [gridNear; gridDocked]) 3
                     [mkPos 1 1; mkPos 2 1; mkPos 1 2])).
  - apply editor_ok. exact gridNear_editor.
  - right. left. vm_compute. reflexivity.
  - reflexivity.
Defined.
End playback_witness.

Section expanded.
Context (start : Grid).
Implicit Types (g grid : Grid) (l waiting : list Grid) (seen : gset string).

(** *** The configurations a run expands *)

Lemma pushProbe_omap g l :
  pushProbe g (omap (λ g, findCell g PROBE) l) =
  omap (λ g, findCell g PROBE) (l ++ [g]).
Proof.
  rewrite omap_app. unfold pushProbe. simpl.
  destruct (findCell g PROBE); [done|]. by rewrite app_nil_r.
Qed.

(** A configuration is taken from the waiting ones and expanded. *)
Lemma expanded_pop seen nodes visited g waiting l :
  ExpandedIn start seen nodes visited (g :: waiting) l →
  (∃ gs, Path start g gs) →
  ExpandedIn start seen (S nodes) (pushProbe g visited) waiting (l ++ [g]).
Proof.
  intros (Hlen & Hnd & Hseen & Hpath & ->) Hg.
  split; [rewrite length_app; simpl; lia|].
  rewrite <-app_assoc. simpl.
  split; [done|]. split; [done|].
  split; [|apply pushProbe_omap].
  intros x [Hx|Hx]%elem_of_app; [by apply Hpath|].
  by apply list_elem_of_singleton in Hx as ->.
Qed.

(** A configuration with a fresh key is marked seen and waits. *)
Lemma expanded_wait seen nodes visited g waiting l :
  ExpandedIn start seen nodes visited waiting l →
  serializeGrid g ∉ seen →
  ExpandedIn start ({[serializeGrid g]} ∪ seen) nodes visited (waiting ++ [g]) l.
Proof.
  intros (Hlen & Hnd & Hseen & Hpath & Hv) Hg.
  split; [done|]. rewrite app_assoc.
  split.
  { rewrite fmap_app. simpl. apply NoDup_app. split; [done|].
    split; [|apply NoDup_singleton].
    intros k Hk Hk'. apply list_elem_of_singleton in Hk' as ->.
    apply list_elem_of_fmap in Hk as (x & Hkx & Hx). apply Hg.
    rewrite Hkx. by apply Hseen. }
  split; [|done].
  intros x [Hx|Hx]%elem_of_app.
  - apply elem_of_union_r. by apply Hseen.
  - apply list_elem_of_singleton in Hx as ->. set_solver.
Qed.

(** A configuration with a fresh key is marked seen and expanded at once. *)
Lemma expanded_one seen nodes visited g l :
  ExpandedIn start seen nodes visited [] l →
  serializeGrid g ∉ seen → (∃ gs, Path start g gs) →
  ExpandedIn start ({[serializeGrid g]} ∪ seen) (S nodes) (pushProbe g visited)
    [] (l ++ [g]).
Proof.
  intros Hexp Hg Hpath.
  apply (expanded_wait _ _ _ g) in Hexp; [|done].
  by apply expanded_pop.
Qed.

Lemma dfsStep_expanded dockPos maxNodes st out :
  DfsInv start maxNodes st →
  (∃ l, ExpandedIn start (d_seen st) (d_nodes st) (d_visited st) [] l) →
  dfsStep dockPos maxNodes st = out →
  ∃ l, let st' := match out with inl st' => st' | inr e => exitState e end in
       ExpandedIn start (d_seen st') (d_nodes st') (d_visited st') [] l.
Proof.
  intros (_ & HF & _) [l Hexp] <-. unfold dfsStep.
  destruct (d_stack st) as [|[grid par] rest] eqn:Hst; [by exists l|].
  rewrite fmap_cons in HF. simpl in HF.
  apply Frontier_cons in HF as [[Hp _] _].
  case_decide as Hseen; [by exists l|].
  exists (l ++ [grid]).
  pose proof (expanded_one _ _ _ grid l Hexp Hseen Hp) as Hexp'.
  destruct (goalTest grid dockPos); [done|].
  destruct (maxNodes <? S (d_nodes st))%nat; [done|].
  by destruct (foldl _ _ _).
Qed.

Lemma dfs_expanded maxNodes e :
  dfsRun start maxNodes = Some e →
  ∃ l, ExpandedIn start (d_seen (exitState e)) (d_nodes (exitState e))
         (d_visited (exitState e)) [] l.
Proof.
  intros Hrun. unfold dfsRun in Hrun.
  apply (runLoop_inv _ (λ st, DfsInv start maxNodes st ∧
           ∃ l, ExpandedIn start (d_seen st) (d_nodes st) (d_visited st) [] l))
    in Hrun as (s & [Hinv Hexp] & Hstep).
  - apply (dfsStep_expanded _ _ _ _ Hinv Hexp Hstep).
  - intros s s' [Hinv Hexp] Hstep. split; [by eapply dfsStep_inv|].
    apply (dfsStep_expanded _ _ _ _ Hinv Hexp Hstep).
  - split; [apply DfsInv_init|]. exists []. split; [done|]. split; [constructor|].
    split; [by intros g ?%elem_of_nil|]. split; [by intros g ?%elem_of_nil|done].
Qed.

Lemma bestStep_expanded dockPos maxNodes st out :
  BestInv start maxNodes st →
  (∃ l, ExpandedIn start (f_seen st) (f_nodes st) (f_visited st) [] l) →
  bestStep dockPos maxNodes st = out →
  ∃ l, let st' := match out with inl st' => st' | inr e => exitState e end in
       ExpandedIn start (f_seen st') (f_nodes st') (f_visited st') [] l.
Proof.
  intros (_ & HF & _) [l Hexp] <-. unfold bestStep.
  destruct (f_pq st) as [|[grid sc] rest] eqn:Hst; [by exists l|].
  rewrite fmap_cons in HF. simpl in HF.
  apply Frontier_cons in HF as [[Hp _] _].
  case_decide as Hseen; [by exists l|].
  exists (l ++ [grid]).
  pose proof (expanded_one _ _ _ grid l Hexp Hseen Hp) as Hexp'.
  destruct (goalTest grid (Some dockPos)); [done|].
  destruct (maxNodes <? S (f_nodes st))%nat; [done|].
  by destruct (foldl _ _ _).
Qed.

Lemma best_expanded dockPos maxNodes e :
  bestRun dockPos start maxNodes = Some e →
  ∃ l, ExpandedIn start (f_seen (exitState e)) (f_nodes (exitState e))
         (f_visited (exitState e)) [] l.
Proof.
  intros Hrun. unfold bestRun in Hrun.
  apply (runLoop_inv _ (λ st, BestInv start maxNodes st ∧
           ∃ l, ExpandedIn start (f_seen st) (f_nodes st) (f_visited st) [] l))
    in Hrun as (s & [Hinv Hexp] & Hstep).
  - apply (bestStep_expanded _ _ _ _ Hinv Hexp Hstep).
  - intros s s' [Hinv Hexp] Hstep. split; [by eapply bestStep_inv|].
    apply (bestStep_expanded _ _ _ _ Hinv Hexp Hstep).
  - split; [apply BestInv_init|]. exists []. split; [done|]. split; [constructor|].
    split; [by intros g ?%elem_of_nil|]. split; [by intros g ?%elem_of_nil|done].
Qed.

Lemma bfs_fold_expanded key nodes visited l nexts : ∀ seen parent q,
  ExpandedIn start seen nodes visited q l →
  ExpandedIn start (foldl (bfsPush key) (seen, parent, q) nexts).1.1 nodes visited
    (foldl (bfsPush key) (seen, parent, q) nexts).2 l.
Proof.
  induction nexts as [|ng nexts IH]; intros seen parent q Hexp; [done|].
  cbn [foldl]. unfold bfsPush at 2 4.
  case_decide as Hseen; [by apply IH|].
  apply IH. by apply expanded_wait.
Qed.

Lemma bfsStep_expanded maxNodes st out :
  BfsInv start maxNodes st →
  (∃ l, ExpandedIn start (b_seen st) (b_nodes st) (b_visited st) (b_q st) l) →
  bfsStep (findCell start DOCK) maxNodes st = out →
  ∃ l, let st' := match out with inl st' => st' | inr e => exitState e end in
       ExpandedIn start (b_seen st') (b_nodes st') (b_visited st') (b_q st') l.
Proof.
  intros [Hn Hseen Htree (d & A & B & Hq & HAB & HA & HB & Hcompl) Hex] [l Hexp] <-.
  unfold bfsStep.
  destruct (b_q st) as [|h rest] eqn:Hbq; [exists l; simpl; by rewrite Hbq|].
  assert (∃ gs0, Path start h gs0) as Hp.
  { assert (h ∈ A ++ B) as [Hin|Hin]%elem_of_app by (rewrite <-Hq; by left).
    - eapply Forall_forall in HA; [|exact Hin]. by eapply AtLevel_Path.
    - eapply Forall_forall in HB; [|exact Hin]. by eapply AtLevel_Path. }
  exists (l ++ [h]).
  pose proof (expanded_pop _ _ _ h rest l Hexp Hp) as Hexp'.
  destruct (goalTest h (findCell start DOCK)); [done|].
  destruct (maxNodes <? S (b_nodes st))%nat; [done|].
  pose proof (bfs_fold_expanded (serializeGrid h) _ _ _ (moveGen h)
                (b_seen st) (b_parent st) rest Hexp') as Hfold.
  by destruct (foldl _ _ _) as [[seen' parent'] q'].
Qed.

Lemma bfs_expanded maxNodes e :
  bfsRun start maxNodes = Some e →
  ∃ l, ExpandedIn start (b_seen (exitState e)) (b_nodes (exitState e))
         (b_visited (exitState e)) (b_q (exitState e)) l.
Proof.
  intros Hrun. unfold bfsRun in Hrun.
  apply (runLoop_inv _ (λ st, BfsInv start maxNodes st ∧
           ∃ l, ExpandedIn start (b_seen st) (b_nodes st) (b_visited st) (b_q st) l))
    in Hrun as (s & [Hinv Hexp] & Hstep).
  - apply (bfsStep_expanded _ _ _ Hinv Hexp Hstep).
  - intros s s' [Hinv Hexp] Hstep. split; [by eapply bfsStep_inv|].
    apply (bfsStep_expanded _ _ _ Hinv Hexp Hstep).
  - split; [apply BfsInv_init|]. exists []. split; [done|].
    split; [simpl; apply NoDup_singleton|].
    split; [intros g Hg; apply list_elem_of_singleton in Hg as ->; simpl; set_solver|].
    split; [by intros g ?%elem_of_nil|done].
Qed.

(** The statistics of a result built from an exit state. *)
Lemma expanded_result seen nodes visited waiting l res :
  ExpandedIn start seen nodes visited waiting l →
  nodesExpanded res = nodes → visitedProbe res = visited →
  Expanded start res l.
Proof.
  intros (Hlen & Hnd & _ & Hpath & ->) Hn Hv.
  split; [congruence|]. split; [|done].
  rewrite fmap_app in Hnd. by apply NoDup_app in Hnd as [? _].
Qed.
End expanded.

Section outcomes.
Implicit Types (start : Grid) (res : SearchResult).

(** *** How the calls end *)

Lemma runLoop_ends {St : Type} (step : St → St + Exit St) fuel st0 e :
  runLoop step fuel st0 = Some e → EndsWith step st0 e.
Proof.
  intros Hrun.
  apply (runLoop_inv step (Iterates step st0)) in Hrun; [done| |constructor].
  intros s s' Hs Hstep. by econstructor.
Qed.

Lemma Expanded_nil start : Expanded start (mkResult None 0 []) [].
Proof.
  split; [done|]. split; [constructor|]. split; [|done].
  intros g Hg. by apply elem_of_nil in Hg.
Qed.

Lemma malformed_outcome start maxNodes :
  findCell start DOCK = None ∨ findCell start PROBE = None →
  Outcome start maxNodes (mkResult None 0 []).
Proof.
  intros Hm. apply Outcome_exhausted; [done|simpl; lia|].
  intros gs. destruct Hm; [by apply no_dock_no_solution|by apply no_probe_no_solution].
Qed.

Lemma dfs_outcome start maxNodes :
  ∃ res, dfsSolve start maxNodes = Some res ∧
    Outcome start maxNodes res ∧
    length (visitedProbe res) = nodesExpanded res ∧
    (∃ l, Expanded start res l) ∧
    (is_Some (findCell start DOCK) → is_Some (findCell start PROBE) →
     ∃ e, EndsWith (dfsStep (findCell start DOCK) maxNodes) (dfsInit start) e ∧
          dfsFinish start e = Some res ∧
          ExitResult d_nodes d_visited (λ st, d_stack st = []) maxNodes e res).
Proof.
  destruct (findCell start DOCK) as [dock|] eqn:Hd.
  2:{ exists (mkResult None 0 []). unfold dfsSolve. rewrite Hd.
      split; [done|]. split; [apply malformed_outcome; by left|].
      split; [done|]. split; [exists []; apply Expanded_nil|]. by intros [? ?]. }
  destruct (findCell start PROBE) as [probe|] eqn:Hp.
  2:{ exists (mkResult None 0 []). unfold dfsSolve. rewrite Hd, Hp.
      split; [done|]. split; [apply malformed_outcome; by right|].
      split; [done|]. split; [exists []; apply Expanded_nil|]. by intros _ [? ?]. }
  assert (is_Some (findCell start PROBE)) as Hs by (by rewrite Hp).
  destruct (dfsRun_terminates start maxNodes) as [e Hrun].
  destruct (dfs_exit_facts start maxNodes e Hs Hrun) as [Hcnt Hfacts].
  pose proof (dfs_expanded start maxNodes e Hrun) as HEXP.
  pose proof Hrun as Hends. unfold dfsRun in Hends. apply runLoop_ends in Hends.
  rewrite Hd in Hends.
  assert (∃ res, dfsFinish start e = Some res ∧
                 nodesExpanded res = d_nodes (exitState e) ∧
                 visitedProbe res = d_visited (exitState e) ∧
                 (path res = None ↔ ¬ ∃ key st, e = Found key st))
    as (res & Hfin & Hn & Hv & Hpath).
  { destruct e as [key st|st|st].
    - destruct (dfs_found start maxNodes key st Hs Hrun) as (g & gs & _ & _ & Hfin).
      eexists. split; [exact Hfin|]. split; [done|]. split; [done|].
      split; [done|]. intros Hno. exfalso. apply Hno. eauto.
    - eexists. split; [done|]. split; [done|]. split; [done|].
      split; [by intros _ (? & ? & ?)|done].
    - eexists. split; [done|]. split; [done|]. split; [done|].
      split; [by intros _ (? & ? & ?)|done]. }
  assert (dfsSolve start maxNodes = Some res) as Hsolve.
  { unfold dfsSolve. rewrite Hd, Hp, Hrun. done. }
  exists res. split; [done|].
  split.
  { destruct e as [key st|st|st]; simpl in *.
    - destruct (path res) as [p|] eqn:Hpr.
      + destruct (dfsSolve_path start maxNodes res p Hsolve Hpr) as (gs & Hsol & Hpg).
        eapply Outcome_found; [done|done|done|]. lia.
      + exfalso. apply (proj1 Hpath); [done|]. eauto.
    - apply Outcome_ceiling; [|lia]. apply Hpath. by intros (? & ? & ?).
    - apply Outcome_exhausted; [|lia|tauto]. apply Hpath. by intros (? & ? & ?). }
  split; [by rewrite Hn, Hv|].
  split.
  { destruct HEXP as [l Hl]. exists l. by eapply expanded_result. }
  intros _ _. exists e. split; [done|]. split; [done|].
  split; [done|]. split; [done|].
  destruct e as [key st|st|st]; simpl in *.
  - destruct (path res); [done|]. exfalso. apply (proj1 Hpath); [done|]. eauto.
  - split; [|lia]. apply Hpath. by intros (? & ? & ?).
  - split; [apply Hpath; by intros (? & ? & ?)|].
    destruct Hends as (s & _ & Hstep). unfold dfsStep in Hstep.
    destruct (d_stack s) as [|[grid par] rest] eqn:Hst; [by injection Hstep as <-|].
    case_decide; [done|]. destruct (goalTest _ _); [done|].
    destruct (maxNodes <? _)%nat; [done|]. by destruct (foldl _ _ _).
Qed.

Lemma bfs_outcome start maxNodes :
  ∃ res, bfsSolve start maxNodes = Some res ∧
    Outcome start maxNodes res ∧
    length (visitedProbe res) = nodesExpanded res ∧
    (∃ l, Expanded start res l) ∧
    (is_Some (findCell start DOCK) → is_Some (findCell start PROBE) →
     ∃ e, EndsWith (bfsStep (findCell start DOCK) maxNodes) (bfsInit start) e ∧
          bfsFinish start e = Some res ∧
          ExitResult b_nodes b_visited (λ st, b_q st = []) maxNodes e res).
Proof.
  destruct (findCell start DOCK) as [dock|] eqn:Hd.
  2:{ exists (mkResult None 0 []). unfold bfsSolve. rewrite Hd.
      split; [done|]. split; [apply malformed_outcome; by left|].
      split; [done|]. split; [exists []; apply Expanded_nil|]. by intros [? ?]. }
  destruct (findCell start PROBE) as [probe|] eqn:Hp.
  2:{ exists (mkResult None 0 []). unfold bfsSolve. rewrite Hd, Hp.
      split; [done|]. split; [apply malformed_outcome; by right|].
      split; [done|]. split; [exists []; apply Expanded_nil|]. by intros _ [? ?]. }
  assert (is_Some (findCell start PROBE)) as Hs by (by rewrite Hp).
  destruct (bfsRun_terminates start maxNodes) as [e Hrun].
  destruct (bfs_exit_facts start maxNodes e Hs Hrun) as [Hcnt Hfacts].
  pose proof (bfs_expanded start maxNodes e Hrun) as HEXP.
  pose proof Hrun as Hends. unfold bfsRun in Hends. apply runLoop_ends in Hends.
  rewrite Hd in Hends.
  assert (∃ res, bfsFinish start e = Some res ∧
                 nodesExpanded res = b_nodes (exitState e) ∧
                 visitedProbe res = b_visited (exitState e) ∧
                 (path res = None ↔ ¬ ∃ key st, e = Found key st))
    as (res & Hfin & Hn & Hv & Hpath).
  { destruct e as [key st|st|st].
    - destruct (bfs_found start maxNodes key st Hrun) as (g & gs & _ & _ & _ & Hfin).
      eexists. split; [exact Hfin|]. split; [done|]. split; [done|].
      split; [done|]. intros Hno. exfalso. apply Hno. eauto.
    - eexists. split; [done|]. split; [done|]. split; [done|].
      split; [by intros _ (? & ? & ?)|done].
    - eexists. split; [done|]. split; [done|]. split; [done|].
      split; [by intros _ (? & ? & ?)|done]. }
  assert (bfsSolve start maxNodes = Some res) as Hsolve.
  { unfold bfsSolve. rewrite Hd, Hp, Hrun. done. }
  exists res. split; [done|].
  split.
  { destruct e as [key st|st|st]; simpl in *.
    - destruct (path res) as [p|] eqn:Hpr.
      + destruct (bfsSolve_path start maxNodes res p Hsolve Hpr) as (gs & Hsol & Hpg & _).
        eapply Outcome_found; [done|done|done|]. lia.
      + exfalso. apply (proj1 Hpath); [done|]. eauto.
    - apply Outcome_ceiling; [|lia]. apply Hpath. by intros (? & ? & ?).
    - apply Outcome_exhausted; [|lia|tauto]. apply Hpath. by intros (? & ? & ?). }
  split; [by rewrite Hn, Hv|].
  split.
  { destruct HEXP as [l Hl]. exists l. by eapply expanded_result. }
  intros _ _. exists e. split; [done|]. split; [done|].
  split; [done|]. split; [done|].
  destruct e as [key st|st|st]; simpl in *.
  - destruct (path res); [done|]. exfalso. apply (proj1 Hpath); [done|]. eauto.
  - split; [|lia]. apply Hpath. by intros (? & ? & ?).
  - split; [apply Hpath; by intros (? & ? & ?)|].
    destruct Hends as (s & _ & Hstep). unfold bfsStep in Hstep.
    destruct (b_q s) as [|h rest] eqn:Hst; [by injection Hstep as <-|].
    destruct (goalTest _ _); [done|].
    destruct (maxNodes <? _)%nat; [done|]. by destruct (foldl _ _ _) as [[? ?] ?].
Qed.

Lemma best_outcome start maxNodes :
  ∃ res, bestFirstSolve start maxNodes = Some res ∧
    Outcome start maxNodes res ∧
    length (visitedProbe res) = nodesExpanded res ∧
    (∃ l, Expanded start res l) ∧
    (∀ dockPos, findCell start DOCK = Some dockPos →
     ∃ e, EndsWith (bestStep dockPos maxNodes) (bestInit dockPos start) e ∧
          bestFinish start e = Some res ∧
          ExitResult f_nodes f_visited (λ st, f_pq st = []) maxNodes e res).
Proof.
  destruct (findCell start DOCK) as [dock|] eqn:Hd.
  2:{ exists (mkResult None 0 []). unfold bestFirstSolve. rewrite Hd.
      split; [done|]. split; [apply malformed_outcome; by left|].
      split; [done|]. split; [exists []; apply Expanded_nil|]. by intros ?. }
  destruct (findCell start PROBE) as [probe|] eqn:Hp.
  2:{ destruct (best_no_probe start dock maxNodes Hp) as [Hrun Hpq].
      exists (mkResult None 0 []). unfold bestFirstSolve. rewrite Hd, Hrun.
      split; [done|]. split; [apply malformed_outcome; by right|].
      split; [done|]. split; [exists []; apply Expanded_nil|].
      intros dockPos [= <-].
      exists (Exhausted (bestInit dock start)).
      split; [unfold bestRun in Hrun; by apply runLoop_ends in Hrun|].
      split; [done|]. by repeat split. }
  assert (is_Some (findCell start PROBE)) as Hs by (by rewrite Hp).
  destruct (bestRun_terminates start dock maxNodes) as [e Hrun].
  destruct (best_exit_facts start dock maxNodes e Hd Hs Hrun) as [Hcnt Hfacts].
  pose proof (best_expanded start dock maxNodes e Hrun) as HEXP.
  pose proof Hrun as Hends. unfold bestRun in Hends. apply runLoop_ends in Hends.
  assert (∃ res, bestFinish start e = Some res ∧
                 nodesExpanded res = f_nodes (exitState e) ∧
                 visitedProbe res = f_visited (exitState e) ∧
                 (path res = None ↔ ¬ ∃ key st, e = Found key st))
    as (res & Hfin & Hn & Hv & Hpath).
  { destruct e as [key st|st|st].
    - destruct (best_found start dock maxNodes key st Hrun) as (g & gs & _ & _ & Hfin).
      eexists. split; [exact Hfin|]. split; [done|]. split; [done|].
      split; [done|]. intros Hno. exfalso. apply Hno. eauto.
    - eexists. split; [done|]. split; [done|]. split; [done|].
      split; [by intros _ (? & ? & ?)|done].
    - eexists. split; [done|]. split; [done|]. split; [done|].
      split; [by intros _ (? & ? & ?)|done]. }
  assert (bestFirstSolve start maxNodes = Some res) as Hsolve.
  { unfold bestFirstSolve. rewrite Hd, Hrun. done. }
  exists res. split; [done|].
  split.
  { destruct e as [key st|st|st]; simpl in *.
    - destruct (path res) as [p|] eqn:Hpr.
      + destruct (bestFirstSolve_path start maxNodes res p Hsolve Hpr) as (gs & Hsol & Hpg).
        eapply Outcome_found; [done|done|done|]. lia.
      + exfalso. apply (proj1 Hpath); [done|]. eauto.
    - apply Outcome_ceiling; [|lia]. apply Hpath. by intros (? & ? & ?).
    - apply Outcome_exhausted; [|lia|tauto]. apply Hpath. by intros (? & ? & ?). }
  split; [by rewrite Hn, Hv|].
  split.
  { destruct HEXP as [l Hl]. exists l. by eapply expanded_result. }
  intros dockPos [= <-]. exists e. split; [done|]. split; [done|].
  split; [done|]. split; [done|].
  destruct e as [key st|st|st]; simpl in *.
  - destruct (path res); [done|]. exfalso. apply (proj1 Hpath); [done|]. eauto.
  - split; [|lia]. apply Hpath. by intros (? & ? & ?).
  - split; [apply Hpath; by intros (? & ? & ?)|].
    destruct Hends as (s & _ & Hstep). unfold bestStep in Hstep.
    destruct (f_pq s) as [|[grid sc] rest] eqn:Hst; [by injection Hstep as <-|].
    case_decide; [done|]. destruct (goalTest _ _); [done|].
    destruct (maxNodes <? _)%nat; [done|]. by destruct (foldl _ _ _).
Qed.

(** C8.  Every call of the three engines returns a result object, it never
    fails: the loop is left within the iterations the ceiling allows and
    the walk along the parent links ends.  The result is of one of three
    kinds.  It holds a solution path (the rebuilt configurations of a
    solution); or it holds no path and at most [maxNodes] states were
    expanded, and then the frontier emptied (or a guard found no probe or
    no dock) and there is no solution at all; or it holds no path and
    [maxNodes + 1] states were expanded, the ceiling [break].  In each case
    the result carries the statistics.  The count of expanded states is
    the number of configurations the call expanded, which have pairwise
    different keys and are all reachable from the start, and the visited
    probe positions are theirs, one for each.  The elapsed time is the
    difference of the two clock readings of the call, not negative for a
    clock that does not run backwards.  For a start with a probe and a
    dock the result is the one built from the exit of the loop, in a state
    the loop reaches from its first state: with the counter and the
    positions of that state, with a path exactly for the goal exit, after
    the ceiling [break] with a counter above [maxNodes], and after the
    other exit with an empty frontier. *)
Theorem solve_total (now : nat → Z) start maxNodes :
  (∃ res, dfsSolve start maxNodes = Some res ∧
     dfsSolveTimed now start maxNodes = Some (mkTimed res (now 1%nat - now 0%nat)) ∧
     Outcome start maxNodes res ∧
     length (visitedProbe res) = nodesExpanded res ∧
     (∃ l, Expanded start res l) ∧
     (is_Some (findCell start DOCK) → is_Some (findCell start PROBE) →
      ∃ e, EndsWith (dfsStep (findCell start DOCK) maxNodes) (dfsInit start) e ∧
           dfsFinish start e = Some res ∧
           ExitResult d_nodes d_visited (λ st, d_stack st = []) maxNodes e res)) ∧
  (∃ res, bfsSolve start maxNodes = Some res ∧
     bfsSolveTimed now start maxNodes = Some (mkTimed res (now 1%nat - now 0%nat)) ∧
     Outcome start maxNodes res ∧
     length (visitedProbe res) = nodesExpanded res ∧
     (∃ l, Expanded start res l) ∧
     (is_Some (findCell start DOCK) → is_Some (findCell start PROBE) →
      ∃ e, EndsWith (bfsStep (findCell start DOCK) maxNodes) (bfsInit start) e ∧
           bfsFinish start e = Some res ∧
           ExitResult b_nodes b_visited (λ st, b_q st = []) maxNodes e res)) ∧
  (∃ res, bestFirstSolve start maxNodes = Some res ∧
     bestFirstSolveTimed now start maxNodes =
       Some (mkTimed res (now 1%nat - now 0%nat)) ∧
     Outcome start maxNodes res ∧
     length (visitedProbe res) = nodesExpanded res ∧
     (∃ l, Expanded start res l) ∧
     (∀ dockPos, findCell start DOCK = Some dockPos →
      ∃ e, EndsWith (bestStep dockPos maxNodes) (bestInit dockPos start) e ∧
           bestFinish start e = Some res ∧
           ExitResult f_nodes f_visited (λ st, f_pq st = []) maxNodes e res)) ∧
  (now 0%nat ≤ now 1%nat →
   ∀ tr, dfsSolveTimed now start maxNodes = Some tr ∨
         bfsSolveTimed now start maxNodes = Some tr ∨
         bestFirstSolveTimed now start maxNodes = Some tr → 0 ≤ timeMs tr).
Proof.
  split; [|split; [|split]].
  - destruct (dfs_outcome start maxNodes) as (res & Hsolve & Hrest).
    exists res. split; [done|]. split; [|done].
    unfold dfsSolveTimed, withTime. by rewrite Hsolve.
  - destruct (bfs_outcome start maxNodes) as (res & Hsolve & Hrest).
    exists res. split; [done|]. split; [|done].
    unfold bfsSolveTimed, withTime. by rewrite Hsolve.
  - destruct (best_outcome start maxNodes) as (res & Hsolve & Hrest).
    exists res. split; [done|]. split; [|done].
    unfold bestFirstSolveTimed, withTime. by rewrite Hsolve.
  - intros Hmono tr.
    unfold dfsSolveTimed, bfsSolveTimed, bestFirstSolveTimed, withTime.
    intros [H|[H|H]];
      match type of H with
      | context [mbind _ ?run] => destruct run; [|done]
      end; cbn [mbind option_bind] in H; injection H as <-; simpl; lia.
Qed.
End outcomes.
